(** * Open/R core routing plane: shallow embedding and verified properties

  The development follows the layout of the sources:
  - [LinkMonitor]      openr/link-monitor/LinkMonitor.cpp
  - [Messaging]        openr/messaging/Queue-inl.h, ReplicateQueue.h
  - [CtrlHandler]      openr/ctrl-server/OpenrCtrlHandler.cpp
  - [KvStore]          openr/kvstore/KvStore.h
  - [Fib]              openr/fib/Fib.h
  - [Decision]         openr/decision/Decision.h

  Machine integers are mathematical integers with the wrap-around of
  the C++ conversion written out; [std::unordered_map] is a [gmap],
  [std::set]/[std::unordered_set] a [gset], [std::string] a [string]
  compared bytewise. *)

From Stdlib Require Import ZArith Lia Bool List.
From Stdlib Require Import Strings.String Strings.Ascii.
From stdpp Require Import base option list gmap strings pretty fin_maps.

Local Open Scope Z_scope.

(** ** Machine integers *)

Module MachineInt.

Definition INT32_MIN : Z := - 2 ^ 31.
Definition INT32_MAX : Z := 2 ^ 31 - 1.
Definition INT64_MIN : Z := - 2 ^ 63.
Definition INT64_MAX : Z := 2 ^ 63 - 1.

Definition fits_int32 (z : Z) : Prop := INT32_MIN <= z <= INT32_MAX.
Definition fits_int64 (z : Z) : Prop := INT64_MIN <= z <= INT64_MAX.

(** Conversion of an integer to [int]: the value modulo [2^32] that lies
    in the signed 32-bit range. *)
Definition to_int32 (z : Z) : Z := (z + 2 ^ 31) mod 2 ^ 32 - 2 ^ 31.

(** Conversion of an integer to [int64_t]. *)
Definition to_int64 (z : Z) : Z := (z + 2 ^ 63) mod 2 ^ 64 - 2 ^ 63.

End MachineInt.

(** ** Bytewise order on [std::string] *)

Module StrOrder.

(** [a < b] and [a > b] of [std::string]: lexicographic on unsigned
    bytes, a proper prefix being smaller. *)
Definition lt (a b : string) : bool := String.ltb a b.
Definition gt (a b : string) : bool := String.ltb b a.
Definition le (a b : string) : bool := String.leb a b.

End StrOrder.

(** ** KvStore wire types (thrift) *)

Module Thrift.

(** [thrift::Value]: (version, originatorId, value, ttl, ttlVersion,
    hash), the payload and the hash being optional. *)
Record Value := mkValue {
  version : Z;
  originatorId : string;
  value : option string;
  ttl : Z;
  ttlVersion : Z;
  hash : option Z }.

#[global] Instance Value_eq_dec : EqDecision Value.
Proof. solve_decision. Defined.

(** [thrift::Publication], the fields read by the modelled code. *)
Record Publication := mkPublication {
  keyVals : gmap string Value;
  expiredKeys : list string;
  tobeUpdatedKeys : option (list string) }.

End Thrift.

(** ** LinkMonitor (openr/link-monitor/LinkMonitor.cpp) *)

Module LinkMonitor.
Import MachineInt.

(** *** Data model *)

(** [thrift::PeerSpec] *)
Record PeerSpec := mkPeerSpec {
  pubUrl : string;
  cmdUrl : string;
  supportFloodOptimization : bool }.

#[global] Instance PeerSpec_eq_dec : EqDecision PeerSpec.
Proof. solve_decision. Defined.

(** [thrift::Adjacency], as filled by [createThriftAdjacency]. *)
Record Adjacency := mkAdjacency {
  otherNodeName : string;
  ifName : string;
  nextHopV6 : string;
  nextHopV4 : string;
  metric : Z;
  adjLabel : Z;
  isOverloaded : bool;
  rtt : Z;
  timestamp : Z;
  weight : Z;
  otherIfName : string }.

(** [AdjacencyValue]: the entry kept per (remote node, local interface). *)
Record AdjacencyValue := mkAdjacencyValue {
  peerSpec : PeerSpec;
  adjacency : Adjacency;
  isRestarting : bool;
  area : string }.

(** [thrift::LinkMonitorConfig]; [thrift::AdjKey] is the pair
    (nodeName, ifName). *)
Record LinkMonitorConfig := mkConfig {
  cfgIsOverloaded : bool;
  overloadedLinks : gset string;
  linkMetricOverrides : gmap string Z;
  nodeLabel : Z;
  adjMetricOverrides : gmap (string * string) Z }.

(** [thrift::AdjacencyDatabase] as assembled by [advertiseAdjacencies];
    the perf-event list keeps the event names, not their wall-clock stamps. *)
Record AdjacencyDatabase := mkAdjDb {
  thisNodeName : string;
  dbIsOverloaded : bool;
  adjacencies : list Adjacency;
  dbNodeLabel : Z;
  perfEvents : option (list (string * string));
  dbArea : string }.

(** The part of [InterfaceEntry] LinkMonitor reads here; [getWeight]
    returns a [uint64_t]. *)
Record InterfaceEntry := mkInterfaceEntry {
  ifIndex : Z;
  isUp : bool;
  getWeight : Z }.

(** [thrift::SparkNeighbor] and [thrift::SparkNeighborEvent];
    addresses are kept in their printed form. *)
Record SparkNeighbor := mkSparkNeighbor {
  nodeName : string;
  transportAddressV6 : string;
  transportAddressV4 : string;
  nbrIfName : string;
  kvStorePubPort : Z;
  kvStoreCmdPort : Z }.

Inductive SparkNeighborEventType :=
| NEIGHBOR_UP
| NEIGHBOR_DOWN
| NEIGHBOR_RESTARTED
| NEIGHBOR_RTT_CHANGE
| NEIGHBOR_RESTARTING.

Record SparkNeighborEvent := mkSparkNeighborEvent {
  eventType : SparkNeighborEventType;
  evIfName : string;
  neighbor : SparkNeighbor;
  rttUs : Z;
  label : Z;
  evSupportFloodOptimization : bool;
  evArea : string }.

(** Requests sent to KvStore through [kvStoreClient_]. *)
Inductive KvStoreRequest :=
| DelPeers (names : list string) (area : string)
| AddPeers (peers : gmap string PeerSpec) (area : string)
| PersistKey (key : string) (adjDb : AdjacencyDatabase) (ttl : Z) (area : string).

(** The outcome a [folly::SemiFuture<T>] delivers to the caller. *)
Inductive Try (T : Type) :=
| TryValue (v : T)
| TryException (what : string).
Arguments TryValue {T} v.
Arguments TryException {T} what.

(** The members of [LinkMonitor] the modelled methods read and write,
    and the requests they have issued so far (newest last). *)
Record State := mkState {
  nodeId_ : string;
  areas_ : list string;
  useRttMetric_ : bool;
  enablePerfMeasurement_ : bool;
  enableSegmentRouting_ : bool;
  mockMode_ : bool;
  adjacencyDbMarker_ : string;
  ttlKeyInKvStore_ : Z;
  adjHoldUntilTimePoint_ : Z;
  config_ : LinkMonitorConfig;
  interfaces_ : gmap string InterfaceEntry;
  adjacencies_ : gmap (string * string) AdjacencyValue;
  peers_ : gmap string (gmap string PeerSpec);
  advertiseAdjacenciesThrottledActive : bool;
  kvStoreRequests : list KvStoreRequest;
  configStoreWrites : list LinkMonitorConfig }.

Definition set_config (c : LinkMonitorConfig) (st : State) : State :=
  mkState (nodeId_ st) (areas_ st) (useRttMetric_ st)
    (enablePerfMeasurement_ st) (enableSegmentRouting_ st) (mockMode_ st)
    (adjacencyDbMarker_ st) (ttlKeyInKvStore_ st) (adjHoldUntilTimePoint_ st)
    c (interfaces_ st) (adjacencies_ st) (peers_ st)
    (advertiseAdjacenciesThrottledActive st) (kvStoreRequests st)
    (configStoreWrites st).

Definition set_adjacencies (a : gmap (string * string) AdjacencyValue)
    (st : State) : State :=
  mkState (nodeId_ st) (areas_ st) (useRttMetric_ st)
    (enablePerfMeasurement_ st) (enableSegmentRouting_ st) (mockMode_ st)
    (adjacencyDbMarker_ st) (ttlKeyInKvStore_ st) (adjHoldUntilTimePoint_ st)
    (config_ st) (interfaces_ st) a (peers_ st)
    (advertiseAdjacenciesThrottledActive st) (kvStoreRequests st)
    (configStoreWrites st).

Definition set_peers (p : gmap string (gmap string PeerSpec))
    (st : State) : State :=
  mkState (nodeId_ st) (areas_ st) (useRttMetric_ st)
    (enablePerfMeasurement_ st) (enableSegmentRouting_ st) (mockMode_ st)
    (adjacencyDbMarker_ st) (ttlKeyInKvStore_ st) (adjHoldUntilTimePoint_ st)
    (config_ st) (interfaces_ st) (adjacencies_ st) p
    (advertiseAdjacenciesThrottledActive st) (kvStoreRequests st)
    (configStoreWrites st).

Definition set_throttle (b : bool) (st : State) : State :=
  mkState (nodeId_ st) (areas_ st) (useRttMetric_ st)
    (enablePerfMeasurement_ st) (enableSegmentRouting_ st) (mockMode_ st)
    (adjacencyDbMarker_ st) (ttlKeyInKvStore_ st) (adjHoldUntilTimePoint_ st)
    (config_ st) (interfaces_ st) (adjacencies_ st) (peers_ st)
    b (kvStoreRequests st) (configStoreWrites st).

Definition send_kvStore (r : KvStoreRequest) (st : State) : State :=
  mkState (nodeId_ st) (areas_ st) (useRttMetric_ st)
    (enablePerfMeasurement_ st) (enableSegmentRouting_ st) (mockMode_ st)
    (adjacencyDbMarker_ st) (ttlKeyInKvStore_ st) (adjHoldUntilTimePoint_ st)
    (config_ st) (interfaces_ st) (adjacencies_ st) (peers_ st)
    (advertiseAdjacenciesThrottledActive st) (kvStoreRequests st ++ [r])
    (configStoreWrites st).

Definition store_config (st : State) : State :=
  mkState (nodeId_ st) (areas_ st) (useRttMetric_ st)
    (enablePerfMeasurement_ st) (enableSegmentRouting_ st) (mockMode_ st)
    (adjacencyDbMarker_ st) (ttlKeyInKvStore_ st) (adjHoldUntilTimePoint_ st)
    (config_ st) (interfaces_ st) (adjacencies_ st) (peers_ st)
    (advertiseAdjacenciesThrottledActive st) (kvStoreRequests st)
    (configStoreWrites st ++ [config_ st]).

(** [folly::sformat("tcp://[{}%{}]:{}", addr, ifName, port)] *)
Definition tcpUrl (addr iface : string) (port : Z) : string :=
  ("tcp://[" ++ addr ++ "%" ++ iface ++ "]:" ++ pretty port)%string.

(** *** getRttMetric *)

(** [std::max((int)(rttUs / 100), (int)1)]: the 64-bit quotient truncates
    toward zero and is then converted to [int]. *)
Definition getRttMetric (rttUs : Z) : Z :=
  Z.max (to_int32 (rttUs ÷ 100)) 1.

(** *** getPeersFromAdjacencies *)

(** An adjacency takes part in the peering of [area0]: it is in that area
    and its neighbor is not restarting. *)
Definition eligible (area0 : string) (v : AdjacencyValue) : Prop :=
  area v = area0 /\ isRestarting v = false.

(** One iteration of the first loop, on the entry [(nodeName, iface) ↦ v]. *)
Definition neighborToIface_step (area0 : string)
    (neighborToIface : gmap string string)
    (adjKv : (string * string) * AdjacencyValue) : gmap string string :=
  let '((nodeName, iface), v) := adjKv in
  if negb (String.eqb (area v) area0) || isRestarting v then neighborToIface
  else
    match neighborToIface !! nodeName with
    | None => <[nodeName := iface]> neighborToIface
    | Some cur =>
        if StrOrder.gt cur iface then <[nodeName := iface]> neighborToIface
        else neighborToIface
    end.

(** What the first loop has computed after any sequence of entries. *)
Definition neighborToIface_inv (area0 : string)
    (l : list ((string * string) * AdjacencyValue))
    (m : gmap string string) : Prop :=
  forall node,
    match m !! node with
    | Some iface =>
        (exists v, ((node, iface), v) ∈ l /\ eligible area0 v) /\
        (forall iface' v', ((node, iface'), v') ∈ l -> eligible area0 v' ->
           StrOrder.le iface iface' = true)
    | None =>
        forall iface' v', ((node, iface'), v') ∈ l -> ~ eligible area0 v'
    end.

(** One iteration of the second loop; [adjacencies.at] throws on a
    missing key, which is the result [None]. *)
Definition peers_step (adjs : gmap (string * string) AdjacencyValue)
    (nodeName iface : string) (acc : option (gmap string PeerSpec))
    : option (gmap string PeerSpec) :=
  peers ← acc;
  v ← adjs !! (nodeName, iface);
  Some (match peers !! nodeName with
        | None => <[nodeName := peerSpec v]> peers
        | Some _ => peers
        end).

(** The first loop visits the entries in the container's iteration order
    [order]; the second loop runs over [neighborToIface]. *)
Definition getPeersFromAdjacencies_in
    (order : list ((string * string) * AdjacencyValue))
    (adjs : gmap (string * string) AdjacencyValue) (area0 : string)
    : option (gmap string PeerSpec) :=
  let neighborToIface := foldl (neighborToIface_step area0) ∅ order in
  map_fold (peers_step adjs) (Some ∅) neighborToIface.

Definition getPeersFromAdjacencies
    (adjs : gmap (string * string) AdjacencyValue) (area0 : string)
    : option (gmap string PeerSpec) :=
  getPeersFromAdjacencies_in (map_to_list adjs) adjs area0.

(** The reading of the peer map in which the interface of a neighbor is
    the least of all interfaces recorded for it, whatever their state. *)
Definition spec_from_min_of_all_interfaces
    (adjs : gmap (string * string) AdjacencyValue)
    (peers : gmap string PeerSpec) : Prop :=
  forall node spec, peers !! node = Some spec ->
    exists iface v,
      adjs !! (node, iface) = Some v /\ spec = peerSpec v /\
      forall iface' v', adjs !! (node, iface') = Some v' ->
        StrOrder.le iface iface' = true.

(** Two parallel links to [node1]; the one on [iface0] is restarting. *)
Definition exPeerSpec (iface : string) : PeerSpec :=
  mkPeerSpec (tcpUrl "fe80::2" iface 10001) (tcpUrl "fe80::2" iface 10002)
    false.

Definition exAdjacency (node iface : string) : Adjacency :=
  mkAdjacency node iface "fe80::2" "10.0.0.2" 1 0 false 0 0 1 "remote0".

Definition exAdjacencies : gmap (string * string) AdjacencyValue :=
  <[("node1", "iface0")%string :=
      mkAdjacencyValue (exPeerSpec "iface0") (exAdjacency "node1" "iface0")
        true "0"]>
  (<[("node1", "iface1")%string :=
      mkAdjacencyValue (exPeerSpec "iface1") (exAdjacency "node1" "iface1")
        false "0"]> ∅).

(** The adjacency map of the unit test [LinkMonitor.getPeersFromAdjacencies]
    after its third step: two links to each of [node1] and [node2]. *)
Definition testAdjacencies : gmap (string * string) AdjacencyValue :=
  list_to_map
    ((λ ni : string * string,
        (ni, mkAdjacencyValue (exPeerSpec ni.2) (exAdjacency ni.1 ni.2)
               false "0"))
     <$> [("node1", "iface1"); ("node2", "iface2"); ("node2", "iface3");
          ("node1", "iface0")]%string).

(** *** advertiseKvStorePeers *)

(** What [kvStoreClient_] answers to [delPeers] and [addPeers]: whether
    the [folly::Expected] it returns holds a value, given the requests
    sent before and the request. *)
Definition KvStoreClient := list KvStoreRequest -> KvStoreRequest -> bool.

(** The client that answers every request with success. *)
Definition kvStoreClientOk : KvStoreClient := λ _ _, true.

(** The requests [reqs], sent in this order after the requests [sent],
    are all answered with success. *)
Fixpoint accepted (client : KvStoreClient) (sent reqs : list KvStoreRequest)
    : bool :=
  match reqs with
  | [] => true
  | r :: rest => client sent r && accepted client (sent ++ [r]) rest
  end.

Section KvStoreClient.
Variable kvStoreClient_ : KvStoreClient.

(** A call of [kvStoreClient_->delPeers] or [kvStoreClient_->addPeers]
    followed by [CHECK(ret)]: an error reply aborts the process, which is
    the result [None]. *)
Definition checked_kvStore (r : KvStoreRequest) (st : State) : option State :=
  if kvStoreClient_ (kvStoreRequests st) r then Some (send_kvStore r st)
  else None.

(** The loop over [upPeers]; [CHECK] failure aborts the process, which is
    the result [None]. *)
Definition upPeers_step (newPeers : gmap string PeerSpec)
    (name : string) (spec : PeerSpec) (acc : option (gmap string PeerSpec))
    : option (gmap string PeerSpec) :=
  toAddPeers ← acc;
  match newPeers !! name with
  | None => None
  | Some cur =>
      if bool_decide (is_Some (toAddPeers !! name)) then Some toAddPeers
      else if bool_decide (spec ≠ cur) then Some toAddPeers
      else Some (<[name := spec]> toAddPeers)
  end.

Definition advertiseKvStorePeers_area (area0 : string)
    (upPeers : gmap string PeerSpec) (st : State) : option State :=
  let oldPeers := default ∅ (peers_ st !! area0) in
  newPeers ← getPeersFromAdjacencies (adjacencies_ st) area0;
  let st1 := set_peers (<[area0 := newPeers]> (peers_ st)) st in
  let toDelPeers :=
    filter (λ nodeName, newPeers !! nodeName = None)
           ((map_to_list oldPeers).*1) in
  st2 ←
    match toDelPeers with
    | [] => Some st1
    | _ => checked_kvStore (DelPeers toDelPeers area0) st1
    end;
  let toAddPeers0 :=
    filter (λ newKv, oldPeers !! newKv.1 ≠ Some newKv.2) newPeers in
  toAddPeers ← map_fold (upPeers_step newPeers) (Some toAddPeers0) upPeers;
  if bool_decide (toAddPeers = ∅) then Some st2
  else checked_kvStore (AddPeers toAddPeers area0) st2.

Definition advertiseKvStorePeers (upPeers : gmap string PeerSpec)
    (st : State) : option State :=
  foldl (λ acc area0, st' ← acc; advertiseKvStorePeers_area area0 upPeers st')
        (Some st) (areas_ st).

(** *** advertiseAdjacencies *)

(** [folly::get_default(map, key, dflt)] *)
Definition get_default `{Countable K} {V} (m : gmap K V) (k : K) (dflt : V) : V :=
  default dflt (m !! k).

(** The copy of one adjacency with the overload bit and the metric
    overrides of [config_] applied. *)
Definition overriddenAdjacency (cfg : LinkMonitorConfig) (adj : Adjacency)
    : Adjacency :=
  let metric1 := get_default (linkMetricOverrides cfg) (ifName adj) (metric adj) in
  let metric2 :=
    get_default (adjMetricOverrides cfg) (otherNodeName adj, ifName adj) metric1 in
  mkAdjacency (otherNodeName adj) (ifName adj) (nextHopV6 adj) (nextHopV4 adj)
    metric2 (adjLabel adj)
    (bool_decide (ifName adj ∈ overloadedLinks cfg))
    (rtt adj) (timestamp adj) (weight adj) (otherIfName adj).

Definition buildAdjacencyDatabase (area0 : string) (st : State)
    : AdjacencyDatabase :=
  mkAdjDb (nodeId_ st) (cfgIsOverloaded (config_ st))
    (map (λ adjKv, overriddenAdjacency (config_ st) (adjacency adjKv.2))
         (filter (λ adjKv, area adjKv.2 = area0)
                 (map_to_list (adjacencies_ st))))
    (nodeLabel (config_ st))
    (if enablePerfMeasurement_ st
     then Some [(nodeId_ st, "ADJ_DB_UPDATED"%string)] else None)
    area0.

(** [advertiseAdjacencies(area)]; [now] is the reading of
    [std::chrono::steady_clock::now()]. *)
Definition advertiseAdjacencies_area (now : Z) (area0 : string) (st : State)
    : State :=
  if now <? adjHoldUntilTimePoint_ st then st
  else
    let adjDb := buildAdjacencyDatabase area0 st in
    let keyName := (adjacencyDbMarker_ st ++ nodeId_ st)%string in
    let st1 :=
      send_kvStore (PersistKey keyName adjDb (ttlKeyInKvStore_ st) area0) st in
    let st2 := store_config st1 in
    if advertiseAdjacenciesThrottledActive st2 then set_throttle false st2
    else st2.

Definition advertiseAdjacencies (now : Z) (st : State) : State :=
  foldl (λ st' area0, advertiseAdjacencies_area now area0 st') st (areas_ st).

(** The adjacency databases handed to KvStore so far. *)
Definition isPersistKey (r : KvStoreRequest) : bool :=
  match r with PersistKey _ _ _ _ => true | _ => false end.

Definition publishedAdjDbs (st : State) : list KvStoreRequest :=
  List.filter isPersistKey (kvStoreRequests st).

(** *** Neighbor events *)

(** [advertiseAdjacenciesThrottled_->operator()()]: arm the throttle
    timer unless it is armed already. *)
Definition advertiseAdjacenciesThrottled (st : State) : State :=
  set_throttle true st.

(** [neighborUpEvent]; [unixTs] is the wall clock in seconds. The weight
    of the interface, a [uint64_t], is assigned to an [int64_t]. *)
Definition neighborUpEvent (unixTs : Z) (event : SparkNeighborEvent)
    (st : State) : option State :=
  let ifName0 := evIfName event in
  let remoteNodeName := nodeName (neighbor event) in
  let remoteIfName := nbrIfName (neighbor event) in
  let area0 := evArea event in
  let adjId := (remoteNodeName, ifName0) in
  let neighborAddrV4 := transportAddressV4 (neighbor event) in
  let neighborAddrV6 := transportAddressV6 (neighbor event) in
  let rttMetric := getRttMetric (rttUs event) in
  let weight0 :=
    match interfaces_ st !! ifName0 with
    | Some entry => to_int64 (getWeight entry)
    | None => 1
    end in
  let newAdj :=
    mkAdjacency remoteNodeName ifName0 neighborAddrV6 neighborAddrV4
      (if useRttMetric_ st then rttMetric else 1)
      (if enableSegmentRouting_ st then label event else 0)
      false
      (if useRttMetric_ st then rttUs event else 0)
      unixTs weight0 remoteIfName in
  let '(pubUrl0, repUrl) :=
    if negb (mockMode_ st)
    then (tcpUrl neighborAddrV6 ifName0 (kvStorePubPort (neighbor event)),
          tcpUrl neighborAddrV6 ifName0 (kvStoreCmdPort (neighbor event)))
    else (("inproc://" ++ remoteNodeName ++ "-kvstore-pub-global")%string,
          ("inproc://" ++ remoteNodeName ++ "-kvstore-cmd-global")%string) in
  let peerSpec0 :=
    mkPeerSpec pubUrl0 repUrl (evSupportFloodOptimization event) in
  let st1 :=
    set_adjacencies
      (<[adjId := mkAdjacencyValue peerSpec0 newAdj false area0]>
         (adjacencies_ st)) st in
  st2 ← advertiseKvStorePeers_area area0 {[remoteNodeName := peerSpec0]} st1;
  Some (advertiseAdjacenciesThrottled st2).

Definition neighborDownEvent (now : Z) (remoteNodeName ifName0 area0 : string)
    (st : State) : option State :=
  let adjId := (remoteNodeName, ifName0) in
  let st1 := set_adjacencies (delete adjId (adjacencies_ st)) st in
  st2 ← advertiseKvStorePeers_area area0 ∅ st1;
  Some (advertiseAdjacencies_area now area0 st2).

Definition markRestarting (v : AdjacencyValue) : AdjacencyValue :=
  mkAdjacencyValue (peerSpec v) (adjacency v) true (area v).

Definition neighborRestartingEvent (remoteNodeName ifName0 area0 : string)
    (st : State) : option State :=
  let adjId := (remoteNodeName, ifName0) in
  let st1 :=
    set_adjacencies (alter markRestarting adjId (adjacencies_ st)) st in
  advertiseKvStorePeers_area area0 ∅ st1.

Definition setRttMetric (newRttMetric rttUs0 : Z) (v : AdjacencyValue)
    : AdjacencyValue :=
  let adj := adjacency v in
  mkAdjacencyValue (peerSpec v)
    (mkAdjacency (otherNodeName adj) (ifName adj) (nextHopV6 adj)
       (nextHopV4 adj) newRttMetric (adjLabel adj) (isOverloaded adj)
       rttUs0 (timestamp adj) (weight adj) (otherIfName adj))
    (isRestarting v) (area v).

(** [processNeighborEvent], the consumer of the Spark event queue. *)
Definition processNeighborEvent (now unixTs : Z) (event : SparkNeighborEvent)
    (st : State) : option State :=
  match eventType event with
  | NEIGHBOR_UP => neighborUpEvent unixTs event st
  | NEIGHBOR_RESTARTING =>
      neighborRestartingEvent (nodeName (neighbor event)) (evIfName event)
        (evArea event) st
  | NEIGHBOR_RESTARTED => neighborUpEvent unixTs event st
  | NEIGHBOR_DOWN =>
      neighborDownEvent now (nodeName (neighbor event)) (evIfName event)
        (evArea event) st
  | NEIGHBOR_RTT_CHANGE =>
      if negb (useRttMetric_ st) then Some st
      else
        let newRttMetric := getRttMetric (rttUs event) in
        let adjId := (nodeName (neighbor event), evIfName event) in
        match adjacencies_ st !! adjId with
        | Some v =>
            Some (advertiseAdjacenciesThrottled
                    (set_adjacencies
                       (<[adjId := setRttMetric newRttMetric (rttUs event) v]>
                          (adjacencies_ st)) st))
        | None => Some st
        end
  end.

(** *** Operator commands *)

Definition setNodeOverload (now : Z) (isOverloaded0 : bool) (st : State)
    : Try unit * State :=
  if bool_decide (cfgIsOverloaded (config_ st) = isOverloaded0)
  then (TryValue (), st)
  else
    let cfg := config_ st in
    let st1 :=
      set_config (mkConfig isOverloaded0 (overloadedLinks cfg)
                    (linkMetricOverrides cfg) (nodeLabel cfg)
                    (adjMetricOverrides cfg)) st in
    (TryValue (), advertiseAdjacencies now st1).

Definition setInterfaceOverload (interfaceName : string) (isOverloaded0 : bool)
    (st : State) : Try unit * State :=
  let cfg := config_ st in
  if bool_decide (interfaces_ st !! interfaceName = None)
  then (TryValue (), st)
  else if isOverloaded0 && bool_decide (interfaceName ∈ overloadedLinks cfg)
  then (TryValue (), st)
  else if negb isOverloaded0 &&
          negb (bool_decide (interfaceName ∈ overloadedLinks cfg))
  then (TryValue (), st)
  else
    let links :=
      if isOverloaded0 then overloadedLinks cfg ∪ {[interfaceName]}
      else overloadedLinks cfg ∖ {[interfaceName]} in
    let st1 :=
      set_config (mkConfig (cfgIsOverloaded cfg) links
                    (linkMetricOverrides cfg) (nodeLabel cfg)
                    (adjMetricOverrides cfg)) st in
    (TryValue (), advertiseAdjacenciesThrottled st1).

Definition setLinkMetric (interfaceName : string) (overrideMetric : option Z)
    (st : State) : Try unit * State :=
  let cfg := config_ st in
  if bool_decide (interfaces_ st !! interfaceName = None)
  then (TryValue (), st)
  else
    match overrideMetric, linkMetricOverrides cfg !! interfaceName with
    | Some m, Some cur =>
        if bool_decide (cur = m) then (TryValue (), st)
        else
          (TryValue (),
           advertiseAdjacenciesThrottled
             (set_config (mkConfig (cfgIsOverloaded cfg) (overloadedLinks cfg)
                            (<[interfaceName := m]> (linkMetricOverrides cfg))
                            (nodeLabel cfg) (adjMetricOverrides cfg)) st))
    | Some m, None =>
        (TryValue (),
         advertiseAdjacenciesThrottled
           (set_config (mkConfig (cfgIsOverloaded cfg) (overloadedLinks cfg)
                          (<[interfaceName := m]> (linkMetricOverrides cfg))
                          (nodeLabel cfg) (adjMetricOverrides cfg)) st))
    | None, None => (TryValue (), st)
    | None, Some _ =>
        (TryValue (),
         advertiseAdjacenciesThrottled
           (set_config (mkConfig (cfgIsOverloaded cfg) (overloadedLinks cfg)
                          (delete interfaceName (linkMetricOverrides cfg))
                          (nodeLabel cfg) (adjMetricOverrides cfg)) st))
    end.

Definition setAdjacencyMetric (interfaceName adjNodeName : string)
    (overrideMetric : option Z) (st : State) : Try unit * State :=
  let cfg := config_ st in
  let adjKey := (adjNodeName, interfaceName) in
  if bool_decide (adjacencies_ st !! (adjNodeName, interfaceName) = None)
  then (TryValue (), st)
  else
    match overrideMetric, adjMetricOverrides cfg !! adjKey with
    | Some m, Some cur =>
        if bool_decide (cur = m) then (TryValue (), st)
        else
          (TryValue (),
           advertiseAdjacenciesThrottled
             (set_config (mkConfig (cfgIsOverloaded cfg) (overloadedLinks cfg)
                            (linkMetricOverrides cfg) (nodeLabel cfg)
                            (<[adjKey := m]> (adjMetricOverrides cfg))) st))
    | Some m, None =>
        (TryValue (),
         advertiseAdjacenciesThrottled
           (set_config (mkConfig (cfgIsOverloaded cfg) (overloadedLinks cfg)
                          (linkMetricOverrides cfg) (nodeLabel cfg)
                          (<[adjKey := m]> (adjMetricOverrides cfg))) st))
    | None, None => (TryValue (), st)
    | None, Some _ =>
        (TryValue (),
         advertiseAdjacenciesThrottled
           (set_config (mkConfig (cfgIsOverloaded cfg) (overloadedLinks cfg)
                          (linkMetricOverrides cfg) (nodeLabel cfg)
                          (delete adjKey (adjMetricOverrides cfg))) st))
    end.

(** *** Timers and the event loop *)

(** The callback of [advertiseAdjacenciesThrottled_]. *)
Definition throttleCallback (now : Z) (st : State) : option State :=
  st1 ← advertiseKvStorePeers ∅ (set_throttle false st);
  Some (advertiseAdjacencies now st1).

(** The callback of [adjHoldTimer_] (its prefix advertisement does not
    touch the members modelled here). *)
Definition adjHoldTimerCallback (now : Z) (st : State) : State :=
  let st1 := advertiseAdjacencies now st in
  if advertiseAdjacenciesThrottledActive st1 then set_throttle false st1
  else st1.

(** The callback handed to the node-label range allocator. *)
Definition nodeLabelCallback (now : Z) (newVal : option Z) (st : State)
    : State :=
  let cfg := config_ st in
  advertiseAdjacencies now
    (set_config (mkConfig (cfgIsOverloaded cfg) (overloadedLinks cfg)
                   (linkMetricOverrides cfg) (default 0 newVal)
                   (adjMetricOverrides cfg)) st).

(** What the event base of LinkMonitor runs, one handler at a time. *)
Inductive Event :=
| EvNeighbor (unixTs : Z) (event : SparkNeighborEvent)
| EvThrottle
| EvAdjHoldTimer
| EvNodeLabel (newVal : option Z)
| EvSetNodeOverload (isOverloaded0 : bool)
| EvSetInterfaceOverload (interfaceName : string) (isOverloaded0 : bool)
| EvSetLinkMetric (interfaceName : string) (overrideMetric : option Z)
| EvSetAdjacencyMetric (interfaceName adjNodeName : string)
    (overrideMetric : option Z).

(** One handler run at steady-clock time [now]; [None] is a process abort. *)
Definition handle (now : Z) (ev : Event) (st : State) : option State :=
  match ev with
  | EvNeighbor unixTs event => processNeighborEvent now unixTs event st
  | EvThrottle => throttleCallback now st
  | EvAdjHoldTimer => Some (adjHoldTimerCallback now st)
  | EvNodeLabel newVal => Some (nodeLabelCallback now newVal st)
  | EvSetNodeOverload b => Some (setNodeOverload now b st).2
  | EvSetInterfaceOverload i b => Some (setInterfaceOverload i b st).2
  | EvSetLinkMetric i m => Some (setLinkMetric i m st).2
  | EvSetAdjacencyMetric i n m => Some (setAdjacencyMetric i n m st).2
  end.

(** A run of the event loop over time-stamped events. *)
Fixpoint run (evs : list (Z * Event)) (st : State) : option State :=
  match evs with
  | [] => Some st
  | (now, ev) :: rest => st1 ← handle now ev st; run rest st1
  end.

End KvStoreClient.

(** *** Vocabulary of the properties *)

(** The caller is handed an error. *)
Definition returns_typed_error {T} (r : Try T) : Prop :=
  exists what, r = TryException what.

(** [st'] has the same hold deadline as [st] and KvStore has been handed
    no further adjacency database. *)
Definition nothing_published (st st' : State) : Prop :=
  adjHoldUntilTimePoint_ st' = adjHoldUntilTimePoint_ st /\
  publishedAdjDbs st' = publishedAdjDbs st.

(** A node with one known interface and one adjacency over it, whose
    hold expires at time [1000]. *)
Definition exState : State :=
  mkState "node0" ["0"%string] false false false false "adj:" 300000 1000
    (mkConfig false ∅ ∅ 0 ∅)
    {[ "iface1"%string := mkInterfaceEntry 1 true 1 ]}
    {[ ("node1", "iface1")%string :=
         mkAdjacencyValue (exPeerSpec "iface1") (exAdjacency "node1" "iface1")
           false "0" ]}
    ∅ false [] [].

(** Handlers that all start before the hold of [exState] expires. *)
Definition exSparkEvent (ty : SparkNeighborEventType) : SparkNeighborEvent :=
  mkSparkNeighborEvent ty "iface1"
    (mkSparkNeighbor "node1" "fe80::2" "10.0.0.2" "remote0" 10001 10002)
    1500 0 false "0".

Definition exEarlyEvents : list (Z * Event) :=
  [ (100, EvNeighbor 1600000000 (exSparkEvent NEIGHBOR_UP));
    (200, EvSetNodeOverload true);
    (300, EvThrottle);
    (400, EvNeighbor 1600000001 (exSparkEvent NEIGHBOR_DOWN));
    (999, EvAdjHoldTimer) ].

(** *** Queries *)

(** [LinkMonitor::getLinkMonitorAdjacencies]: the adjacencies of all
    areas with the overrides of [config_] applied. The reply leaves
    [perfEvents] unset and [area] at the default of the thrift field,
    [defaultArea]. *)
Definition getLinkMonitorAdjacencies (defaultArea : string) (st : State)
    : AdjacencyDatabase :=
  mkAdjDb (nodeId_ st) (cfgIsOverloaded (config_ st))
    (map (λ adjKv, overriddenAdjacency (config_ st) (adjacency adjKv.2))
         (map_to_list (adjacencies_ st)))
    (nodeLabel (config_ st)) None defaultArea.

Section Interfaces.

(** What the [InterfaceEntry] objects answer when asked
    ([InterfaceEntry.cpp] is not among the sources): the entry of
    [interfaces_] is identified by its key, the interface name. *)
Context {InterfaceInfo : Type}.
Variable getInterfaceInfo : string -> InterfaceEntry -> InterfaceInfo.
Variable getBackoffDuration : string -> InterfaceEntry -> Z.
Variable isActive : string -> InterfaceEntry -> bool.

(** [flapMaxBackoff_], in milliseconds. *)
Variable flapMaxBackoff_ : Z.

(** [thrift::InterfaceDetails] and [thrift::DumpLinksReply] *)
Record InterfaceDetails := mkInterfaceDetails {
  info : InterfaceInfo;
  detIsOverloaded : bool;
  metricOverride : option Z;
  linkFlapBackOffMs : option Z }.

Record DumpLinksReply := mkDumpLinksReply {
  replyNodeName : string;
  replyIsOverloaded : bool;
  interfaceDetails : gmap string InterfaceDetails }.

(** [LinkMonitor::getInterfaces] *)
Definition getInterfaces (st : State) : DumpLinksReply :=
  mkDumpLinksReply (nodeId_ st) (cfgIsOverloaded (config_ st))
    (map_imap
       (λ ifName0 interface,
          let backoffMs := getBackoffDuration ifName0 interface in
          Some (mkInterfaceDetails
                  (getInterfaceInfo ifName0 interface)
                  (bool_decide (ifName0 ∈ overloadedLinks (config_ st)))
                  (linkMetricOverrides (config_ st) !! ifName0)
                  (if negb (backoffMs =? 0) then Some backoffMs else None)))
       (interfaces_ st)).

(** One iteration of the loop of [getRetryTimeOnUnstableInterfaces] on
    the pair [(hasUnstableInterface, minRemainMs)]. *)
Definition retryTime_step (ifName0 : string) (interface : InterfaceEntry)
    (acc : bool * Z) : bool * Z :=
  if isActive ifName0 interface then acc
  else
    let curRemainMs := getBackoffDuration ifName0 interface in
    if curRemainMs >? 0 then (true, Z.min acc.2 curRemainMs) else acc.

(** [LinkMonitor::getRetryTimeOnUnstableInterfaces] *)
Definition getRetryTimeOnUnstableInterfaces (st : State) : Z :=
  let acc := map_fold retryTime_step (false, flapMaxBackoff_) (interfaces_ st) in
  if acc.1 then acc.2 else 0.

(** An interface that is up but held back: not active, with backoff
    time left. *)
Definition unstable (st : State) (ifName0 : string) : Prop :=
  exists interface, interfaces_ st !! ifName0 = Some interface /\
    isActive ifName0 interface = false /\
    0 < getBackoffDuration ifName0 interface.

End Interfaces.

(** *** Vocabulary of the properties (continued) *)

(** The peers of [area0] recorded in [peers_]. *)
Definition peersOf (area0 : string) (st : State) : gmap string PeerSpec :=
  default ∅ (peers_ st !! area0).

(** Every adjacency is stored under the neighbor and the local interface
    it names. *)
Definition adjacency_keys_consistent (st : State) : Prop :=
  forall n i v, adjacencies_ st !! (n, i) = Some v ->
    otherNodeName (adjacency v) = n /\ ifName (adjacency v) = i.

(** The adjacency of [v] as LinkMonitor reports it under the
    configuration of [st]. *)
Definition reported (st : State) (v : AdjacencyValue) : Adjacency :=
  overriddenAdjacency (config_ st) (adjacency v).

(** The peers KvStore holds for [area0] after the requests [reqs], when a
    [DelPeers] removes the named peers and an [AddPeers] adds the given
    peers, replacing the spec of a peer it already holds. *)
Definition replayPeers (area0 : string) (reqs : list KvStoreRequest)
    : gmap string PeerSpec :=
  foldl (λ cur r,
           match r with
           | DelPeers names a =>
               if decide (a = area0) then foldr delete cur names else cur
           | AddPeers ps a => if decide (a = area0) then ps ∪ cur else cur
           | PersistKey _ _ _ _ => cur
           end) ∅ reqs.

Definition peers_in_sync (st : State) : Prop :=
  forall area0, replayPeers area0 (kvStoreRequests st) = peersOf area0 st.

(** The members a peer advertisement never changes. *)
Definition same_but_peers (st st' : State) : Prop :=
  st' = set_peers (peers_ st')
          (mkState (nodeId_ st) (areas_ st) (useRttMetric_ st)
             (enablePerfMeasurement_ st) (enableSegmentRouting_ st)
             (mockMode_ st) (adjacencyDbMarker_ st) (ttlKeyInKvStore_ st)
             (adjHoldUntilTimePoint_ st) (config_ st) (interfaces_ st)
             (adjacencies_ st) (peers_ st)
             (advertiseAdjacenciesThrottledActive st) (kvStoreRequests st')
             (configStoreWrites st)).

(** The request that publishes the adjacency database of [area0] as it
    stands in [st]. *)
Definition adjDbRequest (area0 : string) (st : State) : KvStoreRequest :=
  PersistKey (adjacencyDbMarker_ st ++ nodeId_ st)%string
    (buildAdjacencyDatabase area0 st) (ttlKeyInKvStore_ st) area0.

(** A node between two areas whose hold has expired, with one adjacency
    in area ["0"]. *)
Definition exLateState : State :=
  mkState "node0" ["0"; "pod"]%string true false false false "adj:" 300000 1000
    (mkConfig false ∅ ∅ 0 ∅)
    {[ "iface1"%string := mkInterfaceEntry 1 true 1 ]}
    {[ ("node1", "iface1")%string :=
         mkAdjacencyValue (exPeerSpec "iface1") (exAdjacency "node1" "iface1")
           false "0" ]}
    ∅ true [] [].

End LinkMonitor.

(** ** Messaging (openr/messaging/Queue.h, Queue-inl.h, ReplicateQueue.h) *)

Module Messaging.

(** [enum class QueueError] *)
Inductive QueueError := QUEUE_CLOSED.

Section RWQueue.
Context {V : Type}.

(** [folly::Expected<ValueType, QueueError>] *)
Inductive Expected :=
| Value (v : V)
| Unexpected (e : QueueError).

(** [struct PendingRead]: [baton] is true once the baton has been posted. *)
Record PendingRead := mkPendingRead {
  baton : bool;
  data : option V }.

(** [RWQueue<ValueType>]. [pendingReads_] holds references to the
    [PendingRead] objects of the [get()] calls that are blocked; these
    objects live in the frames of the calls, which [reads] keeps by the
    identity of the call. *)
Record RWQueue := mkRWQueue {
  closed_ : bool;
  pendingReads_ : list nat;
  queue_ : list V;
  reads : gmap nat PendingRead }.

Definition empty : RWQueue := mkRWQueue false [] [] ∅.

(** [RWQueue::push] *)
Definition push (val : V) (q : RWQueue) : bool * RWQueue :=
  if closed_ q then (false, q)
  else
    match pendingReads_ q with
    | r :: rest =>
        (true,
         mkRWQueue (closed_ q) rest (queue_ q)
           (<[r := mkPendingRead true (Some val)]> (reads q)))
    | [] =>
        (true,
         mkRWQueue (closed_ q) [] (queue_ q ++ [val]) (reads q))
    end.

(** [RWQueue::getAnyImpl] on the [PendingRead] of call [r]. *)
Definition getAnyImpl (r : nat) (q : RWQueue) : bool * RWQueue :=
  if closed_ q then (false, q)
  else
    match queue_ q with
    | front :: rest =>
        (true,
         mkRWQueue (closed_ q) (pendingReads_ q) rest
           (alter (λ pr, mkPendingRead (baton pr) (Some front)) r (reads q)))
    | [] =>
        (true,
         mkRWQueue (closed_ q) (pendingReads_ q ++ [r]) (queue_ q) (reads q))
    end.

Definition post (pr : PendingRead) : PendingRead :=
  mkPendingRead true (data pr).

Definition has_data (q : RWQueue) (r : nat) : bool :=
  match reads q !! r with
  | Some pr => bool_decide (is_Some (data pr))
  | None => false
  end.

(** [RWQueue::get] up to [baton.wait()]: the call [r] creates its
    [PendingRead], runs [getAnyImpl], and either returns [QUEUE_CLOSED] or
    goes on to wait for its baton, which it has posted itself when the
    read was immediate. *)
Definition get_enter (r : nat) (q : RWQueue) : option Expected * RWQueue :=
  let q0 :=
    mkRWQueue (closed_ q) (pendingReads_ q) (queue_ q)
      (<[r := mkPendingRead false None]> (reads q)) in
  match getAnyImpl r q0 with
  | (false, q1) =>
      (Some (Unexpected QUEUE_CLOSED),
       mkRWQueue (closed_ q1) (pendingReads_ q1) (queue_ q1)
         (delete r (reads q1)))
  | (true, q1) =>
      if has_data q1 r
      then (None,
            mkRWQueue (closed_ q1) (pendingReads_ q1) (queue_ q1)
              (alter post r (reads q1)))
      else (None, q1)
  end.

(** [RWQueue::get] from [baton.wait()] on: [None] while the baton of call
    [r] has not been posted; otherwise the call returns and its
    [PendingRead] is gone. *)
Definition get_wait (r : nat) (q : RWQueue) : option (Expected * RWQueue) :=
  match reads q !! r with
  | Some pr =>
      if baton pr
      then Some (match data pr with
                 | Some v => Value v
                 | None => Unexpected QUEUE_CLOSED
                 end,
                 mkRWQueue (closed_ q) (pendingReads_ q) (queue_ q)
                   (delete r (reads q)))
      else None
  | None => None
  end.

(** [RWQueue::close] *)
Definition close (q : RWQueue) : RWQueue :=
  if closed_ q then q
  else
    mkRWQueue true [] []
      (foldl (λ m r, alter post r m) (reads q) (pendingReads_ q)).

(** The operations the threads sharing a queue perform on it, each one
    atomic under [lock_]. *)
Inductive Op :=
| Push (val : V)
| GetEnter (r : nat)
| GetReturn (r : nat)
| Close.

(** One operation; [None] when it cannot happen in [q]: a call identity
    in use cannot enter again, and a call returns only once its baton is
    posted. *)
Definition step (op : Op) (q : RWQueue) : option RWQueue :=
  match op with
  | Push val => Some (push val q).2
  | GetEnter r =>
      match reads q !! r with
      | None => Some (get_enter r q).2
      | Some _ => None
      end
  | GetReturn r => snd <$> get_wait r q
  | Close => Some (close q)
  end.

Fixpoint steps (ops : list Op) (q : RWQueue) : option RWQueue :=
  match ops with
  | [] => Some q
  | op :: rest => q1 ← step op q; steps rest q1
  end.

(** The states a queue can be in. *)
Definition reachable (q : RWQueue) : Prop :=
  exists ops, steps ops empty = Some q.

(** The invariant of the representation: a blocked call has neither data
    nor a posted baton, no call is blocked twice, calls are blocked only
    while no data is queued (the [assert] of [close]), and a closed queue
    holds nothing. *)
Definition wf (q : RWQueue) : Prop :=
  (forall r, r ∈ pendingReads_ q ->
     reads q !! r = Some (mkPendingRead false None)) /\
  NoDup (pendingReads_ q) /\
  (pendingReads_ q = [] \/ queue_ q = []) /\
  (closed_ q = true -> pendingReads_ q = [] /\ queue_ q = []).

(** *** Vocabulary of the properties *)

(** What holds of a queue from [close] on, relative to the state [q0]
    right after the call. *)
Definition after_close (q0 q : RWQueue) : Prop :=
  closed_ q = true /\ pendingReads_ q = [] /\ queue_ q = [] /\
  reads q ⊆ reads q0.

(** *** ReplicateQueue *)

(** Modelled from the spec: [ReplicateQueue-inl.h] is not among the
    sources. Following the class comment of [ReplicateQueue.h] and section
    2 of the specification, the queue keeps one [RWQueue] per reader
    ([readers_]); [getReader] attaches a new, empty one; [push] pushes a
    copy of the value to the queue of every reader attached at that moment
    and fails once the queue is closed; [close] closes the queue of every
    reader. *)
Record ReplicateQueue := mkReplicateQueue {
  readers_ : list RWQueue;
  rqClosed_ : bool }.

Definition rqEmpty : ReplicateQueue := mkReplicateQueue [] false.

(** Modelled from the spec: [ReplicateQueue::getReader]
    ([ReplicateQueue-inl.h] is missing) attaches a new reader queue and
    returns its position; after [close] the new queue is closed as well
    ("all subsequent writes and reads will fail"). *)
Definition getReader (rq : ReplicateQueue) : nat * ReplicateQueue :=
  (length (readers_ rq),
   mkReplicateQueue
     (readers_ rq ++ [if rqClosed_ rq then close empty else empty])
     (rqClosed_ rq)).

(** Modelled from the spec: [ReplicateQueue::push]
    ([ReplicateQueue-inl.h] is missing) replicates the value to every
    reader. *)
Definition rqPush (val : V) (rq : ReplicateQueue) : bool * ReplicateQueue :=
  if rqClosed_ rq then (false, rq)
  else
    (true,
     mkReplicateQueue ((λ q, (push val q).2) <$> readers_ rq)
       (rqClosed_ rq)).

(** Modelled from the spec: [ReplicateQueue::close]
    ([ReplicateQueue-inl.h] is missing) closes the queue of every reader. *)
Definition rqClose (rq : ReplicateQueue) : ReplicateQueue :=
  mkReplicateQueue (close <$> readers_ rq) true.

(** A run of a replicate queue together with its history: the values
    whose [push] succeeded, and per reader the number of such values
    before it was attached and the values its [get()] calls returned. *)
Record Run := mkRun {
  rq : ReplicateQueue;
  pushed : list V;
  attachedAt : list nat;
  received : list (list V) }.

Definition runEmpty : Run := mkRun rqEmpty [] [] [].

(** What the writer and the readers do. A reader is a sequential
    consumer, as the fibers that loop on [q.get()]: reader [i] enters
    [get()] (as call [r]) only when it has no call in progress. *)
Inductive ROp :=
| RPush (val : V)
| RGetReader
| RGet (i r : nat)
| RReturn (i r : nat)
| RClose.

Definition with_reader (i : nat) (q : RWQueue) (run : Run) : Run :=
  mkRun (mkReplicateQueue (<[i := q]> (readers_ (rq run)))
           (rqClosed_ (rq run)))
    (pushed run) (attachedAt run) (received run).

Definition rstep (op : ROp) (run : Run) : option Run :=
  match op with
  | RPush val =>
      let '(ok, rq1) := rqPush val (rq run) in
      Some (mkRun rq1 (if ok then pushed run ++ [val] else pushed run)
              (attachedAt run) (received run))
  | RGetReader =>
      Some (mkRun (getReader (rq run)).2 (pushed run)
              (attachedAt run ++ [length (pushed run)])
              (received run ++ [[]]))
  | RGet i r =>
      q ← readers_ (rq run) !! i;
      if decide (reads q = ∅)
      then Some (with_reader i (get_enter r q).2 run)
      else None
  | RReturn i r =>
      q ← readers_ (rq run) !! i;
      res ← get_wait r q;
      let run1 := with_reader i res.2 run in
      Some (match res.1 with
            | Value v =>
                mkRun (rq run1) (pushed run1) (attachedAt run1)
                  (alter (λ l, l ++ [v]) i (received run1))
            | Unexpected _ => run1
            end)
  | RClose =>
      Some (mkRun (rqClose (rq run)) (pushed run) (attachedAt run)
              (received run))
  end.

Fixpoint rsteps (ops : list ROp) (run : Run) : option Run :=
  match ops with
  | [] => Some run
  | op :: rest => run1 ← rstep op run; rsteps rest run1
  end.

(** The values handed to calls that have not returned yet. *)
Definition inflight (q : RWQueue) : list V :=
  omap (λ kv, data kv.2) (map_to_list (reads q)).





End RWQueue.

(** A queue of numbers on which the [get()] call [1] is blocked. *)
Definition exBlocked : RWQueue := (@get_enter nat 1%nat empty).2.

(** A queue of numbers holding [7] and [8], with no reader. *)
Definition exLoaded : RWQueue := (push 8%nat (@push nat 7%nat empty).2).2.

(** A run with two readers: the first is attached from the start and has
    read one value, the second is attached after two pushes. *)
Definition exOps : list ROp :=
  [ RGetReader; RPush 1%nat; RPush 2%nat; RGet 0 0; RReturn 0 0;
    RGetReader; RPush 3%nat ].

Definition exRun : Run := default runEmpty (rsteps exOps runEmpty).

Definition exReader (i : nat) : RWQueue :=
  default empty (readers_ (rq exRun) !! i).



(** A run in which the queue is closed after 7 has been handed to the
    blocked [get()] of the only reader, with 8 still to be read. *)
Definition exInflightOps : list ROp :=
  [ RGetReader; RGet 0 0; RPush 7%nat; RPush 8%nat; RClose ].

Definition exInflightRun : Run :=
  default runEmpty (rsteps exInflightOps runEmpty).

Arguments Expected V : clear implicits.
Arguments PendingRead V : clear implicits.
Arguments RWQueue V : clear implicits.
Arguments Op V : clear implicits.
Arguments ReplicateQueue V : clear implicits.
Arguments Run V : clear implicits.
Arguments ROp V : clear implicits.

(** *** RWQueue: observers and the history of a queue *)

Section RWQueueHistory.
Context {V : Type}.

(** [RWQueue::isClosed], [RWQueue::size] and [RWQueue::numPendingReads];
    [RQueue::size] forwards to [RWQueue::size]. *)
Definition isClosed (q : RWQueue V) : bool := closed_ q.
Definition size (q : RWQueue V) : nat := length (queue_ q).
Definition numPendingReads (q : RWQueue V) : nat := length (pendingReads_ q).

(** A queue together with its history: the values whose [push] returned
    true ([accepted]), the values assigned to the [data] of a
    [PendingRead], by [push] or by [getAnyImpl], in the order of the
    assignments ([handed]), and the values [get()] calls have returned, in
    the order of the returns ([returned]). *)
Record Trace := mkTrace {
  tq : RWQueue V;
  accepted : list V;
  handed : list V;
  returned : list V }.

Definition traceEmpty : Trace := mkTrace empty [] [] [].

Definition tstep (op : Op V) (t : Trace) : option Trace :=
  let q := tq t in
  match op with
  | Push val =>
      let '(ok, q1) := push val q in
      Some (mkTrace q1
              (if ok then accepted t ++ [val] else accepted t)
              (if ok && negb (bool_decide (pendingReads_ q = []))
               then handed t ++ [val] else handed t)
              (returned t))
  | GetEnter r =>
      match reads q !! r with
      | None =>
          Some (mkTrace (get_enter r q).2 (accepted t)
                  (if closed_ q then handed t
                   else handed t ++ take 1 (queue_ q))
                  (returned t))
      | Some _ => None
      end
  | GetReturn r =>
      res ← get_wait r q;
      Some (mkTrace res.2 (accepted t) (handed t)
              (match res.1 with
               | Value v => returned t ++ [v]
               | Unexpected _ => returned t
               end))
  | Close => Some (mkTrace (close q) (accepted t) (handed t) (returned t))
  end.

Fixpoint tsteps (ops : list (Op V)) (t : Trace) : option Trace :=
  match ops with
  | [] => Some t
  | op :: rest => t1 ← tstep op t; tsteps rest t1
  end.

(** The invariant that ties a queue to its history. *)
Definition trace_inv (t : Trace) : Prop :=
  wf (tq t) /\
  (exists rest, handed t ++ rest = accepted t /\
     (closed_ (tq t) = false -> rest = queue_ (tq t))) /\
  returned t ++ inflight (tq t) ≡ₚ handed t.

End RWQueueHistory.

Arguments Trace V : clear implicits.

End Messaging.

(** ** Control handler (openr/ctrl-server/OpenrCtrlHandler.cpp) *)

Module CtrlHandler.
Import Thrift.

(** What a [folly::Promise<bool>] has been completed with. *)
Inductive Completion :=
| SetValue (changed : bool)
| SetException (what : string).

(** The members behind the long poll: the request counter, the pending
    requests (request id to the time stamp of its arrival; the promise of
    a request is identified by the request id), and the completions
    delivered so far. *)
Record State := mkState {
  pendingRequestId_ : Z;
  longPollReqs_ : gmap Z Z;
  completions : gmap Z Completion }.

Section Handler.

(** [Constants::kAdjDbMarker] and [Constants::kLongPollReqHoldTime]
    (in milliseconds); [Constants.h] is not among the sources. *)
Variable kAdjDbMarker : string.
Variable kLongPollReqHoldTime : Z.

(** [key.find(marker) == 0] *)
Definition isAdjKey (key : string) : bool := String.prefix kAdjDbMarker key.

(** [thrift::KeyDumpParams] as filled by the long poll. *)
Record KeyDumpParams := mkKeyDumpParams {
  prefix : string;
  keyValHashes : gmap string Value }.

(** The answer of [semifuture_getKvStoreKeyValsFiltered(params).get()]:
    the publication KvStore returns, or the exception it throws. *)
Definition KvStoreDump : Type := KeyDumpParams -> string + Publication.

(** [semifuture_longPollKvStoreAdj], called at wall-clock time
    [timeStamp]. *)
Definition longPollKvStoreAdj (kvStoreDump : KvStoreDump) (timeStamp : Z)
    (snapshot : gmap string Value) (st : State) : State :=
  let requestId := pendingRequestId_ st in
  let st1 :=
    mkState (pendingRequestId_ st + 1) (longPollReqs_ st) (completions st) in
  let adjKeyVals := filter (λ kv, isAdjKey kv.1 = true) snapshot in
  let params := mkKeyDumpParams kAdjDbMarker adjKeyVals in
  match kvStoreDump params with
  | inl what =>
      mkState (pendingRequestId_ st1) (longPollReqs_ st1)
        (<[requestId := SetException what]> (completions st1))
  | inr thriftPub =>
      if bool_decide (keyVals thriftPub ≠ ∅)
      then mkState (pendingRequestId_ st1) (longPollReqs_ st1)
             (<[requestId := SetValue true]> (completions st1))
      else
        match tobeUpdatedKeys thriftPub with
        | Some (_ :: _) =>
            mkState (pendingRequestId_ st1) (longPollReqs_ st1)
              (<[requestId := SetValue true]> (completions st1))
        | _ =>
            mkState (pendingRequestId_ st1)
              (match longPollReqs_ st1 !! requestId with
               | None => <[requestId := timeStamp]> (longPollReqs_ st1)
               | Some _ => longPollReqs_ st1
               end)
              (completions st1)
        end
  end.

(** The scan of a publication for an ["adj:*"] key that carries a value;
    the loop stops at the first one, which leaves the flag as computed
    here. *)
Definition isAdjChanged (pub : Publication) : bool :=
  map_fold
    (λ key val found,
       found || (bool_decide (is_Some (value val)) && isAdjKey key))
    false (keyVals pub).

(** Complete every request of [reqs] with [changed]. *)
Definition completeAll (changed : bool) (reqs : gmap Z Z)
    (done : gmap Z Completion) : gmap Z Completion :=
  map_fold (λ clientId _ acc, <[clientId := SetValue changed]> acc) done reqs.

(** The callback on [kvStoreSubSock_], run at wall-clock time [now] on
    the publication [pub] (the fan-out to the snoop streams is left out). *)
Definition processPublication (now : Z) (pub : Publication) (st : State)
    : State :=
  if isAdjChanged pub
  then mkState (pendingRequestId_ st) ∅
         (completeAll true (longPollReqs_ st) (completions st))
  else
    let reqsToClean :=
      filter (λ kv, kLongPollReqHoldTime <= now - kv.2) (longPollReqs_ st) in
    mkState (pendingRequestId_ st)
      (filter (λ kv, ~ (kLongPollReqHoldTime <= now - kv.2))
              (longPollReqs_ st))
      (completeAll false reqsToClean (completions st)).

(** Request ids are handed out in increasing order: a pending request has
    an id below the counter. *)
Definition ids_below_counter (st : State) : Prop :=
  forall id, is_Some (longPollReqs_ st !! id) -> id < pendingRequestId_ st.

End Handler.

Definition initial : State := mkState 0 ∅ ∅.

(** A KvStore that reports no difference, two requests pending since
    times 1000 and 30000, and two publications: a new adjacency database
    of [node1], and a refresh of its time-to-live. *)
Definition exNoDifference : KvStoreDump :=
  λ _, inr (mkPublication ∅ [] None).

Definition exPending : State :=
  longPollKvStoreAdj "adj:" exNoDifference 30000 ∅
    (longPollKvStoreAdj "adj:" exNoDifference 1000 ∅ initial).

Definition exAdjPublication : Publication :=
  mkPublication
    {[ "adj:node1"%string := mkValue 2 "node1" (Some "db"%string) 3600 0 None ]}
    [] None.

Definition exTtlPublication : Publication :=
  mkPublication
    {[ "adj:node1"%string := mkValue 2 "node1" None 3600 1 None ]} [] None.

(** *** Connection authorization *)

(** The outcome of [authorizeConnection]: it returns, possibly after
    logging an event, or throws [thrift::OpenrError]. *)
Inductive Authorization :=
| Authorized
| AuthorizedWithEvent (event : string)
| Unauthorized (what : string).

(** [OpenrCtrlHandler::authorizeConnection] for a connection from a
    loopback address or not, whose certificate carries the common name
    [peerCommonName] (empty when there is none). *)
Definition authorizeConnection (acceptablePeerCommonNames_ : gset string)
    (isLoopbackAddress : bool) (peerCommonName : string) : Authorization :=
  if isLoopbackAddress then Authorized
  else if bool_decide (peerCommonName = ""%string) ||
          bool_decide (acceptablePeerCommonNames_ = ∅)
  then AuthorizedWithEvent
         (if bool_decide (peerCommonName = ""%string)
          then "UNENCRYPTED_CTRL_CONNECTION"
          else "UNRESTRICTED_AUTHORIZATION")
  else if negb (bool_decide (peerCommonName ∈ acceptablePeerCommonNames_))
  then Unauthorized
         ("Peer name " ++ peerCommonName ++ " is unacceptable")%string
  else Authorized.

(** *** KvStore snoop streams *)

(** The members behind [subscribeKvStore]: the token counter and the
    publishers of the active streams; a publisher is kept as the
    publications handed to its [next], oldest first. The 64-bit counters
    of the handler are taken not to wrap. *)
Record Streams := mkStreams {
  publisherToken_ : Z;
  kvStorePublishers_ : gmap Z (list Publication) }.

Definition noStreams : Streams := mkStreams 0 ∅.

(** [subscribeKvStore]: the token of the new stream and the state; the
    [assert] that the token is not in use fails as [None]. *)
Definition subscribeKvStore (s : Streams) : option (Z * Streams) :=
  let clientToken := publisherToken_ s in
  match kvStorePublishers_ s !! clientToken with
  | Some _ => None
  | None =>
      Some (clientToken,
            mkStreams (publisherToken_ s + 1)
              (<[clientToken := []]> (kvStorePublishers_ s)))
  end.

(** The completion callback of the stream with token [clientToken]. *)
Definition streamCompleted (clientToken : Z) (s : Streams) : Streams :=
  mkStreams (publisherToken_ s) (delete clientToken (kvStorePublishers_ s)).

(** The fan-out of a publication to the active streams. *)
Definition publishToStreams (pub : Publication) (s : Streams) : Streams :=
  mkStreams (publisherToken_ s) ((λ sent, sent ++ [pub]) <$> kvStorePublishers_ s).

(** *** Vocabulary of the properties *)

(** Every request id handed out so far is either pending or completed,
    never both. *)
Definition promise_inv (st : State) : Prop :=
  0 <= pendingRequestId_ st /\
  (forall id, 0 <= id < pendingRequestId_ st <->
     is_Some (longPollReqs_ st !! id) \/ is_Some (completions st !! id)) /\
  (forall id, is_Some (longPollReqs_ st !! id) -> completions st !! id = None).

(** Every token in use is below the token counter. *)
Definition streams_inv (s : Streams) : Prop :=
  0 <= publisherToken_ s /\
  forall tok, is_Some (kvStorePublishers_ s !! tok) ->
    0 <= tok < publisherToken_ s.

Section Callback.
Variable kAdjDbMarker : string.
Variable kLongPollReqHoldTime : Z.

(** The callback on [kvStoreSubSock_] as a whole: a publication that
    cannot be read is dropped; one that can is handed to every snoop
    stream and then to the long-poll bookkeeping. *)
Definition kvStoreSubCallback (now : Z) (maybePublication : option Publication)
    (hs : Streams * State) : Streams * State :=
  match maybePublication with
  | None => hs
  | Some pub =>
      (publishToStreams pub hs.1,
       processPublication kAdjDbMarker kLongPollReqHoldTime now pub hs.2)
  end.

(** What the handler does, one call at a time. *)
Inductive HandlerOp :=
| OpLongPoll (kvStoreDump : KvStoreDump) (timeStamp : Z)
    (snapshot : gmap string Value)
| OpSubscribe
| OpStreamCompleted (clientToken : Z)
| OpPublication (now : Z) (maybePublication : option Publication).

Definition hstep (op : HandlerOp) (hs : Streams * State)
    : option (Streams * State) :=
  match op with
  | OpLongPoll kvStoreDump timeStamp snapshot =>
      Some (hs.1, longPollKvStoreAdj kAdjDbMarker kvStoreDump timeStamp
                    snapshot hs.2)
  | OpSubscribe => ts ← subscribeKvStore hs.1; Some (ts.2, hs.2)
  | OpStreamCompleted clientToken => Some (streamCompleted clientToken hs.1, hs.2)
  | OpPublication now maybePublication =>
      Some (kvStoreSubCallback now maybePublication hs)
  end.

Fixpoint hrun (ops : list HandlerOp) (hs : Streams * State)
    : option (Streams * State) :=
  match ops with
  | [] => Some hs
  | op :: rest => hs1 ← hstep op hs; hrun rest hs1
  end.

(** The publications a run delivers, in order. *)
Definition publicationsOf (ops : list HandlerOp) : list Publication :=
  omap (λ op, match op with
              | OpPublication _ (Some pub) => Some pub
              | _ => None
              end) ops.

(** The number of long polls in a run. *)
Definition isLongPoll (op : HandlerOp) : bool :=
  match op with OpLongPoll _ _ _ => true | _ => false end.

Definition longPollsOf (ops : list HandlerOp) : Z :=
  Z.of_nat (length (List.filter isLongPoll ops)).

End Callback.

End CtrlHandler.

(** ** KvStore (openr/kvstore/KvStore.h) *)

Module KvStore.
Import Thrift.

(** Three-way comparison of integers and of byte strings. *)
Definition cmpZ (a b : Z) : Z :=
  if a >? b then 1 else if a <? b then -1 else 0.

Definition cmpStr (a b : string) : Z :=
  if StrOrder.gt a b then 1 else if StrOrder.lt a b then -1 else 0.

(** The result "unknown" of [compareValues]. *)
Definition UNKNOWN : Z := -2.

(** Modelled from the spec: [KvStore.cpp], which defines
    [KvStore::compareValues], is not among the sources. Following section
    3 of the specification and the comment on its declaration in
    [KvStore.h]: the values are compared by version, then by originator
    id, then by value bytes, then by ttl version; the result is 1 if [v1]
    is better, -1 if [v2] is better, 0 if equal. Where a body is missing
    the hashes stand in for the bytes: equal hashes mean equal values,
    and otherwise the result is unknown (-2). *)
Definition compareValues (v1 v2 : Value) : Z :=
  if negb (version v1 =? version v2) then cmpZ (version v1) (version v2)
  else if negb (String.eqb (originatorId v1) (originatorId v2))
  then cmpStr (originatorId v1) (originatorId v2)
  else
    match value v1, value v2 with
    | Some b1, Some b2 =>
        if negb (String.eqb b1 b2) then cmpStr b1 b2
        else cmpZ (ttlVersion v1) (ttlVersion v2)
    | _, _ =>
        match hash v1, hash v2 with
        | Some h1, Some h2 =>
            if h1 =? h2 then cmpZ (ttlVersion v1) (ttlVersion v2)
            else UNKNOWN
        | _, _ => UNKNOWN
        end
    end.

(** [v1] is ahead of [v2] in the order (version, originator id, value
    bytes, ttl version), for values that carry their bodies [b1], [b2]. *)
Definition lex_gt (v1 v2 : Value) (b1 b2 : string) : Prop :=
  version v1 > version v2 \/
  (version v1 = version v2 /\
   (StrOrder.gt (originatorId v1) (originatorId v2) = true \/
    (originatorId v1 = originatorId v2 /\
     (StrOrder.gt b1 b2 = true \/
      (b1 = b2 /\ ttlVersion v1 > ttlVersion v2))))).

Section Merge.

(** [KvStoreFilters::keyMatch] of the optional filter, the time-to-live
    below which a value for a new key is ignored, and the distinguished
    time-to-live that disables expiry. A filter is made of key prefixes
    and of originator ids "to match in the value" ([KvStore.h]): of the
    value it is given, [keyMatch] reads the originator id. *)
Variable filters : option (string -> string -> bool).
Variable kTtlThreshold : Z.
Variable kTtlInfinity : Z.

Definition filterRejects (key : string) (v : Value) : bool :=
  match filters with
  | Some keyMatch => negb (keyMatch key (originatorId v))
  | None => false
  end.

Definition ttlTooLow (v : Value) : bool :=
  negb (ttl v =? kTtlInfinity) && (ttl v <? kTtlThreshold).

(** The stored value with its time-to-live refreshed from [v_in]. *)
Definition refreshTtl (v_local v_in : Value) : Value :=
  mkValue (version v_local) (originatorId v_local) (value v_local)
    (ttl v_in) (ttlVersion v_in) (hash v_local).

(** Modelled from the spec: the comparison of step 3 of the merge
    algorithm of section 4.2. That step tells two cases of the result 0
    apart by the ttl versions of the two values, so what it compares is
    the order of section 3 up to the ttl version: version, originator id
    and value. This is [compareValues] on the incoming value with its ttl
    version levelled to that of the stored one. *)
Definition compareUpToTtl (v_in v_local : Value) : Z :=
  compareValues
    (mkValue (version v_in) (originatorId v_in) (value v_in) (ttl v_in)
       (ttlVersion v_local) (hash v_in))
    v_local.

(** Modelled from the spec: the body of the loop of
    [KvStore::mergeKeyValues] ([KvStore.cpp] is missing), one step of the
    merge algorithm of section 4.2 on the incoming pair [(key, v_in)], the
    store and the outbound delta: the better value replaces the stored
    one and enters the delta; an equal value with a higher ttl version
    refreshes the time-to-live of the stored one, which keeps its body,
    and does not enter the delta; anything else, the result unknown
    included, leaves store and delta as they are. *)
Definition mergeOne (key : string) (v_in : Value)
    (acc : gmap string Value * gmap string Value)
    : gmap string Value * gmap string Value :=
  let '(kvStore, delta) := acc in
  if filterRejects key v_in then acc
  else
    match kvStore !! key with
    | None =>
        if ttlTooLow v_in then acc
        else (<[key := v_in]> kvStore, <[key := v_in]> delta)
    | Some v_local =>
        let c := compareUpToTtl v_in v_local in
        if c =? 1 then (<[key := v_in]> kvStore, <[key := v_in]> delta)
        else if c =? -1 then acc
        else if c =? 0 then
          if ttlVersion v_in >? ttlVersion v_local
          then (<[key := refreshTtl v_local v_in]> kvStore, delta)
          else acc
        else acc
    end.

(** Modelled from the spec: [KvStore::mergeKeyValues] ([KvStore.cpp] is
    not among the sources) applies the step to every incoming pair and
    returns the merged store together with the outbound delta. *)
Definition mergeKeyValues (kvStore update : gmap string Value)
    : gmap string Value * gmap string Value :=
  map_fold mergeOne (kvStore, ∅) update.

(** The merge seen from one key: the stored value and the entry of the
    delta after the merge, from the stored value before it and the
    incoming value for the key, if any. *)
Definition mergedValue (key : string) (local incoming : option Value)
    : option Value :=
  match incoming with
  | None => local
  | Some v_in =>
      if filterRejects key v_in then local
      else
        match local with
        | None => if ttlTooLow v_in then None else Some v_in
        | Some v_local =>
            let c := compareUpToTtl v_in v_local in
            if c =? 1 then Some v_in
            else if (c =? 0) && (ttlVersion v_in >? ttlVersion v_local)
            then Some (refreshTtl v_local v_in)
            else local
        end
  end.

Definition deltaValue (key : string) (local incoming : option Value)
    : option Value :=
  match incoming with
  | None => None
  | Some v_in =>
      if filterRejects key v_in then None
      else
        match local with
        | None => if ttlTooLow v_in then None else Some v_in
        | Some v_local =>
            if compareUpToTtl v_in v_local =? 1 then Some v_in else None
        end
  end.

End Merge.

(** Three values for one key: [exOld], a newer version [exNew] of it,
    and the hash-only form [exHashOnly] of another originator's value. *)
Definition exOld : Value :=
  mkValue 1 "node1" (Some "a"%string) 3600 0 (Some 11).
Definition exNew : Value :=
  mkValue 2 "node1" (Some "b"%string) 3600 0 (Some 12).
Definition exHashOnly (h : Z) : Value := mkValue 2 "node1" None 3600 0 (Some h).

(** A refresh of the time-to-live of [exNew]: no body, the hash of
    [exNew], a higher ttl version. *)
Definition exRefresh : Value := mkValue 2 "node1" None 7200 1 (Some 12).

End KvStore.

(** ** Fib (openr/fib/Fib.h) *)

Module Fib.

(** An address is its bits, most significant first: 32 for IPv4, 128 for
    IPv6. [thrift::IpPrefix] and [folly::CIDRNetwork] are an address with
    a prefix length. *)
Abbreviation IpPrefix := (list bool * Z)%type.

Definition prefixAddress (p : IpPrefix) : list bool := p.1.
Definition prefixLength (p : IpPrefix) : Z := p.2.

(** The bits of a number, [n] of them, most significant first. *)
Fixpoint bitsOf (n : nat) (z : Z) : list bool :=
  match n with
  | O => []
  | S m => Z.testbit z (Z.of_nat m) :: bitsOf m z
  end.

(** The IPv4 address [a.b.c.d]. *)
Definition ipv4 (a b c d : Z) : list bool :=
  bitsOf 8 a ++ bitsOf 8 b ++ bitsOf 8 c ++ bitsOf 8 d.

(** The route prefix [p] contains the network [input]: same address
    family, a prefix length no longer than the input's, and the same
    leading bits. *)
Definition contains (p input : IpPrefix) : Prop :=
  length (prefixAddress p) = length (prefixAddress input) /\
  0 <= prefixLength p <= prefixLength input /\
  take (Z.to_nat (prefixLength p)) (prefixAddress p)
    = take (Z.to_nat (prefixLength p)) (prefixAddress input).

Definition containsb (p input : IpPrefix) : bool :=
  bool_decide (length (prefixAddress p) = length (prefixAddress input)) &&
  (0 <=? prefixLength p) && (prefixLength p <=? prefixLength input) &&
  bool_decide (take (Z.to_nat (prefixLength p)) (prefixAddress p)
               = take (Z.to_nat (prefixLength p)) (prefixAddress input)).

(** The bits of a table prefix beyond its length are zero. *)
Definition normalized (p : IpPrefix) : Prop :=
  forall i b, prefixAddress p !! i = Some b ->
    (Z.to_nat (prefixLength p) <= i)%nat -> b = false.

Section LongestPrefixMatch.
Variable UnicastRoute : Type.

(** Modelled from the spec: the body of the loop of
    [Fib::longestPrefixMatch] ([Fib.cpp] is missing): a route prefix that
    contains the input replaces the match found so far if it is longer. *)
Definition lpm_step (inputPrefix : IpPrefix) (dbPrefix : IpPrefix)
    (route : UnicastRoute) (matched : option IpPrefix) : option IpPrefix :=
  if containsb dbPrefix inputPrefix
  then match matched with
       | None => Some dbPrefix
       | Some best =>
           if prefixLength best <? prefixLength dbPrefix
           then Some dbPrefix else matched
       end
  else matched.

(** Modelled from the spec: [Fib.cpp], which defines
    [Fib::longestPrefixMatch], is not among the sources. Following its
    declaration in [Fib.h] and section 4.6 of the specification, the
    helper goes through the unicast route table and keeps the longest
    prefix that contains the input. *)
Definition longestPrefixMatch (inputPrefix : IpPrefix)
    (unicastRoutes : gmap IpPrefix UnicastRoute) : option IpPrefix :=
  map_fold (lpm_step inputPrefix) None unicastRoutes.

End LongestPrefixMatch.

(** The table and the inputs of [FibTestFixture.longestPrefixMatchTest]. *)
Definition dbPrefix1 : IpPrefix := (ipv4 192 168 0 0, 16).
Definition dbPrefix2 : IpPrefix := (ipv4 192 168 0 0, 20).
Definition dbPrefix3 : IpPrefix := (ipv4 192 168 0 0, 24).
Definition dbPrefix4 : IpPrefix := (ipv4 192 168 20 16, 28).

Definition testRoutes : gmap IpPrefix unit :=
  {[ dbPrefix1 := (); dbPrefix2 := (); dbPrefix3 := (); dbPrefix4 := () ]}.

End Fib.


(** ** Decision (openr/decision/Decision.h) *)

Module Decision.

(** [thrift::PerfEvent]; [thrift::PerfEvents] is the list of its events. *)
Record PerfEvent := mkPerfEvent {
  nodeName : string;
  eventDescr : string;
  unixTs : Z }.

Abbreviation PerfEvents := (list PerfEvent).

(** [detail::DecisionPendingUpdates]; [count_] is a [uint32_t]. *)
Record DecisionPendingUpdates := mkPendingUpdates {
  count_ : Z;
  minTs_ : option Z;
  perfEvents_ : option PerfEvents }.

Definition noUpdates : DecisionPendingUpdates := mkPendingUpdates 0 None None.

(** [DecisionPendingUpdates::clear] *)
Definition clear (p : DecisionPendingUpdates) : DecisionPendingUpdates :=
  mkPendingUpdates 0 None None.

Definition getCount (p : DecisionPendingUpdates) : Z := count_ p.

Definition getPerfEvents (p : DecisionPendingUpdates) : option PerfEvents :=
  perfEvents_ p.

Section AddUpdate.

(** [addPerfEvent] of [openr/common/Util.h], which is not among the
    sources: it is called at the clock reading given as its first
    argument. *)
Variable addPerfEvent : Z -> PerfEvents -> string -> string -> PerfEvents.

(** [DecisionPendingUpdates::addUpdate], called at clock reading [now].
    [events.front()] of an empty list is undefined behaviour, the result
    [None]. *)
Definition addUpdate (now : Z) (nodeName0 : string)
    (perfEvents : option PerfEvents) (p : DecisionPendingUpdates)
    : option DecisionPendingUpdates :=
  let count1 := (count_ p + 1) mod 2 ^ 32 in
  match perfEvents with
  | None =>
      match perfEvents_ p with
      | Some _ => Some (mkPendingUpdates count1 (minTs_ p) (perfEvents_ p))
      | None =>
          let evs := addPerfEvent now [] nodeName0 "DECISION_RECEIVED" in
          front ← head evs;
          Some (mkPendingUpdates count1 (Some (unixTs front)) (Some evs))
      end
  | Some events =>
      front ← head events;
      if match minTs_ p with
         | None => true
         | Some minTs => minTs >? unixTs front
         end
      then Some (mkPendingUpdates count1 (Some (unixTs front))
                   (Some (addPerfEvent now events nodeName0
                            "DECISION_RECEIVED")))
      else Some (mkPendingUpdates count1 (minTs_ p) (perfEvents_ p))
  end.

(** A batch of updates, each with the clock reading of its call. *)
Fixpoint addUpdates (us : list (Z * string * option PerfEvents))
    (p : DecisionPendingUpdates) : option DecisionPendingUpdates :=
  match us with
  | [] => Some p
  | (now, nodeName0, perfEvents) :: rest =>
      p1 ← addUpdate now nodeName0 perfEvents p; addUpdates rest p1
  end.

(** The state of the pending updates after the updates [seen]. *)
Definition pending_inv (seen : list (Z * string * option PerfEvents))
    (p : DecisionPendingUpdates) : Prop :=
  count_ p = Z.of_nat (length seen) mod 2 ^ 32 /\
  match seen with
  | [] => minTs_ p = None /\ perfEvents_ p = None
  | _ =>
      exists evs front lastEv,
        perfEvents_ p = Some evs /\ head evs = Some front /\
        minTs_ p = Some (unixTs front) /\
        last evs = Some lastEv /\
        eventDescr lastEv = "DECISION_RECEIVED"%string /\
        (forall now n pe f, (now, n, Some pe) ∈ seen -> head pe = Some f ->
           unixTs front <= unixTs f) /\
        exists now n given,
          (now, n, given) ∈ seen /\ nodeName lastEv = n /\
          evs = addPerfEvent now (default [] given) n "DECISION_RECEIVED"
  end.

End AddUpdate.

(** The [addPerfEvent] that appends the event stamped with the clock
    reading. *)
Definition exAddPerfEvent (now : Z) (evs : PerfEvents) (n d : string)
    : PerfEvents :=
  evs ++ [mkPerfEvent n d now].

End Decision.

(** * Properties *)

Module MachineIntFacts.
Import MachineInt.

Lemma to_int32_range z : fits_int32 (to_int32 z).
Proof.
  unfold fits_int32, to_int32, INT32_MIN, INT32_MAX.
  pose proof (Z.mod_pos_bound (z + 2 ^ 31) (2 ^ 32) ltac:(lia)). lia.
Qed.

Lemma to_int32_id z : fits_int32 z -> to_int32 z = z.
Proof.
  unfold fits_int32, to_int32, INT32_MIN, INT32_MAX. intros H.
  rewrite Z.mod_small; lia.
Qed.

End MachineIntFacts.

Module StrOrderFacts.
Import StrOrder.

Lemma ascii_compare_refl c : Ascii.compare c c = Eq.
Proof. unfold Ascii.compare. apply N.compare_refl. Qed.

Lemma ascii_compare_eq c d : Ascii.compare c d = Eq -> c = d.
Proof.
  unfold Ascii.compare. intros H%N.compare_eq_iff.
  rewrite <- (ascii_N_embedding c), <- (ascii_N_embedding d). by rewrite H.
Qed.

Lemma ascii_compare_lt_trans c d e :
  Ascii.compare c d = Lt -> Ascii.compare d e = Lt -> Ascii.compare c e = Lt.
Proof.
  unfold Ascii.compare. rewrite !N.compare_lt_iff. lia.
Qed.

Lemma compare_refl s : String.compare s s = Eq.
Proof. induction s as [|c s IH]; simpl; [done|]. by rewrite ascii_compare_refl. Qed.

Lemma compare_lt_trans s1 : forall s2 s3,
  String.compare s1 s2 = Lt -> String.compare s2 s3 = Lt ->
  String.compare s1 s3 = Lt.
Proof.
  induction s1 as [|c1 s1 IH]; intros [|c2 s2] [|c3 s3]; simpl; try done.
  destruct (Ascii.compare c1 c2) eqn:E12; try done;
    destruct (Ascii.compare c2 c3) eqn:E23; try done; intros H12 H23.
  - apply ascii_compare_eq in E12, E23. subst.
    rewrite ascii_compare_refl. eauto.
  - apply ascii_compare_eq in E12. subst. by rewrite E23.
  - apply ascii_compare_eq in E23. subst. by rewrite E12.
  - by rewrite (ascii_compare_lt_trans _ _ _ E12 E23).
Qed.

Lemma lt_irrefl s : lt s s = false.
Proof. unfold lt, String.ltb. by rewrite compare_refl. Qed.

Lemma lt_trans a b c : lt a b = true -> lt b c = true -> lt a c = true.
Proof.
  unfold lt, String.ltb. intros Hab Hbc.
  destruct (String.compare a b) eqn:E1; try done.
  destruct (String.compare b c) eqn:E2; try done.
  by rewrite (compare_lt_trans _ _ _ E1 E2).
Qed.

Lemma le_refl s : le s s = true.
Proof. unfold le, String.leb. by rewrite compare_refl. Qed.

Lemma le_iff a b : le a b = true <-> lt a b = true \/ a = b.
Proof.
  unfold le, lt, String.leb, String.ltb.
  destruct (String.compare a b) eqn:E.
  - apply String.compare_eq_iff in E. naive_solver.
  - naive_solver.
  - split; [done|]. intros [?| ->]; [done|]. by rewrite compare_refl in E.
Qed.

Lemma not_lt_le a b : lt a b = false <-> le b a = true.
Proof.
  unfold le, lt, String.leb, String.ltb.
  rewrite (String.compare_antisym b a).
  destruct (String.compare a b); simpl; naive_solver.
Qed.

Lemma le_trans a b c : le a b = true -> le b c = true -> le a c = true.
Proof.
  rewrite !le_iff. intros [H1| ->] [H2| ->]; eauto using lt_trans.
Qed.

Lemma le_antisym a b : le a b = true -> le b a = true -> a = b.
Proof. apply String.leb_antisym. Qed.

Lemma lt_le a b : lt a b = true -> le a b = true.
Proof. rewrite le_iff. eauto. Qed.

End StrOrderFacts.

Module LinkMonitorFacts.
Import MachineInt MachineIntFacts LinkMonitor.

(** *** The KvStore client *)

(** Up to the part on the replies of the KvStore client, the handlers
    are those of a LinkMonitor whose KvStore client answers every request
    with success. *)
Abbreviation advertiseKvStorePeers_area :=
  (advertiseKvStorePeers_area kvStoreClientOk).
Abbreviation advertiseKvStorePeers := (advertiseKvStorePeers kvStoreClientOk).
Abbreviation neighborUpEvent := (neighborUpEvent kvStoreClientOk).
Abbreviation neighborDownEvent := (neighborDownEvent kvStoreClientOk).
Abbreviation neighborRestartingEvent :=
  (neighborRestartingEvent kvStoreClientOk).
Abbreviation processNeighborEvent := (processNeighborEvent kvStoreClientOk).
Abbreviation throttleCallback := (throttleCallback kvStoreClientOk).
Abbreviation handle := (handle kvStoreClientOk).
Abbreviation run := (run kvStoreClientOk).

(** With that client the two [CHECK(ret)] of [advertiseKvStorePeers]
    hold. *)
Lemma advertiseKvStorePeers_area_ok area0 upPeers st :
  advertiseKvStorePeers_area area0 upPeers st =
    (let oldPeers := default ∅ (peers_ st !! area0) in
     newPeers ← getPeersFromAdjacencies (adjacencies_ st) area0;
     let st1 := set_peers (<[area0 := newPeers]> (peers_ st)) st in
     let toDelPeers :=
       filter (λ nodeName, newPeers !! nodeName = None)
              ((map_to_list oldPeers).*1) in
     let st2 :=
       match toDelPeers with
       | [] => st1
       | _ => send_kvStore (DelPeers toDelPeers area0) st1
       end in
     let toAddPeers0 :=
       filter (λ newKv, oldPeers !! newKv.1 ≠ Some newKv.2) newPeers in
     toAddPeers ← map_fold (upPeers_step newPeers) (Some toAddPeers0) upPeers;
     Some (if bool_decide (toAddPeers = ∅) then st2
           else send_kvStore (AddPeers toAddPeers area0) st2)).
Proof.
  unfold LinkMonitor.advertiseKvStorePeers_area, checked_kvStore. simpl.
  destruct (getPeersFromAdjacencies (adjacencies_ st) area0) as [newPeers|];
    [|done]. simpl.
  destruct (filter _ (_.*1)); simpl;
    destruct (map_fold _ _ upPeers); simpl; try done;
    by case_bool_decide.
Qed.

(** *** getRttMetric *)

Lemma getRttMetric_ge_1 rttUs : 1 <= getRttMetric rttUs.
Proof. unfold getRttMetric. lia. Qed.

(** C10 (amended). For every [rttUs] the metric is at least 1, hence never
    zero; and whenever the quotient [rttUs / 100] is representable as a
    32-bit [int], the metric is [max (rttUs / 100) 1]. *)
Theorem getRttMetric_spec (rttUs : Z) :
  1 <= getRttMetric rttUs /\
  getRttMetric rttUs <> 0 /\
  (fits_int32 (rttUs ÷ 100) -> getRttMetric rttUs = Z.max (rttUs ÷ 100) 1).
Proof.
  pose proof (getRttMetric_ge_1 rttUs) as Hge.
  repeat split; [done|lia|].
  intros Hfit. unfold getRttMetric. by rewrite to_int32_id.
Qed.

Lemma getRttMetric_spec_witness :
  fits_int32 (250 ÷ 100) /\ getRttMetric 250 = Z.max (250 ÷ 100) 1.
Proof.
  assert (Hfit : fits_int32 (250 ÷ 100)).
  { unfold fits_int32. split; by vm_compute. }
  split; [exact Hfit|].
  exact (proj2 (proj2 (getRttMetric_spec 250)) Hfit).
Defined.

(** C10 as stated fails once the quotient leaves the [int] range: an RTT
    of [2^31 * 100] microseconds is a valid [int64_t], its quotient
    converts to [INT32_MIN], and the metric is 1 instead of [2^31]. *)
Lemma getRttMetric_counterexample :
  fits_int64 214748364800 /\
  getRttMetric 214748364800 = 1 /\
  Z.max (214748364800 ÷ 100) 1 = 2147483648 /\
  getRttMetric 214748364800 <> Z.max (214748364800 ÷ 100) 1.
Proof.
  unfold fits_int64. repeat split; by vm_compute.
Qed.

(** *** getPeersFromAdjacencies *)

Lemma eligibleb_spec area0 v :
  negb (String.eqb (area v) area0) || isRestarting v = false <->
  eligible area0 v.
Proof.
  unfold eligible. rewrite orb_false_iff, negb_false_iff, String.eqb_eq.
  done.
Qed.

Lemma neighborToIface_fold_inv area0 l :
  neighborToIface_inv area0 l (foldl (neighborToIface_step area0) ∅ l).
Proof.
  induction l as [|[[n i] v] l IH] using rev_ind.
  - intros node. simpl. rewrite lookup_empty. intros ? ? H.
    by apply elem_of_nil in H.
  - rewrite foldl_snoc. set (m := foldl _ _ l) in *.
    unfold neighborToIface_step.
    destruct (negb (String.eqb (area v) area0) || isRestarting v) eqn:Hel.
    + (* skipped entry *)
      assert (~ eligible area0 v) as Hnel.
      { rewrite <- eligibleb_spec. by rewrite Hel. }
      intros node. specialize (IH node).
      destruct (m !! node) as [iface|].
      * destruct IH as [(v0 & Hin & Hv0) Hmin]. split.
        -- exists v0. split; [|done]. apply elem_of_app. by left.
        -- intros iface' v' [Hin'|Hin']%elem_of_app Hel'; [eauto|].
           apply list_elem_of_singleton in Hin'. by simplify_eq.
      * intros iface' v' [Hin'|Hin']%elem_of_app; [eauto|].
        apply list_elem_of_singleton in Hin'. by simplify_eq.
    + apply eligibleb_spec in Hel.
      intros node. pose proof (IH node) as IHn.
      destruct (decide (node = n)) as [->|Hne].
      * destruct (m !! n) as [cur|] eqn:Hcur.
        -- destruct IHn as [(v0 & Hin & Hv0) Hmin].
           unfold StrOrder.gt. fold (StrOrder.lt i cur).
           destruct (StrOrder.lt i cur) eqn:Hlt.
           ++ rewrite lookup_insert_eq. split.
              ** exists v. split; [|done]. apply elem_of_app. right.
                 by apply list_elem_of_singleton.
              ** intros iface' v' [Hin'|Hin']%elem_of_app Hel'.
                 --- eapply StrOrderFacts.le_trans; [|by eapply Hmin].
                     by apply StrOrderFacts.lt_le.
                 --- apply list_elem_of_singleton in Hin'. simplify_eq.
                     apply StrOrderFacts.le_refl.
           ++ rewrite Hcur. split.
              ** exists v0. split; [|done]. apply elem_of_app. by left.
              ** intros iface' v' [Hin'|Hin']%elem_of_app Hel'; [eauto|].
                 apply list_elem_of_singleton in Hin'. simplify_eq.
                 by apply StrOrderFacts.not_lt_le.
        -- rewrite lookup_insert_eq. split.
           ++ exists v. split; [|done]. apply elem_of_app. right.
              by apply list_elem_of_singleton.
           ++ intros iface' v' [Hin'|Hin']%elem_of_app Hel'.
              ** by destruct (IHn iface' v').
              ** apply list_elem_of_singleton in Hin'. simplify_eq.
                 apply StrOrderFacts.le_refl.
      * assert (forall m', m' = m \/ m' = <[n:=i]> m ->
                  m' !! node = m !! node) as Hsame.
        { intros m' [->| ->]; [done|]. by rewrite lookup_insert_ne. }
        assert ((match m !! n with
                 | Some cur => if StrOrder.gt cur i then <[n:=i]> m else m
                 | None => <[n:=i]> m
                 end) !! node = m !! node) as ->.
        { apply Hsame. destruct (m !! n); [destruct (StrOrder.gt _ _)|]; eauto. }
        destruct (m !! node) as [iface|].
        -- destruct IHn as [(v0 & Hin & Hv0) Hmin]. split.
           ++ exists v0. split; [|done]. apply elem_of_app. by left.
           ++ intros iface' v' [Hin'|Hin']%elem_of_app Hel'; [eauto|].
              apply list_elem_of_singleton in Hin'. by simplify_eq.
        -- intros iface' v' [Hin'|Hin']%elem_of_app; [eauto|].
           apply list_elem_of_singleton in Hin'. by simplify_eq.
Qed.

Lemma peers_fold_spec (adjs : gmap (string * string) AdjacencyValue)
    (n2i : gmap string string) :
  (forall node iface, n2i !! node = Some iface ->
     is_Some (adjs !! (node, iface))) ->
  exists peers : gmap string PeerSpec,
    map_fold (peers_step adjs) (Some ∅) n2i = Some peers /\
    forall node,
      peers !! node =
      n2i !! node ≫= λ iface, peerSpec <$> adjs !! (node, iface).
Proof.
  apply (map_fold_weak_ind
    (λ r m,
      (forall node iface, m !! node = Some iface ->
         is_Some (adjs !! (node, iface))) ->
      exists peers : gmap string PeerSpec,
        r = Some peers /\
        forall node,
          peers !! node =
          m !! node ≫= λ iface, peerSpec <$> adjs !! (node, iface))).
  - intros _. exists ∅. split; [done|]. intros node.
    by rewrite !lookup_empty.
  - intros n i m r Hfresh IH Hat.
    destruct IH as (peers & -> & Hpeers).
    { intros node iface Hnode. apply Hat.
      rewrite lookup_insert_ne; [done|]. intros ->. congruence. }
    destruct (Hat n i) as [v Hv]; [by rewrite lookup_insert_eq|].
    assert (peers !! n = None) as Hnone.
    { by rewrite Hpeers, Hfresh. }
    exists (<[n := peerSpec v]> peers). split.
    + unfold peers_step. simpl. rewrite Hv. simpl. by rewrite Hnone.
    + intros node. destruct (decide (node = n)) as [->|Hne].
      * rewrite !lookup_insert_eq. simpl. by rewrite Hv.
      * rewrite !lookup_insert_ne by done. apply Hpeers.
Qed.

(** The peer map for any iteration order that enumerates the entries of
    the adjacency map. *)
Lemma getPeersFromAdjacencies_in_spec
    (order : list ((string * string) * AdjacencyValue))
    (adjs : gmap (string * string) AdjacencyValue) (area0 : string) :
  (forall k v, (k, v) ∈ order <-> adjs !! k = Some v) ->
  exists peers : gmap string PeerSpec,
    getPeersFromAdjacencies_in order adjs area0 = Some peers /\
    (forall node,
       is_Some (peers !! node) <->
       exists iface v, adjs !! (node, iface) = Some v /\ eligible area0 v) /\
    (forall node spec,
       peers !! node = Some spec <->
       exists iface v,
         adjs !! (node, iface) = Some v /\ eligible area0 v /\
         spec = peerSpec v /\
         forall iface' v', adjs !! (node, iface') = Some v' ->
           eligible area0 v' -> StrOrder.le iface iface' = true).
Proof.
  intros Horder. unfold getPeersFromAdjacencies_in.
  pose proof (neighborToIface_fold_inv area0 order) as Hinv.
  set (n2i := foldl _ _ order) in *.
  destruct (peers_fold_spec adjs n2i) as (peers & Hfold & Hpeers).
  { intros node iface Hnode. specialize (Hinv node). rewrite Hnode in Hinv.
    destruct Hinv as [(v & Hin & _) _]. exists v. by apply Horder. }
  exists peers. split; [done|].
  assert (forall node spec,
    peers !! node = Some spec <->
    exists iface v,
      adjs !! (node, iface) = Some v /\ eligible area0 v /\
      spec = peerSpec v /\
      forall iface' v', adjs !! (node, iface') = Some v' ->
        eligible area0 v' -> StrOrder.le iface iface' = true) as Hchar.
  { intros node spec. rewrite Hpeers. specialize (Hinv node). split.
    - destruct (n2i !! node) as [iface|]; [|done]. simpl.
      destruct Hinv as [(v & Hin & Hel) Hmin]. apply Horder in Hin.
      rewrite Hin. simpl. intros [= <-]. exists iface, v.
      repeat split; try done; try apply Hel.
      intros iface' v' Hin' Hel'. eapply Hmin; [|done]. by apply Horder.
    - intros (iface & v & Hv & Hel & -> & Hmin).
      destruct (n2i !! node) as [cur|].
      + destruct Hinv as [(v0 & Hin0 & Hel0) Hmin0]. simpl.
        assert (cur = iface) as ->.
        { apply StrOrderFacts.le_antisym.
          - eapply Hmin0; [|done]. by apply Horder.
          - apply Horder in Hin0. eauto. }
        by rewrite Hv.
      + exfalso. eapply Hinv; [|done]. by apply Horder. }
  split; [|done].
  intros node. split.
  - intros [spec Hspec]. apply Hchar in Hspec.
    destruct Hspec as (iface & v & ? & ? & _). eauto.
  - intros (iface & v & Hv & Hel). rewrite Hpeers.
    specialize (Hinv node). destruct (n2i !! node) as [cur|].
    + destruct Hinv as [(v0 & Hin0 & Hel0) _]. apply Horder in Hin0.
      simpl. rewrite Hin0. by eexists.
    + exfalso. eapply Hinv; [|done]. by apply Horder.
Qed.

Lemma getPeersFromAdjacencies_total
    (adjs : gmap (string * string) AdjacencyValue) area0 :
  is_Some (getPeersFromAdjacencies adjs area0).
Proof.
  destruct (getPeersFromAdjacencies_in_spec (map_to_list adjs) adjs area0)
    as (peers & Hp & _).
  { intros k v. apply elem_of_map_to_list. }
  by exists peers.
Qed.

(** The expectations of the unit test: [node1] peers over [iface0],
    [node2] over [iface2]; once [(node2, iface2)] is gone, over [iface3]. *)
Lemma getPeersFromAdjacencies_test :
  getPeersFromAdjacencies testAdjacencies "0"
    = Some {[ "node1"%string := exPeerSpec "iface0";
              "node2"%string := exPeerSpec "iface2" ]} /\
  getPeersFromAdjacencies
      (delete ("node2", "iface2")%string testAdjacencies) "0"
    = Some {[ "node1"%string := exPeerSpec "iface0";
              "node2"%string := exPeerSpec "iface3" ]} /\
  getPeersFromAdjacencies testAdjacencies "pod" = Some ∅.
Proof. by vm_compute. Qed.

(** *** advertiseKvStorePeers *)

Lemma upPeers_fold_empty (newPeers toAdd : gmap string PeerSpec) :
  map_fold (upPeers_step newPeers) (Some toAdd) (∅ : gmap string PeerSpec)
  = Some toAdd.
Proof. apply map_fold_empty. Qed.

(** What a completed peer advertisement leaves untouched. *)
Lemma advertiseKvStorePeers_area_frame area0 upPeers st st' :
  advertiseKvStorePeers_area area0 upPeers st = Some st' ->
  adjacencies_ st' = adjacencies_ st /\
  config_ st' = config_ st /\
  areas_ st' = areas_ st /\
  adjHoldUntilTimePoint_ st' = adjHoldUntilTimePoint_ st /\
  configStoreWrites st' = configStoreWrites st /\
  publishedAdjDbs st' = publishedAdjDbs st /\
  peers_ st' !! area0 = getPeersFromAdjacencies (adjacencies_ st) area0.
Proof.
  rewrite advertiseKvStorePeers_area_ok. intros H.
  destruct (getPeersFromAdjacencies (adjacencies_ st) area0)
    as [newPeers|] eqn:Hnew; [|done]. simpl in H.
  destruct (map_fold _ _ upPeers) as [toAdd|]; [|done]. simpl in H.
  injection H as <-.
  destruct (filter _ (map_to_list (default ∅ (peers_ st !! area0))).*1);
    case_bool_decide; simpl;
    unfold publishedAdjDbs; simpl;
    rewrite ?List.filter_app; simpl; rewrite ?app_nil_r;
    by rewrite lookup_insert_eq.
Qed.

Lemma advertiseKvStorePeers_area_total area0 st :
  is_Some (advertiseKvStorePeers_area area0 ∅ st).
Proof.
  rewrite advertiseKvStorePeers_area_ok.
  destruct (getPeersFromAdjacencies_total (adjacencies_ st) area0)
    as [newPeers ->]. simpl.
  rewrite upPeers_fold_empty. simpl. by eexists.
Qed.

(** C6 (amended). The peer map of an area has an entry for a neighbor
    exactly when the neighbor has a non-restarting adjacency in that area,
    and the entry carries the peering spec of the adjacency whose local
    interface name is least among the neighbor's non-restarting
    adjacencies in that area. A neighbor-restarting event keeps every key
    of the adjacency map, marks the adjacency as restarting, and
    recomputes the peer map of the area from the marked map. *)
Theorem getPeersFromAdjacencies_spec
    (adjs : gmap (string * string) AdjacencyValue) (area0 : string)
    (st : State) (remoteNodeName ifName0 : string) :
  (exists peers : gmap string PeerSpec,
     getPeersFromAdjacencies adjs area0 = Some peers /\
     (forall node,
        is_Some (peers !! node) <->
        exists iface v, adjs !! (node, iface) = Some v /\ eligible area0 v) /\
     (forall node spec,
        peers !! node = Some spec <->
        exists iface v,
          adjs !! (node, iface) = Some v /\ eligible area0 v /\
          spec = peerSpec v /\
          forall iface' v', adjs !! (node, iface') = Some v' ->
            eligible area0 v' -> StrOrder.le iface iface' = true)) /\
  (exists st',
     neighborRestartingEvent remoteNodeName ifName0 area0 st = Some st' /\
     dom (adjacencies_ st') = dom (adjacencies_ st) /\
     (forall v, adjacencies_ st' !! (remoteNodeName, ifName0) = Some v ->
        isRestarting v = true /\ ~ eligible area0 v) /\
     peers_ st' !! area0 = getPeersFromAdjacencies (adjacencies_ st') area0).
Proof.
  split.
  - apply getPeersFromAdjacencies_in_spec. intros k v.
    apply elem_of_map_to_list.
  - unfold neighborRestartingEvent.
    set (st1 := set_adjacencies _ st).
    destruct (advertiseKvStorePeers_area_total area0 st1) as [st' Hst'].
    exists st'. split; [done|].
    apply advertiseKvStorePeers_area_frame in Hst'
      as (Hadj & _ & _ & _ & _ & _ & Hpeers).
    rewrite Hadj, Hpeers. subst st1. simpl. split; [|split; [|done]].
    + apply set_eq. intros k. rewrite !elem_of_dom.
      rewrite lookup_alter. case_decide; subst;
        by rewrite ?is_Some_alt; try destruct (adjacencies_ st !! _).
    + intros v. rewrite lookup_alter_eq.
      destruct (adjacencies_ st !! _) as [v0|]; simpl; [|done].
      intros [= <-]. split; [done|]. unfold eligible. simpl. by intros [_ ?].
Qed.

(** C6 as stated fails when the least interface of a neighbor is the one
    that is restarting: [node1] is reachable over [iface0] (restarting) and
    [iface1]; the peer map takes the spec of [iface1], not that of the
    least interface [iface0]. *)
Lemma getPeersFromAdjacencies_counterexample :
  getPeersFromAdjacencies exAdjacencies "0"
    = Some {[ "node1"%string := exPeerSpec "iface1" ]} /\
  ~ spec_from_min_of_all_interfaces exAdjacencies
      {[ "node1"%string := exPeerSpec "iface1" ]}.
Proof.
  split; [by vm_compute|].
  intros Hclaim.
  destruct (Hclaim "node1"%string (exPeerSpec "iface1"))
    as (iface & v & Hv & Hspec & Hmin); [done|].
  assert (StrOrder.le iface "iface0" = true) as Hle.
  { eapply Hmin. unfold exAdjacencies. apply lookup_insert_eq. }
  unfold exAdjacencies in Hv.
  apply lookup_insert_Some in Hv as [[Hk <-]|[_ Hv]].
  - by injection Hk as <-.
  - apply lookup_insert_Some in Hv as [[Hk <-]|[_ Hv]]; [|done].
    by injection Hk as <-.
Qed.

(** *** Operator commands on unknown targets *)

(** C7 (amended). A call of [setInterfaceOverload] or [setLinkMetric] for
    an interface LinkMonitor does not know, or of [setAdjacencyMetric] for
    an adjacency it does not know, completes the future with the unit
    value (the error is only logged) and leaves the whole state as it
    was: the configuration is unchanged and the advertisement throttle is
    not armed. *)
Theorem set_commands_unknown_target (st : State)
    (interfaceName adjNodeName : string) (isOverloaded0 : bool)
    (overrideMetric : option Z) :
  (interfaces_ st !! interfaceName = None ->
     setInterfaceOverload interfaceName isOverloaded0 st = (TryValue (), st) /\
     setLinkMetric interfaceName overrideMetric st = (TryValue (), st)) /\
  (adjacencies_ st !! (adjNodeName, interfaceName) = None ->
     setAdjacencyMetric interfaceName adjNodeName overrideMetric st
       = (TryValue (), st)).
Proof.
  split.
  - intros Hunknown. unfold setInterfaceOverload, setLinkMetric.
    by rewrite !bool_decide_eq_true_2.
  - intros Hunknown. unfold setAdjacencyMetric.
    by rewrite bool_decide_eq_true_2.
Qed.

Lemma set_commands_unknown_target_witness :
  (interfaces_ exState !! "iface9"%string = None /\
   adjacencies_ exState !! ("node9", "iface9")%string = None) /\
  setInterfaceOverload "iface9" true exState = (TryValue (), exState) /\
  setLinkMetric "iface9" (Some 5) exState = (TryValue (), exState) /\
  setAdjacencyMetric "iface9" "node9" (Some 5) exState
    = (TryValue (), exState).
Proof.
  assert (Hif : interfaces_ exState !! "iface9"%string = None)
    by (by vm_compute).
  assert (Hadj : adjacencies_ exState !! ("node9", "iface9")%string = None)
    by (by vm_compute).
  pose proof
    (set_commands_unknown_target exState "iface9" "node9" true (Some 5))
    as [H1 H2].
  split; [by split|].
  split; [exact (proj1 (H1 Hif))|].
  split; [exact (proj2 (H1 Hif))|exact (H2 Hadj)].
Defined.

(** C7 as stated fails: for the unknown interface [iface9] and the unknown
    adjacency [(node9, iface9)] none of the three calls hands the caller
    an error. *)
Lemma set_commands_counterexample :
  interfaces_ exState !! "iface9"%string = None /\
  adjacencies_ exState !! ("node9", "iface9")%string = None /\
  ~ returns_typed_error (setInterfaceOverload "iface9" true exState).1 /\
  ~ returns_typed_error (setLinkMetric "iface9" (Some 5) exState).1 /\
  ~ returns_typed_error
      (setAdjacencyMetric "iface9" "node9" (Some 5) exState).1.
Proof.
  split; [by vm_compute|]. split; [by vm_compute|].
  repeat split; intros [what Hwhat]; by vm_compute in Hwhat.
Qed.

(** For a known interface the same call does change the configuration
    and arms the advertisement throttle. *)
Lemma setInterfaceOverload_known_example :
  let st' := (setInterfaceOverload "iface1" true exState).2 in
  overloadedLinks (config_ st') = {[ "iface1"%string ]} /\
  advertiseAdjacenciesThrottledActive st' = true /\
  advertiseAdjacenciesThrottledActive exState = false.
Proof. by vm_compute. Qed.

(** *** Hold on start *)

Lemma nothing_published_refl st : nothing_published st st.
Proof. by split. Qed.

Lemma nothing_published_trans st1 st2 st3 :
  nothing_published st1 st2 -> nothing_published st2 st3 ->
  nothing_published st1 st3.
Proof. intros [? ?] [? ?]. split; congruence. Qed.

Lemma advertiseAdjacencies_area_early now area0 st :
  now < adjHoldUntilTimePoint_ st ->
  advertiseAdjacencies_area now area0 st = st.
Proof.
  intros Hnow. unfold advertiseAdjacencies_area.
  by rewrite (proj2 (Z.ltb_lt _ _) Hnow).
Qed.

Lemma advertiseAdjacencies_fold_early now areas st :
  now < adjHoldUntilTimePoint_ st ->
  foldl (λ st' area0, advertiseAdjacencies_area now area0 st') st areas = st.
Proof.
  intros Hnow. induction areas as [|a areas IH]; simpl; [done|].
  by rewrite advertiseAdjacencies_area_early.
Qed.

Lemma advertiseAdjacencies_early now st :
  now < adjHoldUntilTimePoint_ st -> advertiseAdjacencies now st = st.
Proof. apply advertiseAdjacencies_fold_early. Qed.

Lemma advertiseKvStorePeers_area_quiet area0 upPeers st st' :
  advertiseKvStorePeers_area area0 upPeers st = Some st' ->
  nothing_published st st'.
Proof.
  intros H. apply advertiseKvStorePeers_area_frame in H. by split; apply H.
Qed.

Lemma advertiseKvStorePeers_fold_quiet upPeers areas : forall st st',
  foldl (λ acc area0, st1 ← acc; advertiseKvStorePeers_area area0 upPeers st1)
        (Some st) areas = Some st' ->
  nothing_published st st'.
Proof.
  induction areas as [|a areas IH]; simpl; intros st st' H.
  - injection H as <-. apply nothing_published_refl.
  - destruct (advertiseKvStorePeers_area a upPeers st) as [st1|] eqn:Hst1.
    + eapply nothing_published_trans; [|by apply IH].
      by eapply advertiseKvStorePeers_area_quiet.
    + exfalso. clear -H. induction areas as [|b areas IH]; simpl in *; eauto.
      done.
Qed.

Lemma advertiseKvStorePeers_fold_total areas : forall st,
  is_Some
    (foldl (λ acc area0, st1 ← acc; advertiseKvStorePeers_area area0 ∅ st1)
           (Some st) areas).
Proof.
  induction areas as [|a areas IH]; simpl; intros st; [by eexists|].
  destruct (advertiseKvStorePeers_area_total a st) as [st1 ->]. apply IH.
Qed.

(** The peer announced by a neighbor-up event is in the new peer map, so
    the [CHECK] of [advertiseKvStorePeers] holds. *)
Lemma advertiseKvStorePeers_area_up_total area0 n i v spec st :
  adjacencies_ st !! (n, i) = Some v -> eligible area0 v ->
  is_Some (advertiseKvStorePeers_area area0 {[ n := spec ]} st).
Proof.
  intros Hv Hel. rewrite advertiseKvStorePeers_area_ok.
  destruct (getPeersFromAdjacencies_in_spec
              (map_to_list (adjacencies_ st)) (adjacencies_ st) area0)
    as (newPeers & Hnew & Hdom & _).
  { intros k w. apply elem_of_map_to_list. }
  fold (getPeersFromAdjacencies (adjacencies_ st) area0) in Hnew.
  rewrite Hnew. simpl.
  destruct (proj2 (Hdom n)) as [cur Hcur]; [by eauto|].
  rewrite map_fold_singleton. unfold upPeers_step at 1. simpl.
  rewrite Hcur. repeat case_bool_decide; simpl; by eexists.
Qed.

(** Every handler runs to completion. *)
Lemma handle_total now ev st : is_Some (handle now ev st).
Proof.
  destruct ev as [unixTs event| | | | | | |]; simpl; try by eexists.
  - unfold processNeighborEvent.
    assert (is_Some (neighborUpEvent unixTs event st)) as Hup.
    { unfold neighborUpEvent.
      destruct (if negb (mockMode_ st) then _ else _) as [pubUrl0 repUrl].
      match goal with
      | |- is_Some (advertiseKvStorePeers_area ?a {[ ?n := ?sp ]}
                      (set_adjacencies (<[ (_, ?i) := ?v ]> ?adjs) ?s0) ≫= _) =>
          destruct (advertiseKvStorePeers_area_up_total a n i v sp
                      (set_adjacencies (<[ (n, i) := v ]> adjs) s0))
            as [st2 Hst2]
      end.
      - simpl. apply lookup_insert_eq.
      - by split.
      - rewrite Hst2. simpl. by eexists. }
    destruct (eventType event); try done.
    + unfold neighborDownEvent.
      match goal with
      | |- is_Some (advertiseKvStorePeers_area ?a ∅ ?s ≫= _) =>
          destruct (advertiseKvStorePeers_area_total a s) as [st2 ->]
      end.
      simpl. by eexists.
    + destruct (negb (useRttMetric_ st)); [by eexists|].
      destruct (adjacencies_ st !! _); by eexists.
    + unfold neighborRestartingEvent. apply advertiseKvStorePeers_area_total.
  - unfold throttleCallback, advertiseKvStorePeers.
    destruct (advertiseKvStorePeers_fold_total
                (areas_ (set_throttle false st)) (set_throttle false st))
      as [st1 ->].
    simpl. by eexists.
Qed.

(** A handler that runs before the hold deadline publishes nothing. *)
Lemma handle_early now ev st st' :
  now < adjHoldUntilTimePoint_ st ->
  handle now ev st = Some st' ->
  nothing_published st st'.
Proof.
  intros Hnow.
  destruct ev as [unixTs event| | |newVal|b|i b|i m|i n m]; simpl.
  - unfold processNeighborEvent.
    assert (neighborUpEvent unixTs event st = Some st' ->
            nothing_published st st') as Hup.
    { unfold neighborUpEvent.
      destruct (if negb (mockMode_ st) then _ else _) as [pubUrl0 repUrl].
      destruct (advertiseKvStorePeers_area _ _ _) as [st2|] eqn:Hst2; [|done].
      simpl. intros [= <-].
      apply advertiseKvStorePeers_area_quiet in Hst2. exact Hst2. }
    destruct (eventType event); try done.
    + unfold neighborDownEvent.
      destruct (advertiseKvStorePeers_area _ _ _) as [st2|] eqn:Hst2; [|done].
      simpl. intros [= <-].
      apply advertiseKvStorePeers_area_quiet in Hst2.
      rewrite advertiseAdjacencies_area_early; [exact Hst2|].
      destruct Hst2 as [-> _]. exact Hnow.
    + destruct (negb (useRttMetric_ st)).
      { intros [= <-]. apply nothing_published_refl. }
      destruct (adjacencies_ st !! _); intros [= <-]; by split.
    + unfold neighborRestartingEvent. intros H.
      by apply advertiseKvStorePeers_area_quiet in H.
  - unfold throttleCallback, advertiseKvStorePeers.
    destruct (foldl _ _ _) as [st1|] eqn:Hst1; [|done]. simpl.
    intros [= <-].
    apply advertiseKvStorePeers_fold_quiet in Hst1.
    rewrite advertiseAdjacencies_early; [exact Hst1|].
    destruct Hst1 as [-> _]. exact Hnow.
  - intros [= <-]. unfold adjHoldTimerCallback.
    rewrite advertiseAdjacencies_early by done.
    destruct (advertiseAdjacenciesThrottledActive st); by split.
  - intros [= <-]. unfold nodeLabelCallback.
    rewrite advertiseAdjacencies_early by done. by split.
  - intros [= <-]. unfold setNodeOverload.
    case_bool_decide; simpl; [by split|].
    rewrite advertiseAdjacencies_early by done. by split.
  - intros [= <-]. unfold setInterfaceOverload.
    repeat (case_bool_decide || destruct b); simpl; by split.
  - intros [= <-]. unfold setLinkMetric.
    case_bool_decide; [by split|].
    destruct m, (linkMetricOverrides (config_ st) !! i);
      try case_bool_decide; simpl; by split.
  - intros [= <-]. unfold setAdjacencyMetric.
    case_bool_decide; [by split|].
    destruct m, (adjMetricOverrides (config_ st) !! (n, i));
      try case_bool_decide; simpl; by split.
Qed.

(** C8. While the steady clock is before [adjHoldUntilTimePoint_], a call
    of [advertiseAdjacencies], for one area or for all, returns the state
    as it was; and any run of the event loop whose handlers all start
    before that time point completes with no adjacency database handed
    to KvStore. (The KvStore client of the run accepts the peer requests;
    a run that completes against another client is this very run.) *)
Theorem no_adjacency_publication_before_hold (st : State)
    (evs : list (Z * Event)) :
  (forall now area0, now < adjHoldUntilTimePoint_ st ->
     advertiseAdjacencies_area now area0 st = st /\
     advertiseAdjacencies now st = st) /\
  ((forall now ev, (now, ev) ∈ evs -> now < adjHoldUntilTimePoint_ st) ->
   exists st', run evs st = Some st' /\ nothing_published st st').
Proof.
  split.
  - intros now area0 Hnow.
    by rewrite advertiseAdjacencies_area_early, advertiseAdjacencies_early.
  - revert st. induction evs as [|[now ev] evs IH]; intros st Hearly.
    + exists st. split; [done|apply nothing_published_refl].
    + destruct (handle_total now ev st) as [st1 Hst1].
      assert (now < adjHoldUntilTimePoint_ st) as Hnow.
      { eapply Hearly. by left. }
      pose proof (handle_early _ _ _ _ Hnow Hst1) as Hq1.
      destruct (IH st1) as (st' & Hrun & Hq).
      { intros now' ev' Hin. destruct Hq1 as [-> _]. eapply Hearly.
        by right. }
      exists st'. split.
      * simpl. by rewrite Hst1.
      * by eapply nothing_published_trans.
Qed.

Lemma no_adjacency_publication_before_hold_witness :
  500 < adjHoldUntilTimePoint_ exState /\
  advertiseAdjacencies_area 500 "0" exState = exState /\
  advertiseAdjacencies 500 exState = exState /\
  (forall now ev, (now, ev) ∈ exEarlyEvents ->
     now < adjHoldUntilTimePoint_ exState) /\
  exists st', run exEarlyEvents exState = Some st' /\
              nothing_published exState st'.
Proof.
  assert (Hnow : 500 < adjHoldUntilTimePoint_ exState) by (by vm_compute).
  assert (Hearly : forall now ev, (now, ev) ∈ exEarlyEvents ->
                     now < adjHoldUntilTimePoint_ exState).
  { intros now ev Hin. unfold exEarlyEvents in Hin.
    repeat (apply elem_of_cons in Hin as [[= -> _]|Hin]; [by vm_compute|]).
    by apply elem_of_nil in Hin. }
  pose proof (no_adjacency_publication_before_hold exState exEarlyEvents)
    as [Hcall Hrun].
  split; [exact Hnow|].
  split; [exact (proj1 (Hcall 500 "0"%string Hnow))|].
  split; [exact (proj2 (Hcall 500 "0"%string Hnow))|].
  split; [exact Hearly|exact (Hrun Hearly)].
Defined.

(** After the hold the same call does publish: the guard is what holds the
    first advertisement back. *)
Lemma advertiseAdjacencies_after_hold :
  length (publishedAdjDbs (advertiseAdjacencies 1000 exState)) = 1%nat.
Proof. by vm_compute. Qed.

(** *** The requests of a peer advertisement *)

Lemma upPeers_fold_spec (newPeers toAdd0 up : gmap string PeerSpec) :
  match map_fold (upPeers_step newPeers) (Some toAdd0) up with
  | Some toAdd =>
      (forall n, is_Some (up !! n) -> is_Some (newPeers !! n)) /\
      forall n s, toAdd !! n = Some s <->
        toAdd0 !! n = Some s \/
        (toAdd0 !! n = None /\ up !! n = Some s /\ newPeers !! n = Some s)
  | None => exists n, is_Some (up !! n) /\ newPeers !! n = None
  end.
Proof.
  apply (map_fold_weak_ind
    (λ (r : option (gmap string PeerSpec)) (m : gmap string PeerSpec),
       match r with
       | Some toAdd =>
           (forall n, is_Some (m !! n) -> is_Some (newPeers !! n)) /\
           forall n s, toAdd !! n = Some s <->
             toAdd0 !! n = Some s \/
             (toAdd0 !! n = None /\ m !! n = Some s /\ newPeers !! n = Some s)
       | None => exists n, is_Some (m !! n) /\ newPeers !! n = None
       end)).
  - split.
    + intros n [? Hn]. by rewrite lookup_empty in Hn.
    + intros n s. rewrite lookup_empty. intuition congruence.
  - intros name spec m r Hfresh IH. destruct r as [toAdd|]; simpl.
    + destruct IH as [Hdom Hchar].
      destruct (newPeers !! name) as [cur|] eqn:Hcur.
      * assert (forall n, is_Some (<[name:=spec]> m !! n) ->
                  is_Some (newPeers !! n)) as Hdom'.
        { intros n. rewrite lookup_insert. case_decide as Hn; [|by apply Hdom].
          subst. by rewrite Hcur. }
        repeat case_bool_decide; (split; [exact Hdom'|]); intros n s.
        -- rewrite Hchar. destruct (decide (n = name)) as [->|Hne].
           ++ rewrite lookup_insert_eq, Hfresh.
              match goal with H : is_Some (toAdd !! name) |- _ =>
                destruct H as [s0 Hs0]; apply Hchar in Hs0 end.
              rewrite Hfresh in *. intuition congruence.
           ++ by rewrite lookup_insert_ne.
        -- rewrite Hchar. destruct (decide (n = name)) as [->|Hne].
           ++ rewrite lookup_insert_eq, Hfresh, Hcur. intuition congruence.
           ++ by rewrite lookup_insert_ne.
        -- destruct (decide (n = name)) as [->|Hne].
           ++ rewrite !lookup_insert_eq, Hcur.
              match goal with H : ¬ is_Some (toAdd !! name) |- _ =>
                apply eq_None_not_Some in H; rename H into Hnone end.
              assert (toAdd0 !! name = None) as Hnone0.
              { destruct (toAdd0 !! name) as [s0|] eqn:Hs0; [|done].
                assert (toAdd !! name = Some s0) by (apply Hchar; by left).
                congruence. }
              rewrite Hnone0.
              subst cur. intuition congruence.
           ++ rewrite !lookup_insert_ne by done. apply Hchar.
      * exists name. by rewrite lookup_insert_eq.
    + destruct IH as (n & Hn & Hnone). exists n. split; [|done].
      rewrite lookup_insert_ne; [done|]. intros ->.
      rewrite Hfresh in Hn. by destruct Hn.
Qed.

(** What a completed peer advertisement for [area0] has done: the peer
    map of the area is the one computed from the adjacencies, and KvStore
    has been sent at most one [DelPeers] followed by at most one
    [AddPeers]. *)
Lemma advertiseKvStorePeers_area_requests area0 up st st' :
  advertiseKvStorePeers_area area0 up st = Some st' ->
  exists (newPeers : gmap string PeerSpec) (toDel : list string)
         (toAdd : gmap string PeerSpec),
    getPeersFromAdjacencies (adjacencies_ st) area0 = Some newPeers /\
    peers_ st' = <[area0 := newPeers]> (peers_ st) /\
    (forall n, n ∈ toDel <->
       is_Some (peersOf area0 st !! n) /\ newPeers !! n = None) /\
    (forall n s, toAdd !! n = Some s <->
       newPeers !! n = Some s /\
       (peersOf area0 st !! n ≠ Some s \/ up !! n = Some s)) /\
    (forall n, is_Some (up !! n) -> is_Some (newPeers !! n)) /\
    kvStoreRequests st' =
      kvStoreRequests st
      ++ match toDel with [] => [] | _ => [DelPeers toDel area0] end
      ++ (if decide (toAdd = ∅) then [] else [AddPeers toAdd area0]) /\
    st' = set_peers (peers_ st')
            (mkState (nodeId_ st) (areas_ st) (useRttMetric_ st)
               (enablePerfMeasurement_ st) (enableSegmentRouting_ st)
               (mockMode_ st) (adjacencyDbMarker_ st) (ttlKeyInKvStore_ st)
               (adjHoldUntilTimePoint_ st) (config_ st) (interfaces_ st)
               (adjacencies_ st) (peers_ st)
               (advertiseAdjacenciesThrottledActive st) (kvStoreRequests st')
               (configStoreWrites st)).
Proof.
  rewrite advertiseKvStorePeers_area_ok. unfold peersOf. intros H.
  destruct (getPeersFromAdjacencies (adjacencies_ st) area0)
    as [newPeers|] eqn:Hnew; [|done]. simpl in H.
  set (old := default ∅ (peers_ st !! area0)) in *.
  set (toAdd0 := filter (λ newKv : string * PeerSpec,
                           old !! newKv.1 ≠ Some newKv.2) newPeers) in *.
  pose proof (upPeers_fold_spec newPeers toAdd0 up) as Hup.
  destruct (map_fold _ _ up) as [toAdd|]; [|done]. simpl in H.
  destruct Hup as [Hdom Hchar].
  set (toDel := filter (λ nodeName : string, newPeers !! nodeName = None)
                  (map_to_list old).*1) in *.
  exists newPeers, toDel, toAdd.
  assert (forall n s, toAdd0 !! n = Some s <->
            newPeers !! n = Some s /\ old !! n ≠ Some s) as Hadd0.
  { intros n s. subst toAdd0. by rewrite map_lookup_filter_Some. }
  split; [done|].
  injection H as <-.
  split.
  { destruct toDel; case_bool_decide; done. }
  split.
  { intros n. subst toDel. rewrite list_elem_of_filter, list_elem_of_fmap.
    split.
    - intros [Hnone ([n' s] & -> & Hin)]. simpl in *.
      apply elem_of_map_to_list in Hin. by split; [eexists|].
    - intros [[s Hs] Hnone]. split; [done|]. exists (n, s). split; [done|].
      by apply elem_of_map_to_list. }
  split.
  { intros n s. rewrite Hchar, Hadd0. split.
    - intros [[? ?]|(Hnone & Hu & Hn)]; [by eauto|]. by eauto.
    - intros [Hn [Ho|Hu]]; [by left|].
      destruct (toAdd0 !! n) as [s0|] eqn:Hs0.
      + left. apply Hadd0 in Hs0 as [Hn' Ho]. by simplify_eq.
      + right. done. }
  split; [done|].
  split.
  { destruct toDel; case_bool_decide as He; case_decide as He'; simpl;
      rewrite <- ?app_assoc; simpl; rewrite ?app_nil_r; try done. }
  destruct toDel; case_bool_decide; done.
Qed.

Lemma getPeersFromAdjacencies_char
    (adjs : gmap (string * string) AdjacencyValue) (area0 : string) :
  exists peers : gmap string PeerSpec,
    getPeersFromAdjacencies adjs area0 = Some peers /\
    (forall node,
       is_Some (peers !! node) <->
       exists iface v, adjs !! (node, iface) = Some v /\ eligible area0 v) /\
    (forall node spec,
       peers !! node = Some spec <->
       exists iface v,
         adjs !! (node, iface) = Some v /\ eligible area0 v /\
         spec = peerSpec v /\
         forall iface' v', adjs !! (node, iface') = Some v' ->
           eligible area0 v' -> StrOrder.le iface iface' = true).
Proof.
  apply getPeersFromAdjacencies_in_spec. intros k v.
  apply elem_of_map_to_list.
Qed.

Lemma advertiseKvStorePeers_area_noop area0 st :
  peers_ st !! area0 = getPeersFromAdjacencies (adjacencies_ st) area0 ->
  advertiseKvStorePeers_area area0 ∅ st = Some st.
Proof.
  intros Hsettled. rewrite advertiseKvStorePeers_area_ok.
  destruct (getPeersFromAdjacencies_total (adjacencies_ st) area0)
    as [newPeers Hnew].
  rewrite Hnew in *. rewrite Hsettled. simpl.
  assert (filter (λ nodeName : string, newPeers !! nodeName = None)
            (map_to_list newPeers).*1 = []) as ->.
  { destruct (filter _ _) as [|n l] eqn:Hf; [done|].
    assert (n ∈ n :: l) as Hin by (by left). rewrite <- Hf in Hin.
    apply list_elem_of_filter in Hin as [Hnone Hin].
    apply list_elem_of_fmap in Hin as ([n' s] & -> & Hin).
    apply elem_of_map_to_list in Hin. simpl in *. congruence. }
  assert (filter (λ newKv : string * PeerSpec,
                    newPeers !! newKv.1 ≠ Some newKv.2) newPeers = ∅) as ->.
  { apply map_eq. intros n. rewrite lookup_empty.
    apply map_lookup_filter_None. right. intros s Hs. simpl. by intros []. }
  rewrite upPeers_fold_empty. simpl.
  rewrite bool_decide_eq_true_2 by done.
  rewrite insert_id by done. by destruct st.
Qed.

Lemma advertiseKvStorePeers_fold_settles areas : forall st st',
  foldl (λ acc area0, st1 ← acc; advertiseKvStorePeers_area area0 ∅ st1)
        (Some st) areas = Some st' ->
  adjacencies_ st' = adjacencies_ st /\ areas_ st' = areas_ st /\
  forall a,
    (a ∈ areas \/
     peers_ st !! a = getPeersFromAdjacencies (adjacencies_ st) a) ->
    peers_ st' !! a = getPeersFromAdjacencies (adjacencies_ st) a.
Proof.
  induction areas as [|a0 areas IH]; simpl; intros st st' H.
  - injection H as <-. split; [done|]. split; [done|].
    intros a [Hin|?]; [|done]. by apply elem_of_nil in Hin.
  - destruct (advertiseKvStorePeers_area a0 ∅ st) as [st1|] eqn:Hst1.
    + apply IH in H as (Hadj & Hareas & Hp).
      pose proof (advertiseKvStorePeers_area_frame _ _ _ _ Hst1)
        as (Hadj1 & _ & Hareas1 & _ & _ & _ & Hp1).
      destruct (advertiseKvStorePeers_area_requests _ _ _ _ Hst1)
        as (newPeers & _ & _ & _ & Hpeers1 & _).
      rewrite Hadj1 in *. split; [done|]. split; [congruence|].
      intros a Ha. apply Hp.
      destruct (decide (a = a0)) as [->|Hne]; [by right|].
      destruct Ha as [[->|Hin]%elem_of_cons|Hs]; [done|by left|].
      right. by rewrite Hpeers1, lookup_insert_ne.
    + exfalso. clear -H. induction areas as [|b areas IH]; simpl in *; eauto.
      done.
Qed.

Lemma advertiseKvStorePeers_fold_noop areas : forall st,
  (forall a, a ∈ areas ->
     peers_ st !! a = getPeersFromAdjacencies (adjacencies_ st) a) ->
  foldl (λ acc area0, st1 ← acc; advertiseKvStorePeers_area area0 ∅ st1)
        (Some st) areas = Some st.
Proof.
  induction areas as [|a0 areas IH]; simpl; intros st Hs; [done|].
  rewrite advertiseKvStorePeers_area_noop by (apply Hs; by left).
  apply IH. intros a Ha. apply Hs. by right.
Qed.

(** X2. Advertising the peers again changes nothing: with no peer
    announced as up, calling [advertiseKvStorePeers] twice in a row, for
    one area or for all areas, ends in the same state and has sent the
    same requests as calling it once. (The KvStore client accepts the
    requests.) *)
Theorem advertiseKvStorePeers_idempotent (area0 : string) (st : State) :
  (advertiseKvStorePeers_area area0 ∅ st
     ≫= advertiseKvStorePeers_area area0 ∅)
  = advertiseKvStorePeers_area area0 ∅ st /\
  (advertiseKvStorePeers ∅ st ≫= advertiseKvStorePeers ∅)
  = advertiseKvStorePeers ∅ st.
Proof.
  split.
  - destruct (advertiseKvStorePeers_area area0 ∅ st) as [st1|] eqn:H; [|done].
    simpl. apply advertiseKvStorePeers_area_noop.
    apply advertiseKvStorePeers_area_frame in H as (-> & _ & _ & _ & _ & _ & ->).
    done.
  - destruct (advertiseKvStorePeers ∅ st) as [st2|] eqn:H; [|done]. simpl.
    unfold advertiseKvStorePeers in *.
    apply advertiseKvStorePeers_fold_settles in H as (Hadj & Hareas & Hp).
    rewrite Hareas. apply advertiseKvStorePeers_fold_noop.
    intros a Ha. rewrite Hadj. apply Hp. by left.
Qed.

(** *** Neighbor events *)



Lemma overriddenAdjacency_names cfg adj :
  otherNodeName (overriddenAdjacency cfg adj) = otherNodeName adj /\
  ifName (overriddenAdjacency cfg adj) = ifName adj.
Proof. done. Qed.

Lemma elem_of_buildAdjacencyDatabase area0 st adj :
  adj ∈ adjacencies (buildAdjacencyDatabase area0 st) <->
  exists k v, adjacencies_ st !! k = Some v /\ area v = area0 /\
    adj = overriddenAdjacency (config_ st) (adjacency v).
Proof.
  unfold buildAdjacencyDatabase. simpl.
  rewrite list_elem_of_In, in_map_iff. split.
  - intros ([k v] & <- & Hin). apply list_elem_of_In in Hin.
    apply list_elem_of_filter in Hin as [Ha Hin].
    apply elem_of_map_to_list in Hin. by eauto.
  - intros (k & v & Hv & Ha & ->). exists (k, v). split; [done|].
    apply list_elem_of_In, list_elem_of_filter. split; [done|].
    by apply elem_of_map_to_list.
Qed.

Lemma advertiseAdjacencies_area_late now area0 st :
  adjHoldUntilTimePoint_ st <= now ->
  advertiseAdjacencies_area now area0 st =
  set_throttle false (store_config (send_kvStore (adjDbRequest area0 st) st)).
Proof.
  intros Hnow. unfold advertiseAdjacencies_area.
  rewrite (proj2 (Z.ltb_ge _ _) Hnow). unfold adjDbRequest.
  destruct st as [? ? ? ? ? ? ? ? ? ? ? ? ? th ? ?]. simpl. by destruct th.
Qed.



Lemma list_fmap_id_on {A} (f : A -> A) (l : list A) :
  (forall x, x ∈ l -> f x = x) -> f <$> l = l.
Proof.
  intros Hf. rewrite <- (list_fmap_id l) at 2.
  apply list_fmap_ext. intros i x Hx. apply Hf.
  by eapply list_elem_of_lookup_2.
Qed.

Lemma list_filter_fmap_comm {A B} (f : A -> B) (P : B -> Prop)
    `{!forall y, Decision (P y)} (l : list A) :
  filter P (f <$> l) = f <$> filter (λ x, P (f x)) l.
Proof.
  induction l as [|x l IH]; [done|]. rewrite fmap_cons.
  destruct (decide (P (f x))) as [Hx|Hx].
  - rewrite !filter_cons_True by done. by rewrite fmap_cons, IH.
  - by rewrite !filter_cons_False.
Qed.

Lemma map_to_list_alter_Permutation `{Countable K} {A} (f : A -> A)
    (m : gmap K A) (k : K) :
  map_to_list (alter f k m)
  ≡ₚ (λ kv : K * A, if decide (kv.1 = k) then (kv.1, f kv.2) else kv)
     <$> map_to_list m.
Proof.
  destruct (m !! k) as [x|] eqn:Hk.
  - assert (alter f k m = <[k := f x]> (delete k m)) as ->.
    { apply map_eq. intros j. destruct (decide (j = k)) as [->|Hne].
      - by rewrite lookup_alter_eq, lookup_insert_eq, Hk.
      - by rewrite lookup_alter_ne, lookup_insert_ne, lookup_delete_ne. }
    rewrite <- (insert_delete_id m k x) at 2 by done.
    rewrite !map_to_list_insert by apply lookup_delete_eq.
    rewrite fmap_cons. simpl. rewrite decide_True by done.
    constructor. rewrite list_fmap_id_on; [done|].
    intros [j y] Hj%elem_of_map_to_list. simpl.
    apply lookup_delete_Some in Hj as [Hne _]. by rewrite decide_False.
  - assert (alter f k m = m) as ->.
    { apply map_eq. intros j. destruct (decide (j = k)) as [->|Hne].
      - by rewrite lookup_alter_eq, Hk.
      - by rewrite lookup_alter_ne. }
    rewrite list_fmap_id_on; [done|].
    intros [j y] Hj%elem_of_map_to_list. simpl.
    rewrite decide_False; [done|]. intros ->. congruence.
Qed.

(** X5. Graceful restart. With a KvStore client that accepts the peer
    requests, a neighbor-restarting event completes and keeps the
    adjacency advertised: for every area the adjacency
    database LinkMonitor would publish holds the same adjacencies as
    before, nothing is published, and the configuration is untouched.
    Only the peering is withdrawn: if the marked adjacency is in the area
    of the event and the neighbor has no other non-restarting adjacency
    there, the neighbor is no peer of the area afterwards. *)
Theorem neighborRestartingEvent_keeps_adjacency (n i a : string)
    (st : State) :
  exists st',
    neighborRestartingEvent n i a st = Some st' /\
    (forall a',
       adjacencies (buildAdjacencyDatabase a' st')
       ≡ₚ adjacencies (buildAdjacencyDatabase a' st)) /\
    publishedAdjDbs st' = publishedAdjDbs st /\
    config_ st' = config_ st /\
    advertiseAdjacenciesThrottledActive st'
      = advertiseAdjacenciesThrottledActive st /\
    ((forall i' v', i' ≠ i -> adjacencies_ st !! (n, i') = Some v' ->
        ~ eligible a v') ->
     peersOf a st' !! n = None).
Proof.
  unfold neighborRestartingEvent.
  set (st1 := set_adjacencies (alter markRestarting (n, i) (adjacencies_ st)) st).
  destruct (advertiseKvStorePeers_area_total a st1) as [st' Hst'].
  exists st'. split; [done|].
  pose proof (advertiseKvStorePeers_area_frame _ _ _ _ Hst')
    as (Hadj & Hcfg & _ & _ & _ & Hpub & Hpeers).
  destruct (advertiseKvStorePeers_area_requests _ _ _ _ Hst')
    as (_ & _ & _ & _ & _ & _ & _ & _ & _ & Heq).
  split; [|split; [done|split; [done|split]]].
  - intros a'. unfold buildAdjacencyDatabase. simpl.
    rewrite Hadj, Hcfg. simpl.
    rewrite map_to_list_alter_Permutation.
    rewrite list_filter_fmap_comm.
    change (map ?f ?l) with (f <$> l). rewrite <- list_fmap_compose.
    match goal with
    | |- ?x ≡ₚ ?y => cut (x = y); [by intros ->|]
    end.
    match goal with
    | |- _ <$> filter ?P ?l = _ <$> filter ?Q ?l =>
        assert (filter P l = filter Q l) as ->
    end.
    { apply list_filter_iff. intros [k v]. simpl. by case_decide. }
    apply list_fmap_ext. intros ? [k v] _. simpl. by case_decide.
  - rewrite Heq. done.
  - intros Hlast. unfold peersOf. rewrite Hpeers.
    destruct (getPeersFromAdjacencies_char (adjacencies_ st1) a)
      as (newPeers & -> & Hdom & _). simpl.
    apply eq_None_not_Some. rewrite Hdom. intros (i' & v' & Hv' & Hel').
    simpl in Hv'. destruct (decide (i' = i)) as [->|Hne].
    + rewrite lookup_alter_eq in Hv'.
      destruct (adjacencies_ st !! (n, i)) as [v|]; [|done].
      injection Hv' as <-. by destruct Hel' as [_ ?].
    + rewrite lookup_alter_ne in Hv' by congruence. by eapply Hlast.
Qed.

(** X6. A change of the measured round-trip time always completes and
    sends nothing to KvStore. When RTT metrics are in use and the
    adjacency is known, its metric becomes [getRttMetric] of the new RTT
    (at least 1) and its RTT the new value, nothing else of it changes,
    and the adjacency advertisement is scheduled; when RTT metrics are
    off, or the adjacency is not known, the state is left as it is. *)
Theorem rtt_change_updates_metric (now unixTs : Z)
    (event : SparkNeighborEvent) (st : State) :
  eventType event = NEIGHBOR_RTT_CHANGE ->
  let k := (nodeName (neighbor event), evIfName event) in
  exists st',
    processNeighborEvent now unixTs event st = Some st' /\
    kvStoreRequests st' = kvStoreRequests st /\
    peers_ st' = peers_ st /\ config_ st' = config_ st /\
    (useRttMetric_ st = false \/ adjacencies_ st !! k = None -> st' = st) /\
    (useRttMetric_ st = true ->
     forall v, adjacencies_ st !! k = Some v ->
       exists v',
         adjacencies_ st' = <[k := v']> (adjacencies_ st) /\
         metric (adjacency v') = getRttMetric (rttUs event) /\
         1 <= metric (adjacency v') /\
         rtt (adjacency v') = rttUs event /\
         otherNodeName (adjacency v') = otherNodeName (adjacency v) /\
         ifName (adjacency v') = ifName (adjacency v) /\
         peerSpec v' = peerSpec v /\ isRestarting v' = isRestarting v /\
         area v' = area v /\
         advertiseAdjacenciesThrottledActive st' = true).
Proof.
  intros Hty k. unfold processNeighborEvent. rewrite Hty. fold k.
  destruct (useRttMetric_ st) eqn:Hrtt; simpl.
  - destruct (adjacencies_ st !! k) as [v|] eqn:Hv.
    + eexists. split; [done|]. simpl. repeat split; try done.
      * by intros [|].
      * intros _ v0 [= <-]. eexists. split; [done|]. simpl.
        repeat split; try done. apply getRttMetric_ge_1.
    + exists st. repeat split; try done.
  - exists st. repeat split; try done.
Qed.

Lemma rtt_change_updates_metric_witness :
  eventType (exSparkEvent NEIGHBOR_RTT_CHANGE) = NEIGHBOR_RTT_CHANGE /\
  exists st',
    processNeighborEvent 2000 1600000000 (exSparkEvent NEIGHBOR_RTT_CHANGE)
      exLateState = Some st' /\
    (forall v, adjacencies_ st' !! ("node1", "iface1")%string = Some v ->
       metric (adjacency v) = 15).
Proof.
  assert (Hty : eventType (exSparkEvent NEIGHBOR_RTT_CHANGE)
                = NEIGHBOR_RTT_CHANGE) by reflexivity.
  split; [exact Hty|].
  destruct (rtt_change_updates_metric 2000 1600000000
              (exSparkEvent NEIGHBOR_RTT_CHANGE) exLateState Hty)
    as (st' & Hst' & _ & _ & _ & _ & Hupd).
  exists st'. split; [exact Hst'|].
  destruct (Hupd eq_refl _ eq_refl) as (v' & Hadj & Hm & _).
  intros v Hv. rewrite Hadj in Hv. rewrite lookup_insert_eq in Hv.
  injection Hv as <-. rewrite Hm. reflexivity.
Defined.


(** *** Publishing the adjacency database *)

Lemma advertiseAdjacencies_fold_late now areas : forall st,
  adjHoldUntilTimePoint_ st <= now ->
  let st' := foldl (λ s area0, advertiseAdjacencies_area now area0 s) st areas in
  kvStoreRequests st' =
    kvStoreRequests st ++ ((λ a, adjDbRequest a st) <$> areas) /\
  configStoreWrites st' =
    configStoreWrites st ++ replicate (length areas) (config_ st) /\
  advertiseAdjacenciesThrottledActive st' =
    match areas with
    | [] => advertiseAdjacenciesThrottledActive st
    | _ => false
    end /\
  nodeId_ st' = nodeId_ st /\ areas_ st' = areas_ st /\
  config_ st' = config_ st /\ adjacencies_ st' = adjacencies_ st /\
  peers_ st' = peers_ st /\ interfaces_ st' = interfaces_ st /\
  adjHoldUntilTimePoint_ st' = adjHoldUntilTimePoint_ st.
Proof.
  induction areas as [|a areas IH]; intros st Hnow; simpl.
  - rewrite !app_nil_r. by repeat split.
  - rewrite advertiseAdjacencies_area_late by done.
    set (st1 := set_throttle false _).
    destruct (IH st1) as (Hr & Hc & Ht & Hn & Ha & Hcfg & Hadj & Hp & Hi & Hh);
      [done|].
    rewrite Hr, Hc, Hn, Ha, Hcfg, Hadj, Hp, Hi, Hh. simpl.
    rewrite <- !app_assoc. simpl.
    split; [reflexivity|].
    split; [done|]. split; [|done].
    rewrite Ht. by destruct areas.
Qed.

(** X7. From the hold deadline on, [advertiseAdjacencies()] hands KvStore
    exactly one adjacency database per area, in the order of [areas_],
    each built from the state at the call and stored under the key
    [adjacencyDbMarker_ + nodeId_]; it writes the configuration to the
    config store once per area, leaves the advertisement throttle
    cancelled, and changes nothing else. This is what the hold timer does
    when it fires at or after the deadline. *)
Theorem advertiseAdjacencies_publishes (now : Z) (st : State) :
  adjHoldUntilTimePoint_ st <= now ->
  let st' := advertiseAdjacencies now st in
  kvStoreRequests st' =
    kvStoreRequests st ++ ((λ a, adjDbRequest a st) <$> areas_ st) /\
  configStoreWrites st' =
    configStoreWrites st ++ replicate (length (areas_ st)) (config_ st) /\
  (areas_ st ≠ [] -> advertiseAdjacenciesThrottledActive st' = false) /\
  config_ st' = config_ st /\ adjacencies_ st' = adjacencies_ st /\
  peers_ st' = peers_ st /\ interfaces_ st' = interfaces_ st /\
  adjHoldTimerCallback now st = set_throttle false st'.
Proof.
  intros Hnow st'.
  destruct (advertiseAdjacencies_fold_late now (areas_ st) st Hnow)
    as (Hr & Hc & Ht & _ & _ & Hcfg & Hadj & Hp & Hi & _).
  fold (advertiseAdjacencies now st) in *. fold st' in Hr, Hc, Ht, Hcfg, Hadj, Hp, Hi.
  split; [done|]. split; [done|]. split.
  { intros Hne. rewrite Ht. by destruct (areas_ st). }
  split; [done|]. split; [done|]. split; [done|]. split; [done|].
  unfold adjHoldTimerCallback. fold st'.
  destruct st' as [? ? ? ? ? ? ? ? ? ? ? ? ? th ? ?]. simpl. by destruct th.
Qed.

Lemma advertiseAdjacencies_publishes_witness :
  adjHoldUntilTimePoint_ exLateState <= 1000 /\
  kvStoreRequests (advertiseAdjacencies 1000 exLateState) =
    [adjDbRequest "0" exLateState; adjDbRequest "pod" exLateState] /\
  advertiseAdjacenciesThrottledActive (advertiseAdjacencies 1000 exLateState)
    = false.
Proof.
  assert (Hnow : adjHoldUntilTimePoint_ exLateState <= 1000) by (by vm_compute).
  pose proof (advertiseAdjacencies_publishes 1000 exLateState Hnow)
    as (Hr & _ & Ht & _).
  split; [exact Hnow|]. split; [exact Hr|]. by apply Ht.
Defined.

(** *** Operator commands on known targets *)

(** X8. [setNodeOverload] leaves the node's overload bit at the requested
    value and touches nothing else of the configuration, and a repeated
    call with the same value, at any time, changes nothing. When the call
    changes the bit at or after the hold deadline, KvStore is handed one
    adjacency database per area, each carrying the new bit. *)
Theorem setNodeOverload_sets_bit (now : Z) (b : bool) (st : State) :
  let st' := (setNodeOverload now b st).2 in
  cfgIsOverloaded (config_ st') = b /\
  overloadedLinks (config_ st') = overloadedLinks (config_ st) /\
  linkMetricOverrides (config_ st') = linkMetricOverrides (config_ st) /\
  adjMetricOverrides (config_ st') = adjMetricOverrides (config_ st) /\
  nodeLabel (config_ st') = nodeLabel (config_ st) /\
  (forall now', setNodeOverload now' b st' = (TryValue (), st')) /\
  (cfgIsOverloaded (config_ st) ≠ b -> adjHoldUntilTimePoint_ st <= now ->
   exists dbs,
     kvStoreRequests st' = kvStoreRequests st ++ dbs /\
     length dbs = length (areas_ st) /\
     forall r, r ∈ dbs ->
       exists key db ttl0 a,
         r = PersistKey key db ttl0 a /\ a ∈ areas_ st /\
         dbIsOverloaded db = b).
Proof.
  intros st'. subst st'. unfold setNodeOverload.
  case_bool_decide as Hb; simpl.
  - repeat split; try done.
    + intros now'. by rewrite bool_decide_eq_true_2.
  - set (st1 := set_config _ st).
    assert (config_ (advertiseAdjacencies now st1) = config_ st1) as Hcfg.
    { destruct (Z.lt_ge_cases now (adjHoldUntilTimePoint_ st1)) as [Hl|Hg].
      - by rewrite advertiseAdjacencies_early.
      - by apply (advertiseAdjacencies_fold_late now (areas_ st1) st1). }
    rewrite Hcfg. simpl. repeat split; try done.
    + intros now'. by rewrite bool_decide_eq_true_2.
    + intros _ Hnow.
      destruct (advertiseAdjacencies_fold_late now (areas_ st1) st1 Hnow)
        as (Hr & _).
      fold (advertiseAdjacencies now st1) in Hr.
      rewrite Hr. simpl. eexists. split; [done|].
      split; [by rewrite length_fmap|].
      intros r (a & -> & Ha)%list_elem_of_fmap.
      unfold adjDbRequest. by eexists _, _, _, _.
Qed.

Lemma setInterfaceOverload_skip i b st :
  is_Some (interfaces_ st !! i) ->
  (i ∈ overloadedLinks (config_ st) <-> b = true) ->
  setInterfaceOverload i b st = (TryValue (), st).
Proof.
  intros Hknown Hsame. unfold setInterfaceOverload.
  rewrite bool_decide_eq_false_2
    by (intros Hn; rewrite Hn in Hknown; by destruct Hknown).
  destruct b; simpl.
  - by rewrite bool_decide_eq_true_2 by (by apply Hsame).
  - rewrite bool_decide_eq_false_2; [done|]. intros Hin. by apply Hsame in Hin.
Qed.

Lemma setInterfaceOverload_change i b st :
  is_Some (interfaces_ st !! i) ->
  ~ (i ∈ overloadedLinks (config_ st) <-> b = true) ->
  setInterfaceOverload i b st =
  (TryValue (),
   advertiseAdjacenciesThrottled
     (set_config
        (mkConfig (cfgIsOverloaded (config_ st))
           (if b then overloadedLinks (config_ st) ∪ {[i]}
            else overloadedLinks (config_ st) ∖ {[i]})
           (linkMetricOverrides (config_ st)) (nodeLabel (config_ st))
           (adjMetricOverrides (config_ st))) st)).
Proof.
  intros Hknown Hdiff. unfold setInterfaceOverload.
  rewrite bool_decide_eq_false_2
    by (intros Hn; rewrite Hn in Hknown; by destruct Hknown).
  destruct b; simpl.
  - rewrite bool_decide_eq_false_2; [done|]. intros Hin. by apply Hdiff.
  - rewrite bool_decide_eq_true_2; [done|].
    destruct (decide (i ∈ overloadedLinks (config_ st))) as [Hin|Hnin]; [done|].
    exfalso. apply Hdiff. by split.
Qed.

(** X9. For an interface LinkMonitor knows, [setInterfaceOverload] leaves
    the interface in the set of overloaded links exactly when asked to
    overload it, leaves the membership of every other interface alone,
    and sends nothing to KvStore itself; when the call changes the set it
    schedules the throttled advertisement, otherwise it changes nothing.
    A repeated call changes nothing, and setting and then unsetting the
    bit of an interface that was not overloaded restores the
    configuration. *)
Theorem setInterfaceOverload_known (i : string) (b : bool) (st : State) :
  is_Some (interfaces_ st !! i) ->
  let st' := (setInterfaceOverload i b st).2 in
  (i ∈ overloadedLinks (config_ st') <-> b = true) /\
  (forall j, j ≠ i ->
     j ∈ overloadedLinks (config_ st') <-> j ∈ overloadedLinks (config_ st)) /\
  kvStoreRequests st' = kvStoreRequests st /\
  ((i ∈ overloadedLinks (config_ st) <-> b = true) -> st' = st) /\
  (~ (i ∈ overloadedLinks (config_ st) <-> b = true) ->
   advertiseAdjacenciesThrottledActive st' = true) /\
  setInterfaceOverload i b st' = (TryValue (), st') /\
  (i ∉ overloadedLinks (config_ st) ->
   config_ (setInterfaceOverload i false (setInterfaceOverload i true st).2).2
   = config_ st).
Proof.
  intros Hknown st'.
  assert (i ∈ overloadedLinks (config_ st') <-> b = true) as Hpost.
  { subst st'.
    destruct (decide (i ∈ overloadedLinks (config_ st) <-> b = true))
      as [Hsame|Hdiff].
    - by rewrite setInterfaceOverload_skip.
    - rewrite setInterfaceOverload_change by done. simpl.
      destruct b; [set_solver|]. split; [set_solver|done]. }
  assert (interfaces_ st' = interfaces_ st) as Hifs.
  { subst st'.
    destruct (decide (i ∈ overloadedLinks (config_ st) <-> b = true))
      as [Hsame|Hdiff].
    - by rewrite setInterfaceOverload_skip.
    - by rewrite setInterfaceOverload_change. }
  split; [done|]. split; [|split; [|split; [|split; [|split]]]].
  - intros j Hj. subst st'.
    destruct (decide (i ∈ overloadedLinks (config_ st) <-> b = true))
      as [Hsame|Hdiff].
    + by rewrite setInterfaceOverload_skip.
    + rewrite setInterfaceOverload_change by done. simpl.
      destruct b; set_solver.
  - subst st'.
    destruct (decide (i ∈ overloadedLinks (config_ st) <-> b = true))
      as [Hsame|Hdiff].
    + by rewrite setInterfaceOverload_skip.
    + by rewrite setInterfaceOverload_change.
  - intros Hsame. subst st'. by rewrite setInterfaceOverload_skip.
  - intros Hdiff. subst st'. by rewrite setInterfaceOverload_change.
  - apply setInterfaceOverload_skip; [by rewrite Hifs|done].
  - intros Hnin.
    rewrite (setInterfaceOverload_change i true st);
      [|done|by intros [_ Hin]; apply Hnin, Hin].
    simpl. rewrite setInterfaceOverload_change; simpl.
    + destruct (config_ st) as [o links lm nl am]. simpl in *. f_equal.
      apply set_eq. set_solver.
    + done.
    + intros [Hin _]. assert (false = true) by (apply Hin; set_solver). done.
Qed.

Lemma setInterfaceOverload_known_witness :
  is_Some (interfaces_ exState !! "iface1"%string) /\
  ("iface1"%string
     ∈ overloadedLinks (config_ (setInterfaceOverload "iface1" true exState).2)
   <-> true = true) /\
  kvStoreRequests (setInterfaceOverload "iface1" true exState).2
    = kvStoreRequests exState.
Proof.
  assert (Hk : is_Some (interfaces_ exState !! "iface1"%string))
    by (by eexists).
  pose proof (setInterfaceOverload_known "iface1" true exState Hk)
    as (H1 & _ & H3 & _).
  split; [exact Hk|]. split; [exact H1|exact H3].
Defined.


(** The override map after a command that sets ([Some]) or removes
    ([None]) the override of key [k]. *)
Lemma lookup_override `{Countable K} (m : gmap K Z) (k j : K) (om : option Z) :
  match om with Some x => <[k := x]> m | None => delete k m end !! j
  = if decide (j = k) then om else m !! j.
Proof.
  destruct om; case_decide; subst;
    by rewrite ?lookup_insert_eq, ?lookup_delete_eq, ?lookup_insert_ne,
               ?lookup_delete_ne.
Qed.

Lemma setLinkMetric_skip i om st :
  is_Some (interfaces_ st !! i) ->
  linkMetricOverrides (config_ st) !! i = om ->
  setLinkMetric i om st = (TryValue (), st).
Proof.
  intros Hknown Hsame. unfold setLinkMetric.
  rewrite bool_decide_eq_false_2
    by (intros Hn; rewrite Hn in Hknown; by destruct Hknown).
  rewrite Hsame. destruct om; [|done]. by rewrite bool_decide_eq_true_2.
Qed.

Lemma setLinkMetric_change i om st :
  is_Some (interfaces_ st !! i) ->
  linkMetricOverrides (config_ st) !! i ≠ om ->
  setLinkMetric i om st =
  (TryValue (),
   advertiseAdjacenciesThrottled
     (set_config
        (mkConfig (cfgIsOverloaded (config_ st)) (overloadedLinks (config_ st))
           (match om with
            | Some m => <[i := m]> (linkMetricOverrides (config_ st))
            | None => delete i (linkMetricOverrides (config_ st))
            end)
           (nodeLabel (config_ st)) (adjMetricOverrides (config_ st))) st)).
Proof.
  intros Hknown Hdiff. unfold setLinkMetric.
  rewrite bool_decide_eq_false_2
    by (intros Hn; rewrite Hn in Hknown; by destruct Hknown).
  destruct om as [m|], (linkMetricOverrides (config_ st) !! i) as [cur|];
    try done.
  rewrite bool_decide_eq_false_2; [done|]. congruence.
Qed.

(** X10. For an interface LinkMonitor knows, [setLinkMetric] leaves the
    metric override of the interface at exactly what was asked for (the
    given metric, or none), leaves the overrides of all other interfaces
    and the rest of the configuration alone, and sends nothing to KvStore
    itself; when the call changes the override it schedules the throttled
    advertisement, otherwise it changes nothing. A repeated call changes
    nothing, and setting and then removing the override of an interface
    that had none restores the configuration. *)
Theorem setLinkMetric_known (i : string) (om : option Z) (m : Z)
    (st : State) :
  is_Some (interfaces_ st !! i) ->
  let st' := (setLinkMetric i om st).2 in
  linkMetricOverrides (config_ st') !! i = om /\
  (forall j, j ≠ i ->
     linkMetricOverrides (config_ st') !! j
     = linkMetricOverrides (config_ st) !! j) /\
  cfgIsOverloaded (config_ st') = cfgIsOverloaded (config_ st) /\
  overloadedLinks (config_ st') = overloadedLinks (config_ st) /\
  adjMetricOverrides (config_ st') = adjMetricOverrides (config_ st) /\
  nodeLabel (config_ st') = nodeLabel (config_ st) /\
  kvStoreRequests st' = kvStoreRequests st /\
  (linkMetricOverrides (config_ st) !! i = om -> st' = st) /\
  (linkMetricOverrides (config_ st) !! i ≠ om ->
   advertiseAdjacenciesThrottledActive st' = true) /\
  setLinkMetric i om st' = (TryValue (), st') /\
  (linkMetricOverrides (config_ st) !! i = None ->
   config_ (setLinkMetric i None (setLinkMetric i (Some m) st).2).2
   = config_ st).
Proof.
  intros Hknown st'.
  destruct (decide (linkMetricOverrides (config_ st) !! i = om))
    as [Hsame|Hdiff];
    [assert (st' = st) as Heq by (subst st'; by rewrite setLinkMetric_skip)
    |pose proof (setLinkMetric_change i om st Hknown Hdiff) as Hch].
  - rewrite Heq. repeat split; try done.
    + by apply setLinkMetric_skip.
    + intros Hnone.
      rewrite (setLinkMetric_change i (Some m) st) by (done || congruence).
      simpl. rewrite setLinkMetric_change; simpl;
        [|done|by rewrite lookup_insert_eq].
      destruct (config_ st) as [o links lm nl am]. simpl in *. f_equal.
      by rewrite delete_insert_id.
  - subst st'. rewrite Hch. simpl.
    split; [by rewrite lookup_override, decide_True|].
    split; [intros j Hj; by rewrite lookup_override, decide_False|].
    repeat split; try done.
    + apply setLinkMetric_skip; [done|]. simpl.
      by rewrite lookup_override, decide_True.
    + intros Hnone.
      rewrite (setLinkMetric_change i (Some m) st) by (done || congruence).
      simpl. rewrite setLinkMetric_change; simpl;
        [|done|by rewrite lookup_insert_eq].
      destruct (config_ st) as [o links lm nl am]. simpl in *. f_equal.
      by rewrite delete_insert_id.
Qed.

Lemma setLinkMetric_known_witness :
  is_Some (interfaces_ exState !! "iface1"%string) /\
  linkMetricOverrides (config_ (setLinkMetric "iface1" (Some 7) exState).2)
    !! "iface1"%string = Some 7 /\
  config_ (setLinkMetric "iface1" None
             (setLinkMetric "iface1" (Some 7) exState).2).2
    = config_ exState.
Proof.
  assert (Hk : is_Some (interfaces_ exState !! "iface1"%string))
    by (by eexists).
  pose proof (setLinkMetric_known "iface1" (Some 7) 7 exState Hk)
    as (H1 & _ & _ & _ & _ & _ & _ & _ & _ & _ & H11).
  split; [exact Hk|]. split; [exact H1|]. apply H11. reflexivity.
Defined.

Lemma setAdjacencyMetric_skip i n om st :
  is_Some (adjacencies_ st !! (n, i)) ->
  adjMetricOverrides (config_ st) !! (n, i) = om ->
  setAdjacencyMetric i n om st = (TryValue (), st).
Proof.
  intros Hknown Hsame. unfold setAdjacencyMetric.
  rewrite bool_decide_eq_false_2
    by (intros Hn; rewrite Hn in Hknown; by destruct Hknown).
  rewrite Hsame. destruct om; [|done]. by rewrite bool_decide_eq_true_2.
Qed.

Lemma setAdjacencyMetric_change i n om st :
  is_Some (adjacencies_ st !! (n, i)) ->
  adjMetricOverrides (config_ st) !! (n, i) ≠ om ->
  setAdjacencyMetric i n om st =
  (TryValue (),
   advertiseAdjacenciesThrottled
     (set_config
        (mkConfig (cfgIsOverloaded (config_ st)) (overloadedLinks (config_ st))
           (linkMetricOverrides (config_ st)) (nodeLabel (config_ st))
           (match om with
            | Some m => <[(n, i) := m]> (adjMetricOverrides (config_ st))
            | None => delete (n, i) (adjMetricOverrides (config_ st))
            end)) st)).
Proof.
  intros Hknown Hdiff. unfold setAdjacencyMetric.
  rewrite bool_decide_eq_false_2
    by (intros Hn; rewrite Hn in Hknown; by destruct Hknown).
  destruct om as [m|], (adjMetricOverrides (config_ st) !! (n, i)) as [cur|];
    try done.
  rewrite bool_decide_eq_false_2; [done|]. congruence.
Qed.

(** X11. For an adjacency LinkMonitor knows, [setAdjacencyMetric] leaves the
    metric override of that (neighbor, interface) pair at exactly what was
    asked for (the given metric, or none), leaves the overrides of all
    other adjacencies and the rest of the configuration alone, and sends
    nothing to KvStore itself; when the call changes the override it
    schedules the throttled advertisement, otherwise it changes nothing.
    A repeated call changes nothing, and setting and then removing the
    override of an adjacency that had none restores the configuration. *)
Theorem setAdjacencyMetric_known (i n : string) (om : option Z) (m : Z)
    (st : State) :
  is_Some (adjacencies_ st !! (n, i)) ->
  let st' := (setAdjacencyMetric i n om st).2 in
  adjMetricOverrides (config_ st') !! (n, i) = om /\
  (forall k, k ≠ (n, i) ->
     adjMetricOverrides (config_ st') !! k
     = adjMetricOverrides (config_ st) !! k) /\
  cfgIsOverloaded (config_ st') = cfgIsOverloaded (config_ st) /\
  overloadedLinks (config_ st') = overloadedLinks (config_ st) /\
  linkMetricOverrides (config_ st') = linkMetricOverrides (config_ st) /\
  nodeLabel (config_ st') = nodeLabel (config_ st) /\
  kvStoreRequests st' = kvStoreRequests st /\
  (adjMetricOverrides (config_ st) !! (n, i) = om -> st' = st) /\
  (adjMetricOverrides (config_ st) !! (n, i) ≠ om ->
   advertiseAdjacenciesThrottledActive st' = true) /\
  setAdjacencyMetric i n om st' = (TryValue (), st') /\
  (adjMetricOverrides (config_ st) !! (n, i) = None ->
   config_ (setAdjacencyMetric i n None
              (setAdjacencyMetric i n (Some m) st).2).2
   = config_ st).
Proof.
  intros Hknown st'.
  destruct (decide (adjMetricOverrides (config_ st) !! (n, i) = om))
    as [Hsame|Hdiff];
    [assert (st' = st) as Heq
       by (subst st'; by rewrite setAdjacencyMetric_skip)
    |pose proof (setAdjacencyMetric_change i n om st Hknown Hdiff) as Hch].
  - rewrite Heq. repeat split; try done.
    + by apply setAdjacencyMetric_skip.
    + intros Hnone.
      rewrite (setAdjacencyMetric_change i n (Some m) st)
        by (done || congruence).
      simpl. rewrite setAdjacencyMetric_change; simpl;
        [|done|by rewrite lookup_insert_eq].
      destruct (config_ st) as [o links lm nl am]. simpl in *. f_equal.
      by rewrite delete_insert_id.
  - subst st'. rewrite Hch. simpl.
    split; [by rewrite lookup_override, decide_True|].
    split; [intros j Hj; by rewrite lookup_override, decide_False|].
    repeat split; try done.
    + apply setAdjacencyMetric_skip; [done|]. simpl.
      by rewrite lookup_override, decide_True.
    + intros Hnone.
      rewrite (setAdjacencyMetric_change i n (Some m) st)
        by (done || congruence).
      simpl. rewrite setAdjacencyMetric_change; simpl;
        [|done|by rewrite lookup_insert_eq].
      destruct (config_ st) as [o links lm nl am]. simpl in *. f_equal.
      by rewrite delete_insert_id.
Qed.

Lemma setAdjacencyMetric_known_witness :
  is_Some (adjacencies_ exState !! ("node1", "iface1")%string) /\
  adjMetricOverrides
    (config_ (setAdjacencyMetric "iface1" "node1" (Some 9) exState).2)
    !! ("node1", "iface1")%string = Some 9 /\
  setAdjacencyMetric "iface1" "node1" (Some 9)
    (setAdjacencyMetric "iface1" "node1" (Some 9) exState).2
  = (TryValue (), (setAdjacencyMetric "iface1" "node1" (Some 9) exState).2).
Proof.
  assert (Hk : is_Some (adjacencies_ exState !! ("node1", "iface1")%string))
    by (by eexists).
  pose proof (setAdjacencyMetric_known "iface1" "node1" (Some 9) 9 exState Hk)
    as (H1 & _ & _ & _ & _ & _ & _ & _ & _ & H10 & _).
  split; [exact Hk|]. split; [exact H1|exact H10].
Defined.


(** *** What every handler keeps *)

(** An adjacency advertisement, whenever it runs, only appends adjacency
    databases to the requests and may cancel the throttle. *)
Lemma advertiseAdjacencies_area_frame now area0 st :
  let st' := advertiseAdjacencies_area now area0 st in
  adjacencies_ st' = adjacencies_ st /\ peers_ st' = peers_ st /\
  config_ st' = config_ st /\ interfaces_ st' = interfaces_ st /\
  areas_ st' = areas_ st /\
  exists tail, kvStoreRequests st' = kvStoreRequests st ++ tail /\
    Forall (λ r, isPersistKey r = true) tail.
Proof.
  unfold advertiseAdjacencies_area. destruct (now <? _); simpl.
  - repeat split. exists []. by rewrite app_nil_r.
  - destruct (advertiseAdjacenciesThrottledActive st); simpl;
      repeat split; eexists; (split; [done|]); by repeat constructor.
Qed.

Lemma advertiseAdjacencies_fold_frame now areas : forall st,
  let st' := foldl (λ s area0, advertiseAdjacencies_area now area0 s) st areas in
  adjacencies_ st' = adjacencies_ st /\ peers_ st' = peers_ st /\
  config_ st' = config_ st /\ interfaces_ st' = interfaces_ st /\
  areas_ st' = areas_ st /\
  exists tail, kvStoreRequests st' = kvStoreRequests st ++ tail /\
    Forall (λ r, isPersistKey r = true) tail.
Proof.
  induction areas as [|a areas IH]; intros st; simpl.
  - repeat split. exists []. by rewrite app_nil_r.
  - destruct (advertiseAdjacencies_area_frame now a st)
      as (Ha & Hp & Hc & Hi & Har & tail1 & Hr1 & Ht1).
    destruct (IH (advertiseAdjacencies_area now a st))
      as (Ha' & Hp' & Hc' & Hi' & Har' & tail2 & Hr2 & Ht2).
    simpl in *. rewrite Ha', Hp', Hc', Hi', Har', Hr2, Hr1.
    repeat split; try done.
    exists (tail1 ++ tail2). rewrite app_assoc. split; [done|].
    by apply Forall_app.
Qed.

Lemma advertiseAdjacencies_frame now st :
  let st' := advertiseAdjacencies now st in
  adjacencies_ st' = adjacencies_ st /\ peers_ st' = peers_ st /\
  config_ st' = config_ st /\ interfaces_ st' = interfaces_ st /\
  areas_ st' = areas_ st /\
  exists tail, kvStoreRequests st' = kvStoreRequests st ++ tail /\
    Forall (λ r, isPersistKey r = true) tail.
Proof. apply advertiseAdjacencies_fold_frame. Qed.

Lemma neighborUpEvent_decompose unixTs event st st' :
  neighborUpEvent unixTs event st = Some st' ->
  exists v st2,
    otherNodeName (adjacency v) = nodeName (neighbor event) /\
    ifName (adjacency v) = evIfName event /\
    isRestarting v = false /\ area v = evArea event /\
    advertiseKvStorePeers_area (evArea event)
      {[ nodeName (neighbor event) := peerSpec v ]}
      (set_adjacencies
         (<[(nodeName (neighbor event), evIfName event) := v]>
            (adjacencies_ st)) st)
    = Some st2 /\
    st' = advertiseAdjacenciesThrottled st2.
Proof.
  unfold neighborUpEvent.
  destruct (if negb (mockMode_ st) then _ else _) as [pubUrl0 repUrl].
  destruct (advertiseKvStorePeers_area _ _ _) as [st2|] eqn:Hst2; [|done].
  simpl. intros [= <-].
  match type of Hst2 with
  | context [<[ _ := ?v0 ]> _] => exists v0, st2
  end.
  by repeat split.
Qed.

(** The set commands never touch the adjacencies, the peers or the
    requests. *)
Lemma set_commands_frame st :
  (forall i b, let st' := (setInterfaceOverload i b st).2 in
     adjacencies_ st' = adjacencies_ st /\ peers_ st' = peers_ st /\
     kvStoreRequests st' = kvStoreRequests st) /\
  (forall i om, let st' := (setLinkMetric i om st).2 in
     adjacencies_ st' = adjacencies_ st /\ peers_ st' = peers_ st /\
     kvStoreRequests st' = kvStoreRequests st) /\
  (forall i n om, let st' := (setAdjacencyMetric i n om st).2 in
     adjacencies_ st' = adjacencies_ st /\ peers_ st' = peers_ st /\
     kvStoreRequests st' = kvStoreRequests st).
Proof.
  split; [|split].
  - intros i b. unfold setInterfaceOverload.
    repeat (case_bool_decide || destruct b); simpl; by repeat split.
  - intros i om. unfold setLinkMetric. case_bool_decide; [by repeat split|].
    destruct om, (linkMetricOverrides (config_ st) !! i);
      try case_bool_decide; simpl; by repeat split.
  - intros i n om. unfold setAdjacencyMetric.
    case_bool_decide; [by repeat split|].
    destruct om, (adjMetricOverrides (config_ st) !! (n, i));
      try case_bool_decide; simpl; by repeat split.
Qed.

Lemma handle_keys_consistent now ev st st' :
  adjacency_keys_consistent st -> handle now ev st = Some st' ->
  adjacency_keys_consistent st'.
Proof.
  intros Hk.
  assert (forall s, adjacencies_ s = adjacencies_ st ->
            adjacency_keys_consistent s) as Hsame.
  { intros s Hs n i v. rewrite Hs. apply Hk. }
  destruct ev as [unixTs event| | |newVal|b|i b|i m|i n m]; simpl.
  - unfold processNeighborEvent.
    assert (neighborUpEvent unixTs event st = Some st' ->
            adjacency_keys_consistent st') as Hup.
    { intros Hst'.
      destruct (neighborUpEvent_decompose _ _ _ _ Hst')
        as (v & st2 & Hn & Hi & _ & _ & Hst2 & ->).
      apply advertiseKvStorePeers_area_frame in Hst2 as (Hadj & _).
      intros n i v'. simpl. rewrite Hadj. simpl. intros Hv'.
      apply lookup_insert_Some in Hv' as [[[= <- <-] <-]|[_ Hv']]; [done|].
      by apply Hk. }
    destruct (eventType event); try done.
    + unfold neighborDownEvent.
      destruct (advertiseKvStorePeers_area _ _ _) as [st2|] eqn:Hst2; [|done].
      simpl. intros [= <-].
      apply advertiseKvStorePeers_area_frame in Hst2 as (Hadj & _).
      destruct (advertiseAdjacencies_area_frame now (evArea event) st2)
        as (Hadj' & _).
      intros n i v. rewrite Hadj', Hadj. simpl.
      intros [_ Hv]%lookup_delete_Some. by apply Hk.
    + destruct (negb (useRttMetric_ st)); [by intros [= <-]|].
      destruct (adjacencies_ st !! _) as [v0|] eqn:Hv0; intros [= <-]; [|done].
      intros n i v. simpl. intros Hv.
      apply lookup_insert_Some in Hv as [[[= <- <-] <-]|[_ Hv]];
        [|by apply Hk].
      simpl. by apply Hk in Hv0.
    + unfold neighborRestartingEvent. intros Hst'.
      apply advertiseKvStorePeers_area_frame in Hst' as (Hadj & _).
      intros n i v. rewrite Hadj. simpl. rewrite lookup_alter.
      case_decide as Heq.
      * destruct (adjacencies_ st !! _) as [v0|] eqn:Hv0; [|done].
        simpl. intros [= <-]. simpl. injection Heq as <- <-. by apply Hk.
      * apply Hk.
  - unfold throttleCallback, advertiseKvStorePeers.
    destruct (foldl _ _ _) as [st1|] eqn:Hst1; [|done]. simpl.
    intros [= <-].
    apply advertiseKvStorePeers_fold_settles in Hst1 as (Hadj & _).
    apply Hsame.
    destruct (advertiseAdjacencies_frame now st1) as (-> & _). done.
  - intros [= <-]. apply Hsame. unfold adjHoldTimerCallback.
    destruct (advertiseAdjacencies_frame now st) as (Ha & _).
    by destruct (advertiseAdjacenciesThrottledActive _).
  - intros [= <-]. apply Hsame. unfold nodeLabelCallback.
    by destruct (advertiseAdjacencies_frame now (set_config
      (mkConfig (cfgIsOverloaded (config_ st)) (overloadedLinks (config_ st))
         (linkMetricOverrides (config_ st)) (default 0 newVal)
         (adjMetricOverrides (config_ st))) st)) as (-> & _).
  - intros [= <-]. apply Hsame. unfold setNodeOverload.
    case_bool_decide; [done|]. simpl.
    by destruct (advertiseAdjacencies_frame now (set_config
      (mkConfig b (overloadedLinks (config_ st))
         (linkMetricOverrides (config_ st)) (nodeLabel (config_ st))
         (adjMetricOverrides (config_ st))) st)) as (-> & _).
  - intros [= <-]. apply Hsame. apply set_commands_frame.
  - intros [= <-]. apply Hsame. apply set_commands_frame.
  - intros [= <-]. apply Hsame. apply set_commands_frame.
Qed.

(** X12. Along every run of the event loop each adjacency stays stored
    under the neighbor name and the local interface name it carries: if
    this holds of the adjacencies at the start (as it does of the empty
    map LinkMonitor starts with), it holds at the end. The per-adjacency
    metric override, which [advertiseAdjacencies] looks up by the names in
    the adjacency, is therefore the one the operator set for the key.
    (The runs are those against a KvStore client that accepts the peer
    requests; a run that completes against another client is one of
    them.) *)
Theorem adjacency_keys_invariant (evs : list (Z * Event)) (st st' : State) :
  adjacency_keys_consistent st -> run evs st = Some st' ->
  adjacency_keys_consistent st'.
Proof.
  revert st. induction evs as [|[now ev] evs IH]; simpl; intros st Hk.
  - by intros [= <-].
  - destruct (handle now ev st) as [st1|] eqn:Hst1; [|done]. simpl.
    apply IH. by eapply handle_keys_consistent.
Qed.

Lemma adjacency_keys_invariant_witness :
  adjacency_keys_consistent exState /\
  exists st', run exEarlyEvents exState = Some st' /\
    adjacency_keys_consistent st'.
Proof.
  assert (Hk : adjacency_keys_consistent exState).
  { intros n i v Hv. unfold exState in Hv. simpl in Hv.
    apply lookup_singleton_Some in Hv as [[= <- <-] <-]. done. }
  split; [exact Hk|].
  destruct (run exEarlyEvents exState) as [st'|] eqn:Hrun.
  - exists st'. split; [done|].
    exact (adjacency_keys_invariant exEarlyEvents exState st' Hk Hrun).
  - exfalso. by vm_compute in Hrun.
Defined.


(** *** KvStore's view of the peers *)

Lemma replayPeers_app area0 reqs tail :
  replayPeers area0 (reqs ++ tail) =
  foldl (λ cur r,
           match r with
           | DelPeers names a =>
               if decide (a = area0) then foldr delete cur names else cur
           | AddPeers ps a => if decide (a = area0) then ps ∪ cur else cur
           | PersistKey _ _ _ _ => cur
           end) (replayPeers area0 reqs) tail.
Proof. unfold replayPeers. by rewrite foldl_app. Qed.

Lemma replayPeers_persist area0 reqs tail :
  Forall (λ r, isPersistKey r = true) tail ->
  replayPeers area0 (reqs ++ tail) = replayPeers area0 reqs.
Proof.
  intros Htail. rewrite replayPeers_app.
  generalize (replayPeers area0 reqs) as cur.
  induction Htail as [|r tail Hr _ IH]; intros cur; simpl; [done|].
  destruct r; try done; apply IH.
Qed.

Lemma lookup_foldr_delete_list {A} (m : gmap string A) (l : list string) n :
  foldr delete m l !! n = if decide (n ∈ l) then None else m !! n.
Proof.
  induction l as [|x l IH]; simpl.
  - destruct (decide (n ∈ [])) as [Hin|]; [|done]. by apply elem_of_nil in Hin.
  - destruct (decide (n = x)) as [->|Hne].
    + rewrite lookup_delete_eq.
      destruct (decide (x ∈ x :: l)) as [|Hnin]; [done|]. destruct Hnin. by left.
    + rewrite lookup_delete_ne, IH by done.
      destruct (decide (n ∈ l)) as [Hin|Hnin];
        destruct (decide (n ∈ x :: l)) as [Hin'|Hnin']; try done.
      * destruct Hnin'. by right.
      * apply elem_of_cons in Hin' as [?|?]; done.
Qed.

Lemma peers_in_sync_ext st st' tail :
  peers_ st' = peers_ st ->
  kvStoreRequests st' = kvStoreRequests st ++ tail ->
  Forall (λ r, isPersistKey r = true) tail ->
  peers_in_sync st -> peers_in_sync st'.
Proof.
  intros Hp Hr Htail Hsync a. unfold peersOf.
  rewrite Hr, Hp, replayPeers_persist by done. apply Hsync.
Qed.

Lemma advertiseKvStorePeers_area_sync area0 up st st' :
  advertiseKvStorePeers_area area0 up st = Some st' ->
  peers_in_sync st -> peers_in_sync st'.
Proof.
  unfold peers_in_sync. intros Hadv Hsync a.
  destruct (advertiseKvStorePeers_area_requests _ _ _ _ Hadv)
    as (newPeers & toDel & toAdd & _ & Hpeers & Hdel & Hadd & _ & Hreqs & _).
  rewrite Hreqs, replayPeers_app, Hsync. unfold peersOf at 2. rewrite Hpeers.
  destruct (decide (area0 = a)) as [->|Hne].
  - rewrite lookup_insert_eq. simpl.
    assert (toAdd ∪ foldr delete (peersOf a st) toDel = newPeers) as Hgoal.
    { apply map_eq. intros n. rewrite lookup_union, lookup_foldr_delete_list.
      destruct (newPeers !! n) as [s|] eqn:Hn.
      - rewrite decide_False by (intros [_ ?]%Hdel; congruence).
        destruct (toAdd !! n) as [s'|] eqn:Hs'.
        + apply Hadd in Hs' as [Hs' _]. rewrite Hn in Hs'.
          injection Hs' as <-. by destruct (peersOf a st !! n).
        + destruct (decide (peersOf a st !! n = Some s)) as [->|Hd]; [done|].
          assert (toAdd !! n = Some s) by (apply Hadd; eauto). congruence.
      - assert (toAdd !! n = None) as ->.
        { apply eq_None_not_Some. intros [s' Hs']. apply Hadd in Hs' as [? _].
          congruence. }
        destruct (decide (n ∈ toDel)) as [Hin|Hin]; [reflexivity|].
        destruct (peersOf a st !! n) as [s0|] eqn:Ho; [|reflexivity].
        destruct Hin. apply Hdel. by split; [eexists|]. }
    destruct toDel as [|n0 toDel]; destruct (decide (toAdd = ∅)) as [He|He];
      simpl; rewrite ?decide_True by done; subst; simpl in *.
    + by rewrite (left_id_L ∅ (∪)).
    + done.
    + by rewrite (left_id_L ∅ (∪)).
    + done.
  - rewrite lookup_insert_ne by done. fold (peersOf a st).
    destruct toDel as [|n0 toDel]; destruct (decide (toAdd = ∅));
      simpl; by rewrite ?decide_False by done.
Qed.

Lemma advertiseKvStorePeers_fold_sync up areas : forall st st',
  foldl (λ acc area0, st1 ← acc; advertiseKvStorePeers_area area0 up st1)
        (Some st) areas = Some st' ->
  peers_in_sync st -> peers_in_sync st'.
Proof.
  induction areas as [|a0 areas IH]; simpl; intros st st' H Hsync.
  - by injection H as <-.
  - destruct (advertiseKvStorePeers_area a0 up st) as [st1|] eqn:Hst1.
    + eapply IH; [done|]. by eapply advertiseKvStorePeers_area_sync.
    + exfalso. clear -H. induction areas as [|b areas IH]; simpl in *; eauto.
      done.
Qed.

Lemma handle_peers_in_sync now ev st st' :
  peers_in_sync st -> handle now ev st = Some st' -> peers_in_sync st'.
Proof.
  intros Hsync.
  assert (forall s, peers_ s = peers_ st ->
            kvStoreRequests s = kvStoreRequests st ->
            peers_in_sync s) as Hsame.
  { intros s Hp Hr. apply (peers_in_sync_ext st s []); try done.
    by rewrite app_nil_r. }
  assert (forall s s', peers_in_sync s -> s' = advertiseAdjacencies now s ->
            peers_in_sync s') as Hadv.
  { intros s s' Hs ->.
    destruct (advertiseAdjacencies_frame now s)
      as (_ & Hp & _ & _ & _ & tail & Hr & Htail).
    by eapply peers_in_sync_ext. }
  destruct ev as [unixTs event| | |newVal|b|i b|i m|i n m]; simpl.
  - unfold processNeighborEvent.
    assert (neighborUpEvent unixTs event st = Some st' ->
            peers_in_sync st') as Hup.
    { intros Hst'.
      destruct (neighborUpEvent_decompose _ _ _ _ Hst')
        as (v & st2 & _ & _ & _ & _ & Hst2 & ->).
      eapply advertiseKvStorePeers_area_sync in Hst2; [|exact Hsync].
      exact Hst2. }
    destruct (eventType event); try done.
    + unfold neighborDownEvent.
      destruct (advertiseKvStorePeers_area _ _ _) as [st2|] eqn:Hst2; [|done].
      simpl. intros [= <-].
      eapply advertiseKvStorePeers_area_sync in Hst2; [|exact Hsync].
      destruct (advertiseAdjacencies_area_frame now (evArea event) st2)
        as (_ & Hp & _ & _ & _ & tail & Hr & Htail).
      by eapply peers_in_sync_ext.
    + destruct (negb (useRttMetric_ st)); [by intros [= <-]|].
      destruct (adjacencies_ st !! _); intros [= <-]; [|done].
      by apply Hsame.
    + unfold neighborRestartingEvent. intros Hst'.
      eapply advertiseKvStorePeers_area_sync in Hst'; [|exact Hsync].
      exact Hst'.
  - unfold throttleCallback, advertiseKvStorePeers.
    destruct (foldl _ _ _) as [st1|] eqn:Hst1; [|done]. simpl.
    intros [= <-]. eapply Hadv; [|done].
    eapply advertiseKvStorePeers_fold_sync; [done|]. by apply Hsame.
  - intros [= <-]. unfold adjHoldTimerCallback.
    assert (peers_in_sync (advertiseAdjacencies now st)) as Hs
      by (by eapply Hadv).
    destruct (advertiseAdjacenciesThrottledActive _); [|done].
    intros a. apply Hs.
  - intros [= <-]. unfold nodeLabelCallback. eapply Hadv; [|done].
    by apply Hsame.
  - intros [= <-]. unfold setNodeOverload.
    case_bool_decide; [done|]. simpl. eapply Hadv; [|done]. by apply Hsame.
  - intros [= <-]. apply Hsame; apply set_commands_frame.
  - intros [= <-]. apply Hsame; apply set_commands_frame.
  - intros [= <-]. apply Hsame; apply set_commands_frame.
Qed.

(** X13. KvStore's peers mirror the peer map of LinkMonitor. Take the peers
    KvStore holds for an area to be what the requests sent so far leave
    there, a [DelPeers] removing the named peers and an [AddPeers] adding
    or replacing the given ones. If this agrees with [peers_] for every
    area at the start of a run of the event loop (as it does when
    LinkMonitor starts, with no peers and no requests), it agrees at the
    end, whatever neighbor events, timers and operator commands the run
    consists of. (The runs are those against a KvStore client that
    accepts the peer requests; a run that completes against another
    client is one of them.) *)
Theorem kvstore_peers_in_sync (evs : list (Z * Event)) (st st' : State) :
  peers_in_sync st -> run evs st = Some st' -> peers_in_sync st'.
Proof.
  revert st. induction evs as [|[now ev] evs IH]; simpl; intros st Hs.
  - by intros [= <-].
  - destruct (handle now ev st) as [st1|] eqn:Hst1; [|done]. simpl.
    apply IH. by eapply handle_peers_in_sync.
Qed.

Lemma kvstore_peers_in_sync_witness :
  peers_in_sync exState /\
  exists st', run exEarlyEvents exState = Some st' /\ peers_in_sync st' /\
    kvStoreRequests st' =
      [AddPeers {[ "node1"%string := exPeerSpec "iface1" ]} "0";
       DelPeers ["node1"%string] "0"].
Proof.
  assert (Hs : peers_in_sync exState).
  { intros a. reflexivity. }
  split; [exact Hs|].
  destruct (run exEarlyEvents exState) as [st'|] eqn:Hrun.
  - exists st'. split; [done|].
    split; [exact (kvstore_peers_in_sync exEarlyEvents exState st' Hs Hrun)|].
    vm_compute in Hrun. injection Hrun as <-. reflexivity.
  - exfalso. by vm_compute in Hrun.
Defined.


(** *** Queries *)

Lemma elem_of_getLinkMonitorAdjacencies defaultArea st adj :
  adj ∈ adjacencies (getLinkMonitorAdjacencies defaultArea st) <->
  exists k v, adjacencies_ st !! k = Some v /\ adj = reported st v.
Proof.
  unfold getLinkMonitorAdjacencies, reported. simpl.
  rewrite list_elem_of_In, in_map_iff. split.
  - intros ([k v] & <- & Hin). apply list_elem_of_In in Hin.
    apply elem_of_map_to_list in Hin. by eauto.
  - intros (k & v & Hv & ->). exists (k, v). split; [done|].
    by apply list_elem_of_In, elem_of_map_to_list.
Qed.

(** X14. The adjacency dump handed to the operator
    ([getLinkMonitorAdjacencies]) agrees with what LinkMonitor
    advertises: it carries the node name, overload bit and node label of
    the advertised databases, has one entry per stored adjacency, and an
    adjacency is in the dump exactly when it is in the adjacency database
    built for some area, with the same overrides applied. *)
Theorem getLinkMonitorAdjacencies_covers (defaultArea : string)
    (st : State) :
  let dump := getLinkMonitorAdjacencies defaultArea st in
  (forall a,
     thisNodeName dump = thisNodeName (buildAdjacencyDatabase a st) /\
     dbIsOverloaded dump = dbIsOverloaded (buildAdjacencyDatabase a st) /\
     dbNodeLabel dump = dbNodeLabel (buildAdjacencyDatabase a st)) /\
  length (adjacencies dump) = size (adjacencies_ st) /\
  (forall adj,
     adj ∈ adjacencies dump <->
     exists a, adj ∈ adjacencies (buildAdjacencyDatabase a st)).
Proof.
  intros dump. split; [done|]. split.
  - subst dump. unfold getLinkMonitorAdjacencies. simpl.
    by rewrite length_map, length_map_to_list.
  - intros adj. subst dump.
    rewrite elem_of_getLinkMonitorAdjacencies. split.
    + intros (k & v & Hv & ->). exists (area v).
      apply elem_of_buildAdjacencyDatabase. by eauto.
    + intros (a & (k & v & Hv & _ & ->)%elem_of_buildAdjacencyDatabase).
      by eauto.
Qed.

Lemma setAdjacencyMetric_post i n om st :
  is_Some (adjacencies_ st !! (n, i)) ->
  adjMetricOverrides (config_ (setAdjacencyMetric i n om st).2) !! (n, i) = om.
Proof.
  intros Hknown.
  destruct (decide (adjMetricOverrides (config_ st) !! (n, i) = om)).
  - by rewrite setAdjacencyMetric_skip.
  - rewrite setAdjacencyMetric_change by done. simpl.
    by rewrite lookup_override, decide_True.
Qed.

Lemma setLinkMetric_post i om st :
  is_Some (interfaces_ st !! i) ->
  linkMetricOverrides (config_ (setLinkMetric i om st).2) !! i = om /\
  adjMetricOverrides (config_ (setLinkMetric i om st).2)
    = adjMetricOverrides (config_ st).
Proof.
  intros Hknown.
  destruct (decide (linkMetricOverrides (config_ st) !! i = om)).
  - by rewrite setLinkMetric_skip.
  - rewrite setLinkMetric_change by done. simpl.
    by rewrite lookup_override, decide_True.
Qed.

Lemma setInterfaceOverload_post i b st :
  is_Some (interfaces_ st !! i) ->
  i ∈ overloadedLinks (config_ (setInterfaceOverload i b st).2) <-> b = true.
Proof.
  intros Hknown.
  destruct (decide (i ∈ overloadedLinks (config_ st) <-> b = true))
    as [Hsame|Hdiff].
  - by rewrite setInterfaceOverload_skip.
  - rewrite setInterfaceOverload_change by done. simpl.
    destruct b; [set_solver|]. split; [set_solver|done].
Qed.

(** X15. What the operator sets is what LinkMonitor reports. For an
    adjacency stored under the names it carries: after
    [setAdjacencyMetric] with a metric, the adjacency is reported with
    that metric; after [setLinkMetric] on its interface it is reported
    with the link metric unless the adjacency has an override of its own,
    which takes precedence; after [setInterfaceOverload] on its interface
    it is reported with that overload bit. In each case the reported
    adjacency is the one in the operator's dump and in the adjacency
    database built for the adjacency's area. *)
Theorem overrides_are_reported (defaultArea n i : string)
    (v : AdjacencyValue) (m : Z) (b : bool) (st : State) :
  adjacencies_ st !! (n, i) = Some v ->
  otherNodeName (adjacency v) = n -> ifName (adjacency v) = i ->
  is_Some (interfaces_ st !! i) ->
  let st1 := (setAdjacencyMetric i n (Some m) st).2 in
  let st2 := (setLinkMetric i (Some m) st).2 in
  let st3 := (setInterfaceOverload i b st).2 in
  metric (reported st1 v) = m /\
  metric (reported st2 v)
    = default m (adjMetricOverrides (config_ st) !! (n, i)) /\
  isOverloaded (reported st3 v) = b /\
  (forall st', st' = st1 \/ st' = st2 \/ st' = st3 ->
     reported st' v ∈ adjacencies (getLinkMonitorAdjacencies defaultArea st') /\
     reported st' v ∈ adjacencies (buildAdjacencyDatabase (area v) st')).
Proof.
  intros Hv Hn Hi Hknown st1 st2 st3.
  assert (is_Some (adjacencies_ st !! (n, i))) as Hadj by (by eexists).
  pose proof (setAdjacencyMetric_post i n (Some m) st Hadj) as Ha1.
  fold st1 in Ha1.
  pose proof (setLinkMetric_post i (Some m) st Hknown) as (Hl1 & Hl5).
  fold st2 in Hl1, Hl5.
  pose proof (setInterfaceOverload_post i b st Hknown) as Ho1.
  fold st3 in Ho1.
  split; [|split; [|split]].
  - unfold reported, overriddenAdjacency, get_default. simpl.
    by rewrite Hn, Hi, Ha1.
  - unfold reported, overriddenAdjacency, get_default. simpl.
    rewrite Hn, Hi, Hl1, Hl5. simpl.
    by destruct (adjMetricOverrides (config_ st) !! (n, i)).
  - unfold reported, overriddenAdjacency. simpl. rewrite Hi.
    destruct b.
    + apply bool_decide_eq_true_2. by apply Ho1.
    + apply bool_decide_eq_false_2. intros Hin. by apply Ho1 in Hin.
  - intros st' Hst'.
    assert (adjacencies_ st' = adjacencies_ st) as Hsame.
    { destruct (set_commands_frame st) as (H1 & H2 & H3).
      destruct Hst' as [->|[->| ->]]; [apply H3|apply H2|apply H1]. }
    split.
    + apply elem_of_getLinkMonitorAdjacencies. exists (n, i), v.
      by rewrite Hsame.
    + apply elem_of_buildAdjacencyDatabase. exists (n, i), v.
      by rewrite Hsame.
Qed.


Lemma overrides_are_reported_witness :
  adjacencies_ exState !! ("node1", "iface1")%string
    = Some (mkAdjacencyValue (exPeerSpec "iface1")
              (exAdjacency "node1" "iface1") false "0") /\
  is_Some (interfaces_ exState !! "iface1"%string) /\
  metric (reported (setAdjacencyMetric "iface1" "node1" (Some 42) exState).2
            (mkAdjacencyValue (exPeerSpec "iface1")
               (exAdjacency "node1" "iface1") false "0")) = 42 /\
  isOverloaded (reported (setInterfaceOverload "iface1" true exState).2
                  (mkAdjacencyValue (exPeerSpec "iface1")
                     (exAdjacency "node1" "iface1") false "0")) = true.
Proof.
  assert (Hv : adjacencies_ exState !! ("node1", "iface1")%string
               = Some (mkAdjacencyValue (exPeerSpec "iface1")
                         (exAdjacency "node1" "iface1") false "0"))
    by reflexivity.
  assert (Hk : is_Some (interfaces_ exState !! "iface1"%string))
    by (by eexists).
  pose proof (overrides_are_reported "0" "node1" "iface1" _ 42 true exState
                Hv eq_refl eq_refl Hk) as (H1 & _ & H3 & _).
  split; [exact Hv|]. split; [exact Hk|]. split; [exact H1|exact H3].
Defined.

Lemma set_commands_interfaces st :
  (forall now b, interfaces_ (setNodeOverload now b st).2 = interfaces_ st /\
     cfgIsOverloaded (config_ (setNodeOverload now b st).2) = b) /\
  (forall i b, interfaces_ (setInterfaceOverload i b st).2 = interfaces_ st) /\
  (forall i om, interfaces_ (setLinkMetric i om st).2 = interfaces_ st).
Proof.
  split; [|split].
  - intros now b. unfold setNodeOverload. case_bool_decide; [done|]. simpl.
    destruct (advertiseAdjacencies_frame now (set_config
      (mkConfig b (overloadedLinks (config_ st))
         (linkMetricOverrides (config_ st)) (nodeLabel (config_ st))
         (adjMetricOverrides (config_ st))) st)) as (_ & _ & -> & -> & _).
    done.
  - intros i b. unfold setInterfaceOverload.
    repeat (case_bool_decide || destruct b); done.
  - intros i om. unfold setLinkMetric. case_bool_decide; [done|].
    destruct om, (linkMetricOverrides (config_ st) !! i);
      try case_bool_decide; done.
Qed.

Section InterfacesFacts.
Context {InterfaceInfo : Type}.
Variable getInterfaceInfo : string -> InterfaceEntry -> InterfaceInfo.
Variable getBackoffDuration : string -> InterfaceEntry -> Z.
Variable isActive : string -> InterfaceEntry -> bool.
Variable flapMaxBackoff_ : Z.

Abbreviation getInterfaces :=
  (getInterfaces getInterfaceInfo getBackoffDuration).
Abbreviation getRetryTimeOnUnstableInterfaces :=
  (getRetryTimeOnUnstableInterfaces getBackoffDuration isActive
     flapMaxBackoff_).
Abbreviation unstable := (unstable getBackoffDuration isActive).

Lemma getInterfaces_lookup st i :
  interfaceDetails (getInterfaces st) !! i =
  (λ interface,
     mkInterfaceDetails (getInterfaceInfo i interface)
       (bool_decide (i ∈ overloadedLinks (config_ st)))
       (linkMetricOverrides (config_ st) !! i)
       (if negb (getBackoffDuration i interface =? 0)
        then Some (getBackoffDuration i interface) else None))
  <$> interfaces_ st !! i.
Proof.
  unfold LinkMonitor.getInterfaces. simpl. rewrite map_lookup_imap.
  by destruct (interfaces_ st !! i).
Qed.

(** X16. The link dump handed to the operator ([getInterfaces]) lists
    exactly the interfaces LinkMonitor knows, reports a remaining
    flap-backoff only when it is not zero, and reflects the operator's
    commands: after [setLinkMetric] on a known interface the dump shows
    for it the metric override that was asked for (or none), after
    [setInterfaceOverload] the overload bit that was asked for, and after
    [setNodeOverload] the node's overload bit. *)
Theorem getInterfaces_reflects_commands (st : State) (i : string)
    (interface : InterfaceEntry) (om : option Z) (b : bool) (now : Z) :
  interfaces_ st !! i = Some interface ->
  dom (interfaceDetails (getInterfaces st)) = dom (interfaces_ st) /\
  (exists d, interfaceDetails (getInterfaces st) !! i = Some d /\
     info d = getInterfaceInfo i interface /\
     (linkFlapBackOffMs d =
        if decide (getBackoffDuration i interface = 0) then None
        else Some (getBackoffDuration i interface))) /\
  (exists d,
     interfaceDetails (getInterfaces (setLinkMetric i om st).2) !! i = Some d /\
     metricOverride d = om) /\
  (exists d,
     interfaceDetails (getInterfaces (setInterfaceOverload i b st).2) !! i
       = Some d /\
     detIsOverloaded d = b) /\
  replyIsOverloaded (getInterfaces (setNodeOverload now b st).2) = b.
Proof.
  intros Hi.
  assert (is_Some (interfaces_ st !! i)) as Hknown by (by eexists).
  destruct (set_commands_interfaces st) as (Hn & Ho & Hl).
  split; [|split; [|split; [|split]]].
  - apply set_eq. intros j. rewrite !elem_of_dom, getInterfaces_lookup.
    by rewrite fmap_is_Some.
  - eexists. rewrite getInterfaces_lookup, Hi. simpl. split; [done|].
    split; [done|]. simpl. case_decide as Hz.
    + by rewrite Hz.
    + by rewrite (proj2 (Z.eqb_neq _ _) Hz).
  - eexists. rewrite getInterfaces_lookup, Hl, Hi. simpl. split; [done|].
    simpl. by apply setLinkMetric_post.
  - eexists. rewrite getInterfaces_lookup, Ho, Hi. simpl. split; [done|].
    simpl. pose proof (setInterfaceOverload_post i b st Hknown) as Hpost.
    destruct b.
    + apply bool_decide_eq_true_2. by apply Hpost.
    + apply bool_decide_eq_false_2. intros Hin. by apply Hpost in Hin.
  - simpl. apply Hn.
Qed.

Lemma retryTime_fold_spec (ifs : gmap string InterfaceEntry) :
  let acc := map_fold (retryTime_step getBackoffDuration isActive)
               (false, flapMaxBackoff_) ifs in
  (acc.1 = true <->
   exists j e, ifs !! j = Some e /\ isActive j e = false /\
     0 < getBackoffDuration j e) /\
  acc.2 <= flapMaxBackoff_ /\
  (forall j e, ifs !! j = Some e -> isActive j e = false ->
     0 < getBackoffDuration j e -> acc.2 <= getBackoffDuration j e) /\
  (acc.2 = flapMaxBackoff_ \/
   exists j e, ifs !! j = Some e /\ isActive j e = false /\
     0 < getBackoffDuration j e /\ acc.2 = getBackoffDuration j e).
Proof.
  apply (map_fold_weak_ind
    (λ (acc : bool * Z) (m : gmap string InterfaceEntry),
       (acc.1 = true <->
        exists j e, m !! j = Some e /\ isActive j e = false /\
          0 < getBackoffDuration j e) /\
       acc.2 <= flapMaxBackoff_ /\
       (forall j e, m !! j = Some e -> isActive j e = false ->
          0 < getBackoffDuration j e -> acc.2 <= getBackoffDuration j e) /\
       (acc.2 = flapMaxBackoff_ \/
        exists j e, m !! j = Some e /\ isActive j e = false /\
          0 < getBackoffDuration j e /\ acc.2 = getBackoffDuration j e))).
  - simpl. split; [|split; [lia|split; [|by left]]].
    + split; [done|]. intros (j & e & Hj & _). by rewrite lookup_empty in Hj.
    + intros j e Hj. by rewrite lookup_empty in Hj.
  - intros k e m [has mn] Hfresh (Hhas & Hle & Hmin & Hatt). simpl in *.
    assert (forall j e', m !! j = Some e' -> <[k:=e]> m !! j = Some e') as Hup.
    { intros j e' Hj. rewrite lookup_insert_ne; [done|]. intros ->. congruence. }
    unfold retryTime_step. simpl.
    destruct (isActive k e) eqn:Hact; [|destruct (_ >? 0) eqn:Hpos]; simpl.
    + split; [|split; [done|split]].
      * rewrite Hhas. split.
        -- intros (j & e' & Hj & ?). by eauto 6.
        -- intros (j & e' & Hj & Hna & ?).
           apply lookup_insert_Some in Hj as [[-> ->]|[_ Hj]]; [congruence|].
           by eauto 6.
      * intros j e' Hj Hna Hp.
        apply lookup_insert_Some in Hj as [[-> ->]|[_ Hj]]; [congruence|].
        by eauto.
      * destruct Hatt as [?|(j & e' & Hj & ?)]; [by left|].
        right. by eauto 6.
    + apply Z.gtb_lt in Hpos. split; [|split; [lia|split]].
      * split; [|done]. intros _. exists k, e. by rewrite lookup_insert_eq.
      * intros j e' Hj Hna Hp.
        apply lookup_insert_Some in Hj as [[-> ->]|[_ Hj]]; [lia|].
        specialize (Hmin j e' Hj Hna Hp). lia.
      * destruct (Z.min_spec mn (getBackoffDuration k e)) as [[_ ->]|[_ ->]].
        -- destruct Hatt as [?|(j & e' & Hj & ?)]; [by left|].
           right. by eauto 6.
        -- right. exists k, e. by rewrite lookup_insert_eq.
    + assert (~ 0 < getBackoffDuration k e) as Hnp.
      { intros Hp. apply Z.gtb_lt in Hp. congruence. }
      split; [|split; [done|split]].
      * rewrite Hhas. split.
        -- intros (j & e' & Hj & ?). by eauto 6.
        -- intros (j & e' & Hj & Hna & ?).
           apply lookup_insert_Some in Hj as [[-> ->]|[_ Hj]]; [done|].
           by eauto 6.
      * intros j e' Hj Hna Hp.
        apply lookup_insert_Some in Hj as [[-> ->]|[_ Hj]]; [done|].
        by eauto.
      * destruct Hatt as [?|(j & e' & Hj & ?)]; [by left|].
        right. by eauto 6.
Qed.

(** X17. [getRetryTimeOnUnstableInterfaces] returns 0 when no interface is
    unstable (inactive with backoff time left). Otherwise it returns the
    least remaining backoff among the unstable interfaces, capped at
    [flapMaxBackoff_]: a value that exceeds neither the cap nor the
    backoff of any unstable interface, and that is the cap or the backoff
    of one of them; it is positive when the cap is. *)
Theorem getRetryTimeOnUnstableInterfaces_spec (st : State) :
  let t := getRetryTimeOnUnstableInterfaces st in
  ((forall i, ~ unstable st i) -> t = 0) /\
  ((exists i, unstable st i) ->
   t <= flapMaxBackoff_ /\
   (forall j e, interfaces_ st !! j = Some e -> isActive j e = false ->
      0 < getBackoffDuration j e -> t <= getBackoffDuration j e) /\
   (t = flapMaxBackoff_ \/
    exists j e, interfaces_ st !! j = Some e /\ isActive j e = false /\
      0 < getBackoffDuration j e /\ t = getBackoffDuration j e) /\
   (0 < flapMaxBackoff_ -> 0 < t)).
Proof.
  intros t. subst t. unfold LinkMonitor.getRetryTimeOnUnstableInterfaces.
  destruct (retryTime_fold_spec (interfaces_ st)) as (Hhas & Hle & Hmin & Hatt).
  destruct (map_fold _ _ _) as [has mn]. simpl in *. split.
  - intros Hnone. destruct has; [|done].
    destruct (proj1 Hhas eq_refl) as (j & e & Hj & Hna & Hp).
    destruct (Hnone j). by exists e.
  - intros (i & e & Hi & Hna & Hp).
    assert (has = true) as -> by (apply Hhas; eauto 6).
    split; [done|]. split; [done|]. split; [done|].
    intros Hcap. destruct Hatt as [->|(j & e' & _ & _ & Hp' & ->)]; done.
Qed.

End InterfacesFacts.

Lemma getRetryTimeOnUnstableInterfaces_example :
  let backoff := λ (_ : string) (_ : InterfaceEntry), 250 in
  getRetryTimeOnUnstableInterfaces backoff (λ _ _, false) 60000 exState = 250 /\
  getRetryTimeOnUnstableInterfaces backoff (λ _ _, true) 60000 exState = 0 /\
  getRetryTimeOnUnstableInterfaces backoff (λ _ _, false) 100 exState = 100.
Proof. by vm_compute. Qed.

Lemma getInterfaces_reflects_commands_witness :
  interfaces_ exState !! "iface1"%string = Some (mkInterfaceEntry 1 true 1) /\
  exists d,
    interfaceDetails
      (getInterfaces (λ _ _, tt) (λ _ _, 0)
         (setLinkMetric "iface1" (Some 7) exState).2) !! "iface1"%string
    = Some d /\
    metricOverride d = Some 7.
Proof.
  assert (Hi : interfaces_ exState !! "iface1"%string
               = Some (mkInterfaceEntry 1 true 1)) by reflexivity.
  split; [exact Hi|].
  exact (proj1 (proj2 (proj2
    (getInterfaces_reflects_commands (λ _ _, tt) (λ _ _, 0) exState "iface1"
       (mkInterfaceEntry 1 true 1) (Some 7) true 0 Hi)))).
Defined.


(** *** The replies of the KvStore client *)

Lemma accepted_app c sent reqs1 reqs2 :
  accepted c sent (reqs1 ++ reqs2)
  = accepted c sent reqs1 && accepted c (sent ++ reqs1) reqs2.
Proof.
  revert sent. induction reqs1 as [|r reqs1 IH]; intros sent; simpl.
  - by rewrite app_nil_r.
  - rewrite IH, <- app_assoc. simpl. by rewrite andb_assoc.
Qed.

Lemma accepted_ok sent reqs : accepted kvStoreClientOk sent reqs = true.
Proof.
  revert sent. induction reqs as [|r reqs IH]; intros sent; simpl; [done|].
  apply IH.
Qed.

(** [advertiseKvStorePeers(area, upPeers)] against any client: the
    requests it has to send and the two ways it ends. *)
Lemma advertiseKvStorePeers_area_plan (c : KvStoreClient) area0 up st :
  exists (newPeers : gmap string PeerSpec) (toDel : list string)
         (toAdd : gmap string PeerSpec) (reqs : list KvStoreRequest),
    getPeersFromAdjacencies (adjacencies_ st) area0 = Some newPeers /\
    (forall n, n ∈ toDel <->
       is_Some (peersOf area0 st !! n) /\ newPeers !! n = None) /\
    (forall n s, toAdd !! n = Some s <->
       newPeers !! n = Some s /\
       (peersOf area0 st !! n ≠ Some s \/ up !! n = Some s)) /\
    reqs =
      match toDel with [] => [] | _ => [DelPeers toDel area0] end
      ++ (if decide (toAdd = ∅) then [] else [AddPeers toAdd area0]) /\
    (((exists n, is_Some (up !! n) /\ newPeers !! n = None) /\
      advertiseKvStorePeers_area area0 up st = None /\
      LinkMonitor.advertiseKvStorePeers_area c area0 up st = None) \/
     ((forall n, is_Some (up !! n) -> is_Some (newPeers !! n)) /\
      exists st',
        advertiseKvStorePeers_area area0 up st = Some st' /\
        peers_ st' = <[area0 := newPeers]> (peers_ st) /\
        kvStoreRequests st' = kvStoreRequests st ++ reqs /\
        LinkMonitor.advertiseKvStorePeers_area c area0 up st
        = if accepted c (kvStoreRequests st) reqs then Some st' else None)).
Proof.
  unfold peersOf.
  destruct (getPeersFromAdjacencies_char (adjacencies_ st) area0)
    as (newPeers & Hnew & _).
  set (old := default ∅ (peers_ st !! area0)).
  set (toDel := filter (λ nodeName : string, newPeers !! nodeName = None)
                  (map_to_list old).*1).
  set (toAdd0 := filter (λ newKv : string * PeerSpec,
                           old !! newKv.1 ≠ Some newKv.2) newPeers).
  set (toAddS := filter (λ newKv : string * PeerSpec,
                           old !! newKv.1 ≠ Some newKv.2 \/
                           up !! newKv.1 = Some newKv.2) newPeers).
  exists newPeers, toDel, toAddS,
    (match toDel with [] => [] | _ => [DelPeers toDel area0] end
     ++ (if decide (toAddS = ∅) then [] else [AddPeers toAddS area0])).
  split; [done|].
  split.
  { intros n. subst toDel. rewrite list_elem_of_filter, list_elem_of_fmap.
    split.
    - intros [Hnone ([n' s] & -> & Hin)]. simpl in *.
      apply elem_of_map_to_list in Hin. by split; [eexists|].
    - intros [[s Hs] Hnone]. split; [done|]. exists (n, s). split; [done|].
      by apply elem_of_map_to_list. }
  assert (forall n s, toAddS !! n = Some s <->
            newPeers !! n = Some s /\
            (old !! n ≠ Some s \/ up !! n = Some s)) as HaddS.
  { intros n s. subst toAddS. by rewrite map_lookup_filter_Some. }
  split; [exact HaddS|]. split; [reflexivity|].
  assert (forall n s, toAdd0 !! n = Some s <->
            newPeers !! n = Some s /\ old !! n ≠ Some s) as Hadd0.
  { intros n s. subst toAdd0. by rewrite map_lookup_filter_Some. }
  rewrite advertiseKvStorePeers_area_ok.
  unfold LinkMonitor.advertiseKvStorePeers_area, checked_kvStore. simpl.
  rewrite Hnew. simpl. fold old. fold toDel. fold toAdd0.
  pose proof (upPeers_fold_spec newPeers toAdd0 up) as Hup.
  destruct (map_fold (upPeers_step newPeers) (Some toAdd0) up) as [toAdd|].
  - right. destruct Hup as [Hdom Hchar]. split; [done|].
    assert (toAdd = toAddS) as ->.
    { apply map_eq. intros n. apply option_eq. intros s.
      rewrite Hchar, HaddS, Hadd0. split.
      - intros [[? ?]|(Hnone & Hu & Hn)]; by eauto.
      - intros [Hn [Ho|Hu]]; [by left|].
        destruct (toAdd0 !! n) as [s0|] eqn:Hs0.
        + left. apply Hadd0 in Hs0 as [Hn' Ho]. by simplify_eq.
        + right. done. }
    simpl. eexists. split; [reflexivity|].
    destruct toDel as [|n0 toDel]; simpl;
      case_bool_decide as He; case_decide as He'; try done; simpl;
      rewrite ?app_nil_r, <- ?app_assoc; (split; [done|]);
      (split; [done|]); try done;
      repeat (destruct (c _ _); simpl; try done).
  - left. split; [done|]. split; [done|].
    destruct toDel; simpl; [done|]. by destruct (c _ _).
Qed.

Lemma advertiseKvStorePeers_area_client (c : KvStoreClient) area0 up st st' :
  advertiseKvStorePeers_area area0 up st = Some st' ->
  exists reqs, kvStoreRequests st' = kvStoreRequests st ++ reqs /\
    LinkMonitor.advertiseKvStorePeers_area c area0 up st
    = if accepted c (kvStoreRequests st) reqs then Some st' else None.
Proof.
  intros Hok.
  destruct (advertiseKvStorePeers_area_plan c area0 up st)
    as (newPeers & toDel & toAdd & reqs & _ & _ & _ & _ & Hcases).
  destruct Hcases as [(_ & Hnone & _)|(_ & st0 & Hst0 & _ & Hreqs & Hc)];
    [congruence|].
  assert (st0 = st') as -> by congruence. by exists reqs.
Qed.

Lemma advertiseKvStorePeers_fold_client (c : KvStoreClient) up areas :
  forall st st',
  foldl (λ acc area0, st1 ← acc; advertiseKvStorePeers_area area0 up st1)
        (Some st) areas = Some st' ->
  exists reqs, kvStoreRequests st' = kvStoreRequests st ++ reqs /\
    foldl (λ acc area0,
             st1 ← acc; LinkMonitor.advertiseKvStorePeers_area c area0 up st1)
          (Some st) areas
    = if accepted c (kvStoreRequests st) reqs then Some st' else None.
Proof.
  assert (forall (c0 : KvStoreClient) l,
            foldl (λ acc area0,
                     st1 ← acc;
                     LinkMonitor.advertiseKvStorePeers_area c0 area0 up st1)
                  None l = None) as Hnone.
  { intros c0 l. induction l as [|b l IH]; simpl; [done|apply IH]. }
  induction areas as [|a0 areas IH]; simpl; intros st st' H.
  - injection H as <-. exists []. by rewrite app_nil_r.
  - destruct (advertiseKvStorePeers_area a0 up st) as [st1|] eqn:Hst1;
      [|by rewrite Hnone in H].
    simpl in H.
    destruct (advertiseKvStorePeers_area_client c _ _ _ _ Hst1)
      as (reqs1 & Hr1 & Hc1).
    destruct (IH _ _ H) as (reqs2 & Hr2 & Hc2).
    exists (reqs1 ++ reqs2). split; [by rewrite Hr2, Hr1, app_assoc|].
    rewrite Hc1, accepted_app.
    destruct (accepted c (kvStoreRequests st) reqs1); simpl.
    + by rewrite Hc2, Hr1.
    + apply Hnone.
Qed.



(** A handler that completes against some client completes, with the
    same state, against the client that accepts every request: what
    holds of the completed runs against that client holds of the
    completed runs against any client. *)
Lemma advertiseKvStorePeers_area_completed (c : KvStoreClient) area0 up
    st st' :
  LinkMonitor.advertiseKvStorePeers_area c area0 up st = Some st' ->
  advertiseKvStorePeers_area area0 up st = Some st'.
Proof.
  destruct (advertiseKvStorePeers_area_plan c area0 up st)
    as (newPeers & toDel & toAdd & reqs & _ & _ & _ & _ & Hcases).
  destruct Hcases as [(_ & _ & ->)|(_ & st0 & -> & _ & _ & ->)]; [done|].
  by destruct (accepted c (kvStoreRequests st) reqs).
Qed.

Lemma advertiseKvStorePeers_completed (c : KvStoreClient) up st st' :
  LinkMonitor.advertiseKvStorePeers c up st = Some st' ->
  advertiseKvStorePeers up st = Some st'.
Proof.
  unfold LinkMonitor.advertiseKvStorePeers.
  assert (forall (c0 : KvStoreClient) l,
            foldl (λ acc area0,
                     st1 ← acc;
                     LinkMonitor.advertiseKvStorePeers_area c0 area0 up st1)
                  None l = None) as Hnone.
  { intros c0 l. induction l as [|b l IH]; simpl; [done|apply IH]. }
  generalize (areas_ st) as areas. intros areas. revert st.
  induction areas as [|a0 areas IH]; simpl; intros st; [done|].
  destruct (LinkMonitor.advertiseKvStorePeers_area c a0 up st)
    as [st1|] eqn:Hst1; simpl; [|by rewrite Hnone].
  rewrite (advertiseKvStorePeers_area_completed _ _ _ _ _ Hst1). simpl.
  apply IH.
Qed.

Lemma handle_completed (c : KvStoreClient) now ev st st' :
  LinkMonitor.handle c now ev st = Some st' -> handle now ev st = Some st'.
Proof.
  destruct ev as [unixTs event| | | | | | |]; simpl; try done.
  - unfold LinkMonitor.processNeighborEvent.
    destruct (eventType event); try done.
    + unfold LinkMonitor.neighborUpEvent.
      destruct (if negb (mockMode_ st) then _ else _) as [pubUrl0 repUrl].
      destruct (LinkMonitor.advertiseKvStorePeers_area c _ _ _)
        as [st2|] eqn:Hst2; [|done].
      by rewrite (advertiseKvStorePeers_area_completed _ _ _ _ _ Hst2).
    + unfold LinkMonitor.neighborDownEvent.
      destruct (LinkMonitor.advertiseKvStorePeers_area c _ _ _)
        as [st2|] eqn:Hst2; [|done].
      by rewrite (advertiseKvStorePeers_area_completed _ _ _ _ _ Hst2).
    + unfold LinkMonitor.neighborUpEvent.
      destruct (if negb (mockMode_ st) then _ else _) as [pubUrl0 repUrl].
      destruct (LinkMonitor.advertiseKvStorePeers_area c _ _ _)
        as [st2|] eqn:Hst2; [|done].
      by rewrite (advertiseKvStorePeers_area_completed _ _ _ _ _ Hst2).
    + unfold LinkMonitor.neighborRestartingEvent.
      apply advertiseKvStorePeers_area_completed.
  - unfold LinkMonitor.throttleCallback.
    destruct (LinkMonitor.advertiseKvStorePeers c _ _) as [st1|] eqn:Hst1;
      [|done].
    by rewrite (advertiseKvStorePeers_completed _ _ _ _ Hst1).
Qed.

Lemma run_completed (c : KvStoreClient) evs : forall st st',
  LinkMonitor.run c evs st = Some st' -> run evs st = Some st'.
Proof.
  induction evs as [|[now ev] evs IH]; simpl; intros st st'; [done|].
  destruct (LinkMonitor.handle c now ev st) as [st1|] eqn:Hst1; [|done].
  rewrite (handle_completed _ _ _ _ _ Hst1). simpl. apply IH.
Qed.

(** *** From an operator command to KvStore *)

Lemma advertiseKvStorePeers_fold_requests up areas : forall st st',
  foldl (λ acc area0, st1 ← acc; advertiseKvStorePeers_area area0 up st1)
        (Some st) areas = Some st' ->
  same_but_peers st st' /\
  exists tail, kvStoreRequests st' = kvStoreRequests st ++ tail /\
    Forall (λ r, isPersistKey r = false) tail.
Proof.
  induction areas as [|a0 areas IH]; simpl; intros st st' H.
  - injection H as <-. split; [by destruct st|].
    exists []. by rewrite app_nil_r.
  - destruct (advertiseKvStorePeers_area a0 up st) as [st1|] eqn:Hst1.
    + destruct (IH _ _ H) as (Hsame & tail & Hr & Htail).
      destruct (advertiseKvStorePeers_area_requests _ _ _ _ Hst1)
        as (_ & toDel & toAdd & _ & _ & _ & _ & _ & Hr1 & Hsame1).
      split.
      * unfold same_but_peers in *. rewrite Hsame. rewrite Hsame1. done.
      * eexists. rewrite Hr, Hr1, <- app_assoc. split; [done|].
        apply Forall_app. split; [|done]. apply Forall_app.
        split; [by destruct toDel; repeat constructor|].
        by destruct (decide (toAdd = ∅)); repeat constructor.
    + exfalso. clear -H. induction areas as [|b areas IH]; simpl in *; eauto.
      done.
Qed.

Lemma throttleCallback_late (c : KvStoreClient) now st :
  adjHoldUntilTimePoint_ st <= now ->
  exists st' peerReqs,
    LinkMonitor.throttleCallback c now st
    = (if accepted c (kvStoreRequests st) peerReqs then Some st' else None) /\
    (forall a, a ∈ areas_ st ->
       peers_ st' !! a = getPeersFromAdjacencies (adjacencies_ st) a) /\
    kvStoreRequests st' =
      kvStoreRequests st ++ peerReqs
      ++ ((λ a, adjDbRequest a st) <$> areas_ st) /\
    Forall (λ r, isPersistKey r = false) peerReqs /\
    (areas_ st ≠ [] -> advertiseAdjacenciesThrottledActive st' = false) /\
    config_ st' = config_ st /\ adjacencies_ st' = adjacencies_ st.
Proof.
  intros Hnow.
  unfold LinkMonitor.throttleCallback, LinkMonitor.advertiseKvStorePeers.
  destruct (advertiseKvStorePeers_fold_total
              (areas_ (set_throttle false st)) (set_throttle false st))
    as [st1 Hst1].
  destruct (advertiseKvStorePeers_fold_client c _ _ _ _ Hst1)
    as (reqs & Hrq & Hc).
  rewrite Hc. simpl.
  destruct (advertiseKvStorePeers_fold_settles _ _ _ Hst1)
    as (Hadj & Hareas & Hp).
  destruct (advertiseKvStorePeers_fold_requests _ _ _ _ Hst1)
    as (Hsame & peerReqs & Hr & Hpr).
  assert (adjHoldUntilTimePoint_ st1 <= now) as Hnow1.
  { rewrite Hsame. done. }
  destruct (advertiseAdjacencies_fold_late now (areas_ st1) st1 Hnow1)
    as (Hr2 & _ & Ht & _ & _ & Hcfg & Hadj2 & Hp2 & _).
  fold (advertiseAdjacencies now st1) in Hr2, Ht, Hcfg, Hadj2, Hp2.
  simpl in *.
  assert (reqs = peerReqs) as ->.
  { rewrite Hr in Hrq. by apply app_inv_head in Hrq. }
  exists (advertiseAdjacencies now st1), peerReqs.
  split; [by destruct (accepted c (kvStoreRequests st) peerReqs)|].
  split.
  { intros a Ha. rewrite Hp2. apply Hp. by left. }
  split.
  { rewrite Hr2, Hr, Hareas, <- app_assoc. do 2 f_equal.
    apply list_fmap_ext. intros ? a _. unfold adjDbRequest.
    rewrite Hsame. done. }
  split; [done|]. split.
  { intros Hne. rewrite Ht, Hareas. by destruct (areas_ st). }
  split; [rewrite Hcfg, Hsame; done|]. by rewrite Hadj2, Hadj.
Qed.

(** X19. An operator command reaches KvStore. Let an adjacency be stored
    under the names it carries, over a known interface, in one of the
    areas of the node, and let the hold deadline have passed. After
    [setAdjacencyMetric], [setLinkMetric] or [setInterfaceOverload] on it,
    the next run of the throttled advertiser hands KvStore an adjacency
    database for the adjacency's area in which the adjacency appears with
    the operator's setting: the adjacency metric, the link metric unless
    an adjacency metric overrides it, or the overload bit. (The KvStore
    client accepts the peer requests of that run.) *)
Theorem operator_command_is_published (now : Z) (n i : string)
    (v : AdjacencyValue) (m : Z) (b : bool) (st : State) :
  adjacencies_ st !! (n, i) = Some v ->
  otherNodeName (adjacency v) = n -> ifName (adjacency v) = i ->
  is_Some (interfaces_ st !! i) -> area v ∈ areas_ st ->
  adjHoldUntilTimePoint_ st <= now ->
  forall st1,
    st1 = (setAdjacencyMetric i n (Some m) st).2 \/
    st1 = (setLinkMetric i (Some m) st).2 \/
    st1 = (setInterfaceOverload i b st).2 ->
    exists st2 key db ttl0,
      throttleCallback now st1 = Some st2 /\
      PersistKey key db ttl0 (area v) ∈ kvStoreRequests st2 /\
      reported st1 v ∈ adjacencies db /\
      (st1 = (setAdjacencyMetric i n (Some m) st).2 ->
       metric (reported st1 v) = m) /\
      (st1 = (setLinkMetric i (Some m) st).2 ->
       metric (reported st1 v)
       = default m (adjMetricOverrides (config_ st) !! (n, i))) /\
      (st1 = (setInterfaceOverload i b st).2 ->
       isOverloaded (reported st1 v) = b).
Proof.
  intros Hv Hn Hi Hknown Harea Hnow st1 Hst1.
  assert (is_Some (adjacencies_ st !! (n, i))) as Hadj by (by eexists).
  assert (adjacencies_ st1 = adjacencies_ st /\ areas_ st1 = areas_ st /\
          adjHoldUntilTimePoint_ st1 = adjHoldUntilTimePoint_ st)
    as (Hsame & Hareas & Hhold).
  { destruct Hst1 as [->|[->| ->]].
    - destruct (decide (adjMetricOverrides (config_ st) !! (n, i) = Some m)).
      + by rewrite setAdjacencyMetric_skip.
      + by rewrite setAdjacencyMetric_change.
    - destruct (decide (linkMetricOverrides (config_ st) !! i = Some m)).
      + by rewrite setLinkMetric_skip.
      + by rewrite setLinkMetric_change.
    - destruct (decide (i ∈ overloadedLinks (config_ st) <-> b = true)).
      + by rewrite setInterfaceOverload_skip.
      + by rewrite setInterfaceOverload_change. }
  destruct (throttleCallback_late kvStoreClientOk now st1)
    as (st2 & peerReqs & Hst2 & _ & Hr & _); [by rewrite Hhold|].
  rewrite accepted_ok in Hst2.
  exists st2, (adjacencyDbMarker_ st1 ++ nodeId_ st1)%string,
    (buildAdjacencyDatabase (area v) st1), (ttlKeyInKvStore_ st1).
  split; [done|]. split.
  { rewrite Hr. apply elem_of_app. right. apply elem_of_app. right.
    apply list_elem_of_fmap. exists (area v). split; [done|]. by rewrite Hareas. }
  split.
  { apply elem_of_buildAdjacencyDatabase. exists (n, i), v. by rewrite Hsame. }
  split; [|split].
  - intros ->. unfold reported, overriddenAdjacency, get_default. simpl.
    by rewrite Hn, Hi, setAdjacencyMetric_post.
  - intros ->. unfold reported, overriddenAdjacency, get_default. simpl.
    destruct (setLinkMetric_post i (Some m) st Hknown) as [Hl1 Hl2].
    rewrite Hn, Hi, Hl1, Hl2. simpl.
    by destruct (adjMetricOverrides (config_ st) !! (n, i)).
  - intros ->. unfold reported, overriddenAdjacency. simpl. rewrite Hi.
    pose proof (setInterfaceOverload_post i b st Hknown) as Hpost.
    destruct b.
    + apply bool_decide_eq_true_2. by apply Hpost.
    + apply bool_decide_eq_false_2. intros Hin. by apply Hpost in Hin.
Qed.

Lemma operator_command_is_published_witness :
  let v := mkAdjacencyValue (exPeerSpec "iface1")
             (exAdjacency "node1" "iface1") false "0" in
  adjacencies_ exLateState !! ("node1", "iface1")%string = Some v /\
  is_Some (interfaces_ exLateState !! "iface1"%string) /\
  area v ∈ areas_ exLateState /\
  adjHoldUntilTimePoint_ exLateState <= 1500 /\
  exists st2 key db ttl0,
    throttleCallback 1500
      (setAdjacencyMetric "iface1" "node1" (Some 42) exLateState).2
      = Some st2 /\
    PersistKey key db ttl0 "0" ∈ kvStoreRequests st2 /\
    reported (setAdjacencyMetric "iface1" "node1" (Some 42) exLateState).2 v
      ∈ adjacencies db /\
    metric
      (reported (setAdjacencyMetric "iface1" "node1" (Some 42) exLateState).2
         v) = 42.
Proof.
  intros v.
  assert (Hv : adjacencies_ exLateState !! ("node1", "iface1")%string = Some v)
    by reflexivity.
  assert (Hk : is_Some (interfaces_ exLateState !! "iface1"%string))
    by (by eexists).
  assert (Ha : area v ∈ areas_ exLateState) by (by left).
  assert (Hnow : adjHoldUntilTimePoint_ exLateState <= 1500)
    by (by vm_compute).
  split; [exact Hv|]. split; [exact Hk|]. split; [exact Ha|].
  split; [exact Hnow|].
  destruct (operator_command_is_published 1500 "node1" "iface1" v 42 true
              exLateState Hv eq_refl eq_refl Hk Ha Hnow _ (or_introl eq_refl))
    as (st2 & key & db & ttl0 & Hst2 & Hin & Hrep & Hm & _).
  exists st2, key, db, ttl0.
  split; [exact Hst2|]. split; [exact Hin|]. split; [exact Hrep|].
  exact (Hm eq_refl).
Defined.

(** *** The handlers against any KvStore client *)

(** X1. [advertiseKvStorePeers(area, upPeers)] computes the peer map of
    the area from the adjacencies and has to send KvStore, in this order,
    one [DelPeers] naming exactly the peers of the old map that the new
    map lacks (none if there is no such peer) and one [AddPeers] carrying
    exactly the peers of the new map that are new, or whose spec has
    changed, or that [upPeers] announces with the spec of the new map
    (none if there is no such peer). The call aborts on one of its
    [CHECK]s exactly when a peer named in [upPeers] has no non-restarting
    adjacency in the area or the KvStore client answers one of these
    requests with an error. When it completes, the peer map of the area
    is the new one and exactly these requests have been sent. *)
Theorem advertiseKvStorePeers_requests_spec (c : KvStoreClient)
    (area0 : string) (up : gmap string PeerSpec) (st : State) :
  exists (newPeers : gmap string PeerSpec) (toDel : list string)
         (toAdd : gmap string PeerSpec) (reqs : list KvStoreRequest),
    getPeersFromAdjacencies (adjacencies_ st) area0 = Some newPeers /\
    (forall n, n ∈ toDel <->
       is_Some (peersOf area0 st !! n) /\ newPeers !! n = None) /\
    (forall n s, toAdd !! n = Some s <->
       newPeers !! n = Some s /\
       (peersOf area0 st !! n ≠ Some s \/ up !! n = Some s)) /\
    reqs =
      match toDel with [] => [] | _ => [DelPeers toDel area0] end
      ++ (if decide (toAdd = ∅) then [] else [AddPeers toAdd area0]) /\
    (LinkMonitor.advertiseKvStorePeers_area c area0 up st = None <->
       (exists n, is_Some (up !! n) /\
          forall i v, adjacencies_ st !! (n, i) = Some v ->
            ~ eligible area0 v) \/
       accepted c (kvStoreRequests st) reqs = false) /\
    (forall st',
       LinkMonitor.advertiseKvStorePeers_area c area0 up st = Some st' ->
       peers_ st' = <[area0 := newPeers]> (peers_ st) /\
       kvStoreRequests st' = kvStoreRequests st ++ reqs).
Proof.
  destruct (advertiseKvStorePeers_area_plan c area0 up st)
    as (newPeers & toDel & toAdd & reqs & Hnew & Hdel & Hadd & Hreqs & Hcases).
  exists newPeers, toDel, toAdd, reqs.
  split; [done|]. split; [done|]. split; [done|]. split; [done|].
  destruct (getPeersFromAdjacencies_char (adjacencies_ st) area0)
    as (newPeers' & Hnew' & Hdom & _).
  assert (newPeers' = newPeers) as -> by congruence.
  assert ((exists n, is_Some (up !! n) /\ newPeers !! n = None) <->
          (exists n, is_Some (up !! n) /\
             forall i v, adjacencies_ st !! (n, i) = Some v ->
               ~ eligible area0 v)) as Hbad.
  { split; intros (n & Hn & Hno); exists n; (split; [done|]).
    - intros i v Hv Hel.
      assert (is_Some (newPeers !! n)) as [? ?] by (apply Hdom; eauto).
      congruence.
    - apply eq_None_not_Some. rewrite Hdom. intros (i & v & Hv & Hel).
      by eapply Hno. }
  destruct Hcases as [(Hb & _ & Hc)|(Hgood & st0 & _ & Hp & Hr & Hc)].
  - rewrite Hc. split; [|done]. split; [|done]. intros _. left.
    by apply Hbad.
  - rewrite Hc. destruct (accepted c (kvStoreRequests st) reqs).
    + split.
      * split; [done|]. intros [Hb|?]; [|done]. apply Hbad in Hb.
        destruct Hb as (n & Hn & Hnone). apply Hgood in Hn as [? ?].
        congruence.
      * by intros st' [= <-].
    + split; [|done]. split; [|done]. intros _. by right.
Qed.





End LinkMonitorFacts.

Module MessagingFacts.
Import Messaging.

Section RWQueueFacts.
Context {V : Type}.
Implicit Types (q : RWQueue V) (r : nat) (val : V) (op : Op V).

(** *** The representation invariant *)

Lemma wf_empty : wf (@empty V).
Proof.
  unfold wf, empty. simpl. split; [|split; [constructor|split; [by left|done]]].
  intros r Hr. by apply elem_of_nil in Hr.
Qed.

Lemma wf_pending_fresh q r :
  wf q -> reads q !! r = None -> r ∉ pendingReads_ q.
Proof. intros (Hp & _) Hr Hin. apply Hp in Hin. congruence. Qed.

Lemma wf_push q val : wf q -> wf (push val q).2.
Proof.
  intros Hwf. pose proof Hwf as (Hp & Hnd & Hor & Hcl). unfold push.
  destruct (closed_ q) eqn:Hc; [done|].
  destruct (pendingReads_ q) as [|r rest] eqn:Hpr; simpl.
  - repeat split; simpl; try done; eauto.
  - apply NoDup_cons in Hnd as [Hnotin Hnd].
    repeat split; simpl; try done.
    + intros r' Hr'. rewrite lookup_insert_ne by (intros ->; done).
      apply Hp. by right.
    + right. by destruct Hor.
Qed.

Lemma push_closed q val : closed_ q = true -> push val q = (false, q).
Proof. intros Hc. unfold push. by rewrite Hc. Qed.

Lemma get_enter_closed q r :
  closed_ q = true -> reads q !! r = None ->
  get_enter r q = (Some (Unexpected QUEUE_CLOSED), q).
Proof.
  intros Hc Hfresh. destruct q as [c p qu rd]. simpl in *. subst c.
  unfold get_enter, getAnyImpl. simpl. by rewrite delete_insert_id.
Qed.

Lemma wf_get_enter q r :
  wf q -> reads q !! r = None -> wf (get_enter r q).2.
Proof.
  intros Hwf Hfresh. pose proof (wf_pending_fresh _ _ Hwf Hfresh) as Hnotin.
  destruct (closed_ q) eqn:Hc.
  { by rewrite get_enter_closed. }
  destruct q as [c p qu rd]. destruct Hwf as (Hp & Hnd & Hor & Hcl).
  simpl in *. subst c.
  unfold get_enter, getAnyImpl, has_data. simpl.
  destruct qu as [|front rest]; simpl.
  - rewrite lookup_insert_eq. simpl.
    split; [|split; [|split; [by right|done]]]; simpl.
    + intros r' [Hr'| ->%list_elem_of_singleton]%elem_of_app.
      * rewrite lookup_insert_ne by (intros ->; done). by apply Hp.
      * by rewrite lookup_insert_eq.
    + apply NoDup_app. split; [done|]. split; [|apply NoDup_singleton].
      intros r' Hr' ->%list_elem_of_singleton. done.
  - destruct Hor as [->|]; [|done].
    rewrite lookup_alter_eq, lookup_insert_eq. simpl.
    split; [|split; [constructor|split; [by left|done]]]; simpl.
    intros r' Hr'. by apply elem_of_nil in Hr'.
Qed.

Lemma wf_get_wait q r res q' :
  wf q -> get_wait r q = Some (res, q') -> wf q'.
Proof.
  intros (Hp & Hnd & Hor & Hcl). unfold get_wait.
  destruct (reads q !! r) as [pr|] eqn:Hr; [|done].
  destruct (baton pr) eqn:Hb; [|done]. intros [= _ <-].
  split; [|done]. simpl.
  intros r' Hr'. destruct (decide (r' = r)) as [->|Hne].
  - apply Hp in Hr'. rewrite Hr in Hr'. injection Hr' as ->. done.
  - rewrite lookup_delete_ne by done. by apply Hp.
Qed.

Lemma wf_close q : wf q -> wf (close q).
Proof.
  intros Hwf. unfold close. destruct (closed_ q) eqn:Hc; [done|].
  split; [|split; [constructor|split; [by left|done]]].
  intros r Hr. by apply elem_of_nil in Hr.
Qed.

Lemma wf_step op q q' : wf q -> step op q = Some q' -> wf q'.
Proof.
  intros Hwf. destruct op as [val|r|r|]; simpl.
  - intros [= <-]. by apply wf_push.
  - destruct (reads q !! r) eqn:Hr; [done|]. intros [= <-].
    by apply wf_get_enter.
  - destruct (get_wait r q) as [[res q1]|] eqn:Hw; [|done]. simpl.
    intros [= <-]. by eapply wf_get_wait.
  - intros [= <-]. by apply wf_close.
Qed.

Lemma wf_steps ops : forall q q', wf q -> steps ops q = Some q' -> wf q'.
Proof.
  induction ops as [|op ops IH]; simpl; intros q q' Hwf.
  - by intros [= <-].
  - destruct (step op q) as [q1|] eqn:Hs; [|done]. simpl.
    apply IH. by eapply wf_step.
Qed.

Lemma reachable_wf q : reachable q -> wf q.
Proof. intros [ops Hops]. eapply wf_steps; [apply wf_empty|done]. Qed.

(** *** Closing *)

Lemma lookup_post_all (l : list nat) : forall (m : gmap nat (PendingRead V)) r,
  foldl (λ m r, alter post r m) m l !! r =
  if decide (r ∈ l) then post <$> m !! r else m !! r.
Proof.
  induction l as [|r0 l IH]; intros m r; simpl.
  - by destruct (decide (r ∈ [])) as [?%elem_of_nil|].
  - rewrite IH, lookup_alter.
    destruct (decide (r ∈ l)) as [Hin|Hnin];
      destruct (decide (r ∈ r0 :: l)) as [Hin'|Hnin'];
      destruct (decide (r0 = r)) as [->|Hne]; try done.
    + by destruct (m !! r).
    + destruct Hnin'. by right.
    + destruct Hnin'. by right.
    + apply elem_of_cons in Hin' as [->|?]; done.
    + destruct Hnin'. by left.
Qed.

Lemma after_close_step q0 op q q' :
  after_close q0 q -> step op q = Some q' -> after_close q0 q'.
Proof.
  intros (Hc & Hp & Hq & Hsub). destruct op as [val|r|r|]; simpl.
  - rewrite push_closed by done. by intros [= <-].
  - destruct (reads q !! r) eqn:Hr; [done|].
    rewrite get_enter_closed by done. by intros [= <-].
  - unfold get_wait. destruct (reads q !! r) as [pr|]; [|done].
    destruct (baton pr); [|done]. simpl. intros [= <-].
    repeat split; simpl; try done.
    etrans; [apply delete_subseteq|done].
  - unfold close. rewrite Hc. by intros [= <-].
Qed.

Lemma after_close_steps q0 ops : forall q q',
  after_close q0 q -> steps ops q = Some q' -> after_close q0 q'.
Proof.
  induction ops as [|op ops IH]; simpl; intros q q' Hq.
  - by intros [= <-].
  - destruct (step op q) as [q1|] eqn:Hs; [|done]. simpl.
    apply IH. by eapply after_close_step.
Qed.

(** C3. Let [q] be any state of a queue and [q0] the state after
    [close()]. Then [q0] is closed and holds no data; every [get()] blocked
    on [q] returns [QUEUE_CLOSED] (at once and in any later state in which
    it has not returned yet); and in every later state a [push] returns
    false and leaves the state as it is, a new [get()] returns
    [QUEUE_CLOSED], and a value a [get()] still returns had been handed to
    that call before the close: nothing queued at close time is delivered. *)
Theorem close_ends_reads_and_pushes (q : RWQueue V) :
  reachable q ->
  closed_ (close q) = true /\ queue_ (close q) = [] /\
  pendingReads_ (close q) = [] /\
  (forall r, r ∈ pendingReads_ q ->
     exists q1, get_wait r (close q) = Some (Unexpected QUEUE_CLOSED, q1)) /\
  (forall ops q1, steps ops (close q) = Some q1 ->
     closed_ q1 = true /\ queue_ q1 = [] /\
     (forall val, push val q1 = (false, q1)) /\
     (forall r, reads q1 !! r = None ->
        get_enter r q1 = (Some (Unexpected QUEUE_CLOSED), q1)) /\
     (forall r res q2, r ∈ pendingReads_ q ->
        get_wait r q1 = Some (res, q2) -> res = Unexpected QUEUE_CLOSED) /\
     (forall r v q2, get_wait r q1 = Some (Value v, q2) ->
        exists pr, reads q !! r = Some pr /\ data pr = Some v)).
Proof.
  intros Hwf%reachable_wf.
  pose proof (wf_close _ Hwf) as Hwf0.
  assert (after_close (close q) (close q)) as Hafter.
  { unfold after_close, close. destruct (closed_ q) eqn:Hc; simpl.
    - destruct Hwf as (_ & _ & _ & Hcl). destruct Hcl as [? ?]; [done|].
      by repeat split.
    - by repeat split. }
  assert (forall r, r ∈ pendingReads_ q ->
            reads (close q) !! r = Some (mkPendingRead true None)) as Hblocked.
  { intros r Hr. destruct Hwf as (Hp & _ & _ & Hcl).
    unfold close. destruct (closed_ q) eqn:Hc.
    - destruct Hcl as [Hnil _]; [done|]. rewrite Hnil in Hr.
      by apply elem_of_nil in Hr.
    - simpl. rewrite lookup_post_all, decide_True by done.
      by rewrite (Hp r Hr). }
  assert (forall r pr, reads (close q) !! r = Some pr ->
            exists pr', reads q !! r = Some pr' /\ data pr' = data pr)
    as Hdata.
  { intros r pr. unfold close. destruct (closed_ q); [by eauto|]. simpl.
    rewrite lookup_post_all.
    destruct (decide (r ∈ pendingReads_ q)); [|by eauto].
    destruct (reads q !! r) as [pr'|]; [|done]. simpl. intros [= <-].
    by eauto. }
  destruct Hafter as (Hc0 & Hp0 & Hq0 & Hsub0).
  split; [done|]. split; [done|]. split; [done|]. split.
  { intros r Hr. unfold get_wait. rewrite (Hblocked r Hr). simpl.
    by eexists. }
  intros ops q1 Hsteps.
  destruct (after_close_steps (close q) ops (close q) q1)
    as (Hc1 & Hp1 & Hq1 & Hsub1); [done|done|].
  split; [done|]. split; [done|].
  split; [intros val; by apply push_closed|].
  split; [intros r Hr; by apply get_enter_closed|].
  split.
  - intros r res q2 Hr. unfold get_wait.
    destruct (reads q1 !! r) as [pr|] eqn:Hpr; [|done].
    eapply lookup_weaken in Hpr; [|done].
    rewrite (Hblocked r Hr) in Hpr. injection Hpr as <-. simpl.
    by intros [= <- _].
  - intros r v q2. unfold get_wait.
    destruct (reads q1 !! r) as [pr|] eqn:Hpr; [|done].
    destruct (baton pr); [|done].
    destruct (data pr) as [v'|] eqn:Hv; [|done]. intros [= <- _].
    eapply lookup_weaken in Hpr; [|done].
    destruct (Hdata r pr Hpr) as (pr' & Hpr' & Hd).
    exists pr'. split; [done|]. congruence.
Qed.

(** *** One reader of a replicate queue *)








(** *** Runs of a replicate queue *)










End RWQueueFacts.

Lemma close_ends_reads_and_pushes_witness :
  reachable exBlocked /\
  closed_ (close exBlocked) = true /\
  (exists q1,
     get_wait 1%nat (close exBlocked)
       = Some (Unexpected QUEUE_CLOSED, q1)) /\
  push 5%nat (close exBlocked) = (false, close exBlocked) /\
  get_enter 2%nat (close exBlocked)
    = (Some (Unexpected QUEUE_CLOSED), close exBlocked).
Proof.
  assert (Hreach : reachable exBlocked).
  { exists [GetEnter 1%nat]. reflexivity. }
  pose proof (close_ends_reads_and_pushes exBlocked Hreach)
    as (Hc & _ & _ & Hblocked & Hlater).
  destruct (Hlater [] (close exBlocked) eq_refl)
    as (_ & _ & Hpush & Hget & _).
  split; [exact Hreach|]. split; [exact Hc|].
  split; [apply Hblocked; by left|].
  split; [apply Hpush|]. apply Hget. reflexivity.
Defined.



(** A value handed to a blocked [get()] before the close is still
    returned by that call; the value that was still queued is lost. *)
Lemma replicate_queue_inflight_example :
  rsteps exInflightOps runEmpty = Some exInflightRun /\
  pushed exInflightRun = [7; 8]%nat /\
  received exInflightRun = [[]] /\
  (received <$> rsteps [RReturn 0 0] exInflightRun) = Some [[7%nat]] /\
  (received <$> rsteps [RReturn 0 0; RGet 0 1] exInflightRun)
    = Some [[7%nat]] /\
  rsteps [RReturn 0 0; RGet 0 1; RReturn 0 1] exInflightRun = None.
Proof. by vm_compute. Qed.

(** In that run the writer pushed 1, 2, 3; the first reader has received
    1 and finds 2, 3 waiting; the second, attached after the second push,
    finds 3 alone. *)
Lemma replicate_queue_example :
  pushed exRun = [1; 2; 3]%nat /\
  received exRun = [[1%nat]; []] /\
  queue_ (exReader 0) = [2; 3]%nat /\
  attachedAt exRun = [0; 2]%nat /\
  queue_ (exReader 1) = [3%nat].
Proof. by vm_compute. Qed.

(** Closing the queue that holds [7] and [8] drops both: the next
    [get()] is refused instead of being served. *)
Lemma close_discards_data_example :
  queue_ exLoaded = [7%nat; 8%nat] /\
  queue_ (close exLoaded) = [] /\
  (get_enter 1%nat (close exLoaded)).1 = Some (Unexpected QUEUE_CLOSED).
Proof. by vm_compute. Qed.

Section RWQueueHistoryFacts.
Context {V : Type}.
Implicit Types (q : RWQueue V) (r : nat) (val : V) (op : Op V)
  (t : Trace V) (m : gmap nat (PendingRead V)).

(** *** The operations in closed form *)

Lemma push_pending q val r rest :
  closed_ q = false -> pendingReads_ q = r :: rest ->
  push val q =
  (true, mkRWQueue false rest (queue_ q)
           (<[r := mkPendingRead true (Some val)]> (reads q))).
Proof. intros Hc Hp. unfold push. by rewrite Hc, Hp. Qed.

Lemma push_queue q val :
  closed_ q = false -> pendingReads_ q = [] ->
  push val q = (true, mkRWQueue false [] (queue_ q ++ [val]) (reads q)).
Proof. intros Hc Hp. unfold push. by rewrite Hc, Hp. Qed.

Lemma get_enter_blocks q r :
  closed_ q = false -> queue_ q = [] ->
  get_enter r q =
  (None, mkRWQueue false (pendingReads_ q ++ [r]) []
           (<[r := mkPendingRead false None]> (reads q))).
Proof.
  intros Hc Hq. destruct q as [c p qu rd]. simpl in *. subst.
  unfold get_enter, getAnyImpl, has_data. simpl.
  by rewrite lookup_insert_eq.
Qed.

Lemma get_enter_immediate q r front rest :
  closed_ q = false -> queue_ q = front :: rest ->
  get_enter r q =
  (None, mkRWQueue false (pendingReads_ q) rest
           (<[r := mkPendingRead true (Some front)]> (reads q))).
Proof.
  intros Hc Hq. destruct q as [c p qu rd]. simpl in *. subst.
  unfold get_enter, getAnyImpl, has_data. simpl.
  rewrite lookup_alter_eq, lookup_insert_eq. simpl. do 2 f_equal.
  apply map_eq. intros k. destruct (decide (k = r)) as [->|Hne].
  - by rewrite !lookup_alter_eq, !lookup_insert_eq.
  - by rewrite !lookup_alter_ne, !lookup_insert_ne.
Qed.

Lemma get_wait_Some q r res q' :
  get_wait r q = Some (res, q') <->
  exists pr, reads q !! r = Some pr /\ baton pr = true /\
    res = match data pr with
          | Some v => Value v
          | None => Unexpected QUEUE_CLOSED
          end /\
    q' = mkRWQueue (closed_ q) (pendingReads_ q) (queue_ q)
           (delete r (reads q)).
Proof.
  unfold get_wait. split.
  - destruct (reads q !! r) as [pr|]; [|done].
    destruct (baton pr) eqn:Hb; [|done]. intros [= <- <-]. by exists pr.
  - intros (pr & -> & -> & -> & ->). done.
Qed.

(** *** The values in the hands of calls that have not returned *)

Lemma inflight_insert_fresh m r pr c p qu :
  m !! r = None ->
  inflight (mkRWQueue c p qu (<[r := pr]> m))
  ≡ₚ option_list (data pr) ++ inflight (mkRWQueue c p qu m).
Proof.
  intros Hr. unfold inflight. simpl. rewrite map_to_list_insert by done.
  simpl. by destruct (data pr).
Qed.

Lemma inflight_delete m r pr c p qu :
  m !! r = Some pr ->
  inflight (mkRWQueue c p qu m)
  ≡ₚ option_list (data pr) ++ inflight (mkRWQueue c p qu (delete r m)).
Proof.
  intros Hr. rewrite <- (insert_delete_id m r pr) at 1 by done.
  apply inflight_insert_fresh, lookup_delete_eq.
Qed.

Lemma inflight_replace m r pr pr' c p qu :
  m !! r = Some pr -> data pr = None ->
  inflight (mkRWQueue c p qu (<[r := pr']> m))
  ≡ₚ option_list (data pr') ++ inflight (mkRWQueue c p qu m).
Proof.
  intros Hr Hd. rewrite <- (insert_delete_eq m).
  rewrite inflight_insert_fresh by apply lookup_delete_eq.
  rewrite (inflight_delete m r pr) by done. by rewrite Hd.
Qed.

Lemma inflight_post_all (l : list nat) : forall m c p qu c' p' qu',
  inflight (mkRWQueue c p qu (foldl (λ m r, alter post r m) m l))
  ≡ₚ inflight (mkRWQueue c' p' qu' m).
Proof.
  induction l as [|r l IH]; intros m c p qu c' p' qu'; simpl; [done|].
  rewrite (IH _ c p qu c p qu).
  destruct (m !! r) as [pr|] eqn:Hr.
  - assert (alter post r m = <[r := post pr]> (delete r m)) as ->.
    { apply map_eq. intros k. destruct (decide (k = r)) as [->|Hne].
      - by rewrite lookup_alter_eq, lookup_insert_eq, Hr.
      - by rewrite lookup_alter_ne, lookup_insert_ne, lookup_delete_ne. }
    rewrite inflight_insert_fresh by apply lookup_delete_eq.
    by rewrite (inflight_delete m r pr c' p' qu').
  - assert (alter post r m = m) as ->; [|done].
    apply map_eq. intros k. destruct (decide (k = r)) as [->|Hne].
    + by rewrite lookup_alter_eq, Hr.
    + by rewrite lookup_alter_ne.
Qed.

(** *** The history of a queue *)

Lemma tstep_step op t : tq <$> tstep op t = step op (tq t).
Proof.
  destruct op as [val|r|r|]; simpl.
  - by destruct (push val (tq t)).
  - by destruct (reads (tq t) !! r).
  - by destruct (get_wait r (tq t)) as [[res q1]|].
  - done.
Qed.

Lemma tsteps_steps ops : forall t, tq <$> tsteps ops t = steps ops (tq t).
Proof.
  induction ops as [|op ops IH]; intros t; simpl; [done|].
  rewrite <- tstep_step. destruct (tstep op t) as [t1|]; simpl; [|done].
  apply IH.
Qed.

Lemma trace_inv_step op t t' :
  trace_inv t -> tstep op t = Some t' -> trace_inv t'.
Proof.
  intros (Hwf & (rest & Hacc & Hrest) & Hperm) Hstep.
  assert (wf (tq t')) as Hwf'.
  { eapply wf_step; [exact Hwf|]. by rewrite <- tstep_step, Hstep. }
  split; [done|]. clear Hwf'.
  destruct t as [q acc hd ret]. simpl in *.
  pose proof Hwf as (Hp & Hnd & Hor & Hcl).
  destruct op as [val|r|r|]; simpl in Hstep.
  - (* push *)
    destruct (closed_ q) eqn:Hc.
    { rewrite push_closed in Hstep by done. injection Hstep as <-. simpl.
      split; [|done]. exists rest. split; [done|]. by rewrite Hc. }
    destruct (pendingReads_ q) as [|r0 prest] eqn:Hpr.
    + rewrite push_queue in Hstep by done. injection Hstep as <-. simpl.
      split; [|done]. exists (rest ++ [val]).
      split; [by rewrite app_assoc, Hacc|]. intros _. by rewrite Hrest.
    + rewrite (push_pending q val r0 prest) in Hstep by done.
      injection Hstep as <-. simpl.
      assert (queue_ q = []) as Hq by (by destruct Hor).
      assert (rest = []) as -> by (by rewrite Hrest, Hq).
      rewrite app_nil_r in Hacc. subst acc. split.
      * exists []. rewrite app_nil_r. split; [done|]. by rewrite Hq.
      * rewrite (inflight_replace (reads q) r0 (mkPendingRead false None))
          by (done || (apply Hp; by left)).
        simpl. rewrite <- Hperm. destruct q. unfold inflight. simpl.
        by rewrite <- Permutation_middle, <- Permutation_cons_append.
  - (* get: enter *)
    destruct (reads q !! r) eqn:Hr; [done|]. injection Hstep as <-. simpl.
    destruct (closed_ q) eqn:Hc.
    { rewrite get_enter_closed by done. simpl. split; [|done].
      exists rest. split; [done|]. by rewrite Hc. }
    destruct (queue_ q) as [|front qrest] eqn:Hq.
    + rewrite get_enter_blocks by done. simpl. rewrite app_nil_r. split.
      * exists rest. split; [done|]. by rewrite Hrest.
      * rewrite inflight_insert_fresh by done. simpl. rewrite <- Hperm.
        destruct q. simpl in *. by subst.
    + rewrite (get_enter_immediate q r front qrest) by done. simpl. split.
      * exists qrest. split; [|done]. by rewrite <- app_assoc, <- Hacc, Hrest.
      * rewrite inflight_insert_fresh by done. simpl. rewrite <- Hperm.
        destruct q. unfold inflight. simpl in *. subst.
        by rewrite <- Permutation_middle, <- Permutation_cons_append.
  - (* get: return *)
    destruct (get_wait r q) as [[res q1]|] eqn:Hw; [|done].
    injection Hstep as <-. simpl.
    apply get_wait_Some in Hw as (pr & Hr & Hb & -> & ->). simpl. split.
    + by exists rest.
    + rewrite <- Hperm. destruct q as [c p qu rd]. simpl in *.
      rewrite (inflight_delete rd r pr c p qu) by done.
      destruct (data pr); simpl; [|done]. by rewrite <- app_assoc.
  - (* close *)
    injection Hstep as <-. simpl. unfold close.
    destruct (closed_ q) eqn:Hc; simpl.
    + split; [|done]. exists rest. split; [done|]. by rewrite Hc.
    + split; [by exists rest|].
      rewrite <- Hperm. destruct q as [c p qu rd]. simpl.
      by rewrite (inflight_post_all p rd true [] [] c p qu).
Qed.

Lemma trace_inv_steps ops : forall t t',
  trace_inv t -> tsteps ops t = Some t' -> trace_inv t'.
Proof.
  induction ops as [|op ops IH]; simpl; intros t t' Hinv.
  - by intros [= <-].
  - destruct (tstep op t) as [t1|] eqn:Hs; [|done]. simpl.
    apply IH. by eapply trace_inv_step.
Qed.

Lemma trace_inv_empty : trace_inv (@traceEmpty V).
Proof.
  split; [apply wf_empty|]. split.
  - by exists [].
  - unfold traceEmpty, inflight. simpl. by rewrite map_to_list_empty.
Qed.

(** X20. An [RWQueue] is first-in first-out and delivers every value at
    most once. In every run from the empty queue, with any number of
    writers and of concurrent [get()] calls: the values handed to [get()]
    calls, in the order they are handed out, form a prefix of the values
    accepted by [push], in push order, and while the queue is open the
    rest of them is exactly the content of the queue; and the values
    [get()] calls have returned, together with those held by calls that
    have not returned yet, are, up to order, exactly the values handed
    out. The history does not influence the queue: it evolves as under
    the plain operations. *)
Theorem rwqueue_fifo_exactly_once (ops : list (Op V)) (t : Trace V) :
  tsteps ops traceEmpty = Some t ->
  steps ops empty = Some (tq t) /\
  handed t `prefix_of` accepted t /\
  (closed_ (tq t) = false -> handed t ++ queue_ (tq t) = accepted t) /\
  returned t ++ inflight (tq t) ≡ₚ handed t.
Proof.
  intros Hrun.
  pose proof (trace_inv_steps ops _ _ trace_inv_empty Hrun)
    as (_ & (rest & Hacc & Hrest) & Hperm).
  split.
  { change (@empty V) with (tq (@traceEmpty V)).
    by rewrite <- tsteps_steps, Hrun. }
  split; [by exists rest|]. split; [|done].
  intros Hc. by rewrite <- (Hrest Hc).
Qed.

(** X21. The invariant the [assert] of [close] relies on. In every state
    a queue can reach, [numPendingReads()] or [size()] is zero: no
    [get()] is blocked while data is queued, so the assertion never
    fails; no call is blocked twice; and a closed queue has neither data
    nor blocked calls. *)
Theorem close_assertion_holds (ops : list (Op V)) (q : RWQueue V) :
  steps ops empty = Some q ->
  (numPendingReads q = 0%nat \/ size q = 0%nat) /\
  NoDup (pendingReads_ q) /\
  (isClosed q = true -> size q = 0%nat /\ numPendingReads q = 0%nat).
Proof.
  intros Hsteps.
  assert (wf q) as (_ & Hnd & Hor & Hcl).
  { apply reachable_wf. by exists ops. }
  unfold numPendingReads, size, isClosed. split; [|split; [done|]].
  - destruct Hor as [-> | ->]; [by left|by right].
  - intros Hc. destruct (Hcl Hc) as [-> ->]. done.
Qed.

(** X22. A [push] serves the reader that has waited longest. When calls
    of [get()] are blocked on a reachable open queue, a [push] returns
    true, hands its value to the call at the head of the waiting list,
    which then returns exactly that value, and queues nothing; every
    other blocked call stays blocked. *)
Theorem push_wakes_oldest_reader (ops : list (Op V)) (q : RWQueue V)
    (val : V) (r : nat) (rest : list nat) :
  steps ops empty = Some q ->
  closed_ q = false -> pendingReads_ q = r :: rest ->
  let q' := (push val q).2 in
  (push val q).1 = true /\
  pendingReads_ q' = rest /\ queue_ q' = [] /\
  (exists q2, get_wait r q' = Some (Value val, q2)) /\
  (forall r', r' ∈ rest -> get_wait r' q' = None).
Proof.
  intros Hsteps Hc Hpr q'.
  assert (wf q) as (Hp & Hnd & Hor & _).
  { apply reachable_wf. by exists ops. }
  subst q'. rewrite (push_pending q val r rest) by done. simpl.
  split; [done|]. split; [done|]. split.
  { destruct Hor as [Hnil|Hq]; [|done]. by rewrite Hnil in Hpr. }
  split.
  - eexists. apply get_wait_Some. eexists. simpl.
    rewrite lookup_insert_eq. by repeat split.
  - intros r' Hr'. unfold get_wait. simpl.
    rewrite Hpr in Hnd. apply NoDup_cons in Hnd as [Hnotin _].
    rewrite lookup_insert_ne by (intros ->; done).
    rewrite (Hp r') by (rewrite Hpr; by right). done.
Qed.

(** X23. A [get()] blocks exactly when there is nothing to read. On a
    reachable open queue, a new call of [get()] with data queued returns
    the oldest queued value without waiting and removes only that value;
    with no data queued it joins the end of the waiting list and does not
    return, until a [push], which it then returns the value of when it is
    first in line, or a [close]. *)
Theorem get_blocks_iff_empty (ops : list (Op V)) (q : RWQueue V) (r : nat) :
  steps ops empty = Some q ->
  closed_ q = false -> reads q !! r = None ->
  let q1 := (get_enter r q).2 in
  (get_enter r q).1 = None /\
  (forall front rest, queue_ q = front :: rest ->
     pendingReads_ q1 = pendingReads_ q /\
     get_wait r q1
       = Some (Value front,
               mkRWQueue false (pendingReads_ q) rest (reads q))) /\
  (queue_ q = [] ->
     pendingReads_ q1 = pendingReads_ q ++ [r] /\
     get_wait r q1 = None /\
     (exists q2,
        get_wait r (close q1) = Some (Unexpected QUEUE_CLOSED, q2)) /\
     (pendingReads_ q = [] ->
      forall val, exists q2,
        get_wait r (push val q1).2 = Some (Value val, q2))).
Proof.
  intros Hsteps Hc Hr q1.
  assert (wf q) as Hwf by (apply reachable_wf; by exists ops).
  split.
  { destruct (queue_ q) as [|front rest] eqn:Hq.
    - by rewrite get_enter_blocks.
    - by rewrite (get_enter_immediate q r front rest). }
  split.
  - intros front rest Hq. subst q1.
    rewrite (get_enter_immediate q r front rest) by done. simpl.
    split; [done|]. apply get_wait_Some. eexists. simpl.
    rewrite lookup_insert_eq. repeat split; try done. simpl.
    by rewrite delete_insert_id.
  - intros Hq. subst q1. rewrite get_enter_blocks by done. simpl.
    split; [done|]. split.
    { unfold get_wait. simpl. by rewrite lookup_insert_eq. }
    split.
    + eexists. apply get_wait_Some. unfold close. simpl.
      eexists. rewrite lookup_post_all.
      rewrite decide_True by (apply elem_of_app; right; by left).
      rewrite lookup_insert_eq. simpl. by repeat split.
    + intros Hnil val. rewrite Hnil. simpl. eexists.
      apply get_wait_Some. unfold push. simpl. eexists.
      rewrite lookup_insert_eq. by repeat split.
Qed.

End RWQueueHistoryFacts.

(** A run with two concurrent readers: call 1 blocks, 5 is pushed to it,
    6 and 7 are queued, call 2 takes 6 and returns before call 1 does. *)
Lemma rwqueue_fifo_exactly_once_witness :
  let ops := [GetEnter 1%nat; Push 5%nat; Push 6%nat; Push 7%nat;
              GetEnter 2%nat; GetReturn 2%nat] in
  exists t,
    tsteps ops traceEmpty = Some t /\
    accepted t = [5; 6; 7]%nat /\ handed t = [5; 6]%nat /\
    returned t = [6%nat] /\ queue_ (tq t) = [7%nat] /\
    handed t `prefix_of` accepted t /\
    returned t ++ inflight (tq t) ≡ₚ handed t.
Proof.
  intros ops.
  destruct (tsteps ops traceEmpty) as [t|] eqn:Hrun.
  - exists t. split; [done|].
    pose proof (rwqueue_fifo_exactly_once ops t Hrun) as (_ & Hpre & _ & Hperm).
    vm_compute in Hrun. injection Hrun as <-.
    repeat split; try done.
  - exfalso. by vm_compute in Hrun.
Defined.

Lemma close_assertion_holds_witness :
  steps [GetEnter 1%nat; GetEnter 2%nat] empty = Some
    (mkRWQueue false [1; 2]%nat ([] : list nat)
       {[ 1%nat := mkPendingRead false None;
          2%nat := mkPendingRead false None ]}) /\
  (numPendingReads (V:=nat)
     (mkRWQueue false [1; 2]%nat []
        {[ 1%nat := mkPendingRead false None;
           2%nat := mkPendingRead false None ]}) = 0%nat \/
   size (V:=nat)
     (mkRWQueue false [1; 2]%nat []
        {[ 1%nat := mkPendingRead false None;
           2%nat := mkPendingRead false None ]}) = 0%nat).
Proof.
  assert (Hs : steps [GetEnter 1%nat; GetEnter 2%nat] empty = Some
    (mkRWQueue false [1; 2]%nat ([] : list nat)
       {[ 1%nat := mkPendingRead false None;
          2%nat := mkPendingRead false None ]})) by (by vm_compute).
  split; [exact Hs|].
  exact (proj1 (close_assertion_holds _ _ Hs)).
Defined.

Lemma push_wakes_oldest_reader_witness :
  let q := mkRWQueue false [1; 2]%nat ([] : list nat)
             {[ 1%nat := mkPendingRead false None;
                2%nat := mkPendingRead false None ]} in
  steps [GetEnter 1%nat; GetEnter 2%nat] empty = Some q /\
  (exists q2, get_wait 1%nat (push 5%nat q).2 = Some (Value 5%nat, q2)) /\
  get_wait 2%nat (push 5%nat q).2 = None.
Proof.
  intros q.
  assert (Hs : steps [GetEnter 1%nat; GetEnter 2%nat] empty = Some q)
    by (by vm_compute).
  pose proof (push_wakes_oldest_reader _ q 5%nat 1%nat [2%nat] Hs eq_refl
                eq_refl) as (_ & _ & _ & Hwake & Hrest).
  split; [exact Hs|]. split; [exact Hwake|]. apply Hrest. by left.
Defined.

Lemma get_blocks_iff_empty_witness :
  steps [Push 7%nat; Push 8%nat] empty = Some (@exLoaded) /\
  get_wait 1%nat (get_enter 1%nat exLoaded).2
  = Some (Value 7%nat, mkRWQueue false [] [8%nat] ∅).
Proof.
  assert (Hs : steps [Push 7%nat; Push 8%nat] empty = Some exLoaded)
    by (by vm_compute).
  pose proof (get_blocks_iff_empty _ exLoaded 1%nat Hs eq_refl eq_refl)
    as (_ & Himm & _).
  split; [exact Hs|]. exact (proj2 (Himm 7%nat [8%nat] eq_refl)).
Defined.

End MessagingFacts.

Module CtrlHandlerFacts.
Import Thrift CtrlHandler.

Section HandlerFacts.
Variable kAdjDbMarker : string.
Variable kLongPollReqHoldTime : Z.

Abbreviation isAdjKey := (isAdjKey kAdjDbMarker).
Abbreviation isAdjChanged := (isAdjChanged kAdjDbMarker).
Abbreviation longPollKvStoreAdj := (longPollKvStoreAdj kAdjDbMarker).
Abbreviation processPublication :=
  (processPublication kAdjDbMarker kLongPollReqHoldTime).

Lemma isAdjChanged_spec pub :
  isAdjChanged pub = true <->
  exists key val, keyVals pub !! key = Some val /\
    is_Some (value val) /\ isAdjKey key = true.
Proof.
  unfold CtrlHandler.isAdjChanged.
  apply (map_fold_weak_ind
    (λ (found : bool) (m : gmap string Value),
       found = true <->
       exists key val, m !! key = Some val /\
         is_Some (value val) /\ isAdjKey key = true)).
  - split; [done|]. intros (key & val & Hk & _). by rewrite lookup_empty in Hk.
  - intros key val m found Hfresh IH.
    rewrite orb_true_iff, andb_true_iff, bool_decide_eq_true, IH. split.
    + intros [(k & v & Hk & Hv)|[Hv Hkey]].
      * exists k, v. split; [|done].
        rewrite lookup_insert_ne; [done|]. intros ->. congruence.
      * exists key, val. by rewrite lookup_insert_eq.
    + intros (k & v & Hk & Hv & Hkey).
      apply lookup_insert_Some in Hk as [[-> ->]|[_ Hk]]; [by right|].
      left. by eauto.
Qed.

Lemma completeAll_lookup changed (reqs : gmap Z Z) (done0 : gmap Z Completion) id :
  completeAll changed reqs done0 !! id =
  match reqs !! id with
  | Some _ => Some (SetValue changed)
  | None => done0 !! id
  end.
Proof.
  unfold completeAll.
  apply (map_fold_weak_ind
    (λ (acc : gmap Z Completion) (m : gmap Z Z),
       acc !! id = match m !! id with
                   | Some _ => Some (SetValue changed)
                   | None => done0 !! id
                   end)).
  - by rewrite lookup_empty.
  - intros k ts m acc Hfresh IH.
    destruct (decide (k = id)) as [->|Hne].
    + by rewrite !lookup_insert_eq.
    + by rewrite !lookup_insert_ne.
Qed.

Lemma longPollKvStoreAdj_ids kvStoreDump timeStamp snapshot st :
  ids_below_counter st ->
  ids_below_counter (longPollKvStoreAdj kvStoreDump timeStamp snapshot st).
Proof.
  intros Hids id. unfold CtrlHandler.longPollKvStoreAdj.
  destruct (kvStoreDump _) as [what|thriftPub]; simpl.
  { intros H%Hids. lia. }
  case_bool_decide as Hkv; simpl; [intros H%Hids; lia|].
  assert (forall reqs, reqs = longPollReqs_ st \/
            reqs = <[pendingRequestId_ st := timeStamp]> (longPollReqs_ st) ->
            is_Some (reqs !! id) -> id < pendingRequestId_ st + 1) as Hboth.
  { intros reqs [->| ->]; [intros H%Hids; lia|].
    rewrite lookup_insert. case_decide as Heq; [lia|]. intros Hid%Hids. lia. }
  destruct (tobeUpdatedKeys thriftPub) as [[|k ks]|]; simpl;
    try (intros Hid%Hids; lia);
    apply Hboth; destruct (longPollReqs_ st !! _); eauto.
Qed.

Lemma processPublication_ids now pub st :
  ids_below_counter st -> ids_below_counter (processPublication now pub st).
Proof.
  intros Hids id. unfold CtrlHandler.processPublication.
  destruct (isAdjChanged pub); simpl.
  - rewrite lookup_empty. by intros [? ?].
  - intros [ts Hts]. apply map_lookup_filter_Some in Hts as [Hts _].
    apply Hids. by eexists.
Qed.

(** C5. A long poll whose KvStore dump, asked for the difference to the
    caller's ["adj:"] keys, reports a changed or a missing key, completes
    with [true] at once and is not stored; if the dump reports no
    difference the request is stored with its time stamp and stays
    uncompleted. A later publication with an ["adj:"] key that carries a
    value completes every pending request with [true] and empties the
    map; a publication without one completes with [false], and removes,
    exactly the pending requests that are at least the hold time old,
    and leaves the younger ones pending. *)
Theorem long_poll_adj (st : State) (kvStoreDump : KvStoreDump)
    (timeStamp now : Z) (snapshot : gmap string Value) (pub : Publication) :
  ids_below_counter st ->
  let params :=
    mkKeyDumpParams kAdjDbMarker
      (filter (λ kv, isAdjKey kv.1 = true) snapshot) in
  let requestId := pendingRequestId_ st in
  let st1 := longPollKvStoreAdj kvStoreDump timeStamp snapshot st in
  let st2 := processPublication now pub st in
  (forall reply, kvStoreDump params = inr reply ->
     keyVals reply ≠ ∅ \/ (exists k ks, tobeUpdatedKeys reply = Some (k :: ks)) ->
     completions st1 !! requestId = Some (SetValue true) /\
     longPollReqs_ st1 = longPollReqs_ st) /\
  (forall reply, kvStoreDump params = inr reply ->
     keyVals reply = ∅ ->
     tobeUpdatedKeys reply = None \/ tobeUpdatedKeys reply = Some [] ->
     longPollReqs_ st1 = <[requestId := timeStamp]> (longPollReqs_ st) /\
     completions st1 = completions st) /\
  ((exists key val, keyVals pub !! key = Some val /\
      is_Some (value val) /\ isAdjKey key = true) ->
     longPollReqs_ st2 = ∅ /\
     forall id ts, longPollReqs_ st !! id = Some ts ->
       completions st2 !! id = Some (SetValue true)) /\
  (~ (exists key val, keyVals pub !! key = Some val /\
        is_Some (value val) /\ isAdjKey key = true) ->
     forall id ts, longPollReqs_ st !! id = Some ts ->
       (kLongPollReqHoldTime <= now - ts ->
          completions st2 !! id = Some (SetValue false) /\
          longPollReqs_ st2 !! id = None) /\
       (now - ts < kLongPollReqHoldTime ->
          longPollReqs_ st2 !! id = Some ts /\
          completions st2 !! id = completions st !! id)).
Proof.
  intros Hids params requestId st1 st2.
  assert (longPollReqs_ st !! requestId = None) as Hfresh.
  { apply eq_None_not_Some. intros H%Hids. unfold requestId in H. lia. }
  split; [|split; [|split]].
  - intros reply Hreply Hdiff. subst st1.
    unfold CtrlHandler.longPollKvStoreAdj. fold params. rewrite Hreply.
    case_bool_decide as Hkv; simpl; [by rewrite lookup_insert_eq|].
    destruct Hdiff as [?|(k & ks & ->)]; [done|]. simpl.
    by rewrite lookup_insert_eq.
  - intros reply Hreply Hkv Htbu. subst st1.
    unfold CtrlHandler.longPollKvStoreAdj. fold params. rewrite Hreply.
    rewrite bool_decide_eq_false_2 by (by intros []).
    fold requestId. destruct Htbu as [-> | ->]; simpl; by rewrite Hfresh.
  - intros Hadj%isAdjChanged_spec. subst st2.
    unfold CtrlHandler.processPublication. rewrite Hadj. simpl.
    split; [done|]. intros id ts Hts.
    by rewrite completeAll_lookup, Hts.
  - intros Hnadj. subst st2. unfold CtrlHandler.processPublication.
    destruct (isAdjChanged pub) eqn:Hch.
    { by apply isAdjChanged_spec in Hch. }
    simpl. intros id ts Hts. split.
    + intros Hold. rewrite completeAll_lookup.
      rewrite (map_lookup_filter_Some_2 _ _ id ts) by done.
      split; [done|]. apply map_lookup_filter_None. right.
      intros ts' Hts'. simpl. rewrite Hts in Hts'. injection Hts' as <-.
      by intros [].
    + intros Hyoung. split.
      * apply map_lookup_filter_Some. split; [done|]. simpl. lia.
      * rewrite completeAll_lookup.
        rewrite (proj2 (map_lookup_filter_None _ _ id)); [done|].
        right. intros ts' Hts'. simpl. rewrite Hts in Hts'.
        injection Hts' as <-. lia.
Qed.

End HandlerFacts.

Lemma ids_below_counter_initial : ids_below_counter initial.
Proof. intros id [ts Hts]. simpl in Hts. by rewrite lookup_empty in Hts. Qed.

Lemma long_poll_adj_witness :
  ids_below_counter exPending /\
  (longPollReqs_ (processPublication "adj:" 20000 31000 exAdjPublication
                    exPending) = ∅ /\
   forall id ts, longPollReqs_ exPending !! id = Some ts ->
     completions (processPublication "adj:" 20000 31000 exAdjPublication
                    exPending) !! id = Some (SetValue true)) /\
  (completions (processPublication "adj:" 20000 31000 exTtlPublication
                  exPending) !! 0 = Some (SetValue false) /\
   longPollReqs_ (processPublication "adj:" 20000 31000 exTtlPublication
                    exPending) !! 0 = None) /\
  (longPollReqs_ (processPublication "adj:" 20000 31000 exTtlPublication
                    exPending) !! 1 = Some 30000 /\
   completions (processPublication "adj:" 20000 31000 exTtlPublication
                  exPending) !! 1 = completions exPending !! 1).
Proof.
  assert (Hids : ids_below_counter exPending).
  { unfold exPending. do 2 apply longPollKvStoreAdj_ids.
    apply ids_below_counter_initial. }
  assert (Hadj : exists key val,
            keyVals exAdjPublication !! key = Some val /\
            is_Some (value val) /\ isAdjKey "adj:" key = true).
  { exists "adj:node1"%string, (mkValue 2 "node1" (Some "db"%string) 3600 0 None).
    split; [by vm_compute|]. split; [by eexists|by vm_compute]. }
  assert (Httl : ~ exists key val,
            keyVals exTtlPublication !! key = Some val /\
            is_Some (value val) /\ isAdjKey "adj:" key = true).
  { intros (key & val & Hk & [v Hv] & _). unfold exTtlPublication in Hk.
    simpl in Hk. apply lookup_singleton_Some in Hk as [_ <-]. done. }
  pose proof (long_poll_adj "adj:" 20000 exPending exNoDifference 31000 31000
                ∅ exAdjPublication Hids) as (_ & _ & Hchanged & _).
  pose proof (long_poll_adj "adj:" 20000 exPending exNoDifference 31000 31000
                ∅ exTtlPublication Hids) as (_ & _ & _ & Hexpired).
  split; [exact Hids|]. split; [exact (Hchanged Hadj)|].
  split.
  - apply (Hexpired Httl 0 1000); [by vm_compute|lia].
  - apply (Hexpired Httl 1 30000); [by vm_compute|lia].
Defined.

(** A request that arrives while KvStore reports a difference is
    answered at once. *)
Lemma long_poll_immediate_example :
  let differs : KvStoreDump :=
    λ _, inr (mkPublication (keyVals exAdjPublication) [] None) in
  completions (longPollKvStoreAdj "adj:" differs 1000 ∅ initial) !! 0
    = Some (SetValue true) /\
  longPollReqs_ (longPollKvStoreAdj "adj:" differs 1000 ∅ initial) = ∅.
Proof. by vm_compute. Qed.

(** *** Connection authorization *)

(** X24. [authorizeConnection] turns a connection away only when it comes
    from a non-loopback address, presents a certificate common name, a
    list of acceptable names is configured, and the name is not on it.
    Every connection from loopback is let in silently; a remote peer
    without a common name, or any remote peer when no list is configured,
    is let in with an event logged; and a peer whose name is on the list
    is never turned away, also after more names are put on the list. *)
Theorem authorizeConnection_spec (acl acl' : gset string) (lo : bool)
    (name : string) :
  ((exists what, authorizeConnection acl lo name = Unauthorized what) <->
   lo = false /\ name ≠ ""%string /\ acl ≠ ∅ /\ name ∉ acl) /\
  authorizeConnection acl true name = Authorized /\
  ((exists event, authorizeConnection acl false name
                  = AuthorizedWithEvent event) <->
   name = ""%string \/ acl = ∅) /\
  (name ∈ acl -> acl ⊆ acl' ->
   forall what, authorizeConnection acl' lo name ≠ Unauthorized what).
Proof.
  unfold authorizeConnection. split; [|split; [done|split]].
  - destruct lo; simpl.
    { split; [by intros [? ?]|by intros [? _]]. }
    repeat case_bool_decide; simpl; split;
      try (by intros [? ?]); try (by intros (? & ? & ? & ?));
      try (intros _; by eauto).
  - repeat case_bool_decide; simpl; split;
      try (by intros [? ?]); try (intros _; by eauto);
      try (intros [?|?]; done).
  - intros Hin Hsub what.
    assert (name ∈ acl') as Hin' by set_solver.
    destruct lo; [done|].
    rewrite (bool_decide_eq_true_2 (name ∈ acl')) by done.
    by repeat case_bool_decide.
Qed.

(** *** Long polls and snoop streams along a run *)

Section HandlerRunFacts.
Variable kAdjDbMarker : string.
Variable kLongPollReqHoldTime : Z.

Abbreviation hstep := (hstep kAdjDbMarker kLongPollReqHoldTime).
Abbreviation hrun := (hrun kAdjDbMarker kLongPollReqHoldTime).
Abbreviation longPoll := (CtrlHandler.longPollKvStoreAdj kAdjDbMarker).
Abbreviation onPublication :=
  (CtrlHandler.processPublication kAdjDbMarker kLongPollReqHoldTime).

Lemma promise_inv_initial : promise_inv initial.
Proof.
  split; [done|]. split.
  - intros id. simpl. rewrite !lookup_empty. split; [lia|].
    by intros [[? ?]|[? ?]].
  - intros id. simpl. by rewrite lookup_empty.
Qed.

Lemma longPoll_cases kvStoreDump timeStamp snapshot st :
  promise_inv st ->
  let st' := longPoll kvStoreDump timeStamp snapshot st in
  pendingRequestId_ st' = pendingRequestId_ st + 1 /\
  ((longPollReqs_ st' = longPollReqs_ st /\
    exists c, completions st' = <[pendingRequestId_ st := c]> (completions st))
   \/
   (longPollReqs_ st' = <[pendingRequestId_ st := timeStamp]> (longPollReqs_ st) /\
    completions st' = completions st)).
Proof.
  intros (Hpos & Hall & Hdisj) st'. subst st'.
  assert (longPollReqs_ st !! pendingRequestId_ st = None) as Hfresh.
  { apply eq_None_not_Some. intros Hs.
    assert (0 <= pendingRequestId_ st < pendingRequestId_ st)
      by (apply Hall; by left). lia. }
  unfold CtrlHandler.longPollKvStoreAdj.
  destruct (kvStoreDump _) as [what|thriftPub]; simpl.
  { split; [done|]. left. by eauto. }
  case_bool_decide; simpl; [split; [done|]; left; by eauto|].
  destruct (tobeUpdatedKeys thriftPub) as [[|k ks]|]; simpl;
    rewrite ?Hfresh; (split; [done|]); try (right; done).
  left. by eauto.
Qed.

Lemma promise_inv_longPoll kvStoreDump timeStamp snapshot st :
  promise_inv st ->
  promise_inv (longPoll kvStoreDump timeStamp snapshot st).
Proof.
  intros Hinv. pose proof Hinv as (Hpos & Hall & Hdisj).
  destruct (longPoll_cases kvStoreDump timeStamp snapshot st Hinv)
    as (Hid & Hcases).
  assert (completions st !! pendingRequestId_ st = None) as Hfresh_c.
  { apply eq_None_not_Some. intros Hs.
    assert (0 <= pendingRequestId_ st < pendingRequestId_ st)
      by (apply Hall; by right). lia. }
  assert (longPollReqs_ st !! pendingRequestId_ st = None) as Hfresh_p.
  { apply eq_None_not_Some. intros Hs.
    assert (0 <= pendingRequestId_ st < pendingRequestId_ st)
      by (apply Hall; by left). lia. }
  split; [lia|]. rewrite Hid.
  destruct Hcases as [[Hp (c & Hc)]|[Hp Hc]]; rewrite Hp, Hc; split.
  - intros id. rewrite lookup_insert.
    destruct (decide (pendingRequestId_ st = id)) as [<-|Hne].
    + split; [intros _; right; by eexists|lia].
    + rewrite <- Hall. lia.
  - intros id Hid'. rewrite lookup_insert.
    destruct (decide (pendingRequestId_ st = id)) as [<-|Hne].
    + rewrite Hfresh_p in Hid'. by destruct Hid'.
    + by apply Hdisj.
  - intros id. rewrite lookup_insert.
    destruct (decide (pendingRequestId_ st = id)) as [<-|Hne].
    + split; [intros _; left; by eexists|lia].
    + rewrite <- Hall. lia.
  - intros id. rewrite lookup_insert.
    destruct (decide (pendingRequestId_ st = id)) as [<-|Hne]; [done|].
    apply Hdisj.
Qed.

Lemma onPublication_cases now pub st id :
  let st' := onPublication now pub st in
  pendingRequestId_ st' = pendingRequestId_ st /\
  match longPollReqs_ st !! id with
  | Some ts =>
      (longPollReqs_ st' !! id = None /\
       exists b, completions st' !! id = Some (SetValue b)) \/
      (longPollReqs_ st' !! id = Some ts /\
       completions st' !! id = completions st !! id)
  | None =>
      longPollReqs_ st' !! id = None /\
      completions st' !! id = completions st !! id
  end.
Proof.
  unfold CtrlHandler.processPublication.
  destruct (CtrlHandler.isAdjChanged _ pub); simpl; (split; [done|]).
  - rewrite completeAll_lookup, lookup_empty.
    destruct (longPollReqs_ st !! id); [left|]; by eauto.
  - rewrite completeAll_lookup.
    destruct (longPollReqs_ st !! id) as [ts|] eqn:Hts.
    + destruct (decide (kLongPollReqHoldTime <= now - ts)) as [Hold|Hyoung].
      * left. rewrite (map_lookup_filter_Some_2 _ _ id ts Hts Hold).
        split; [|by eauto]. apply map_lookup_filter_None. right.
        intros ts' Hts'. simpl. rewrite Hts in Hts'. injection Hts' as <-.
        by intros [].
      * right. split.
        -- by apply map_lookup_filter_Some.
        -- rewrite (proj2 (map_lookup_filter_None _ _ id)); [done|].
           right. intros ts' Hts'. simpl. rewrite Hts in Hts'.
           by injection Hts' as <-.
    + split.
      * apply map_lookup_filter_None. left. done.
      * rewrite (proj2 (map_lookup_filter_None _ _ id)); [done|]. by left.
Qed.

Lemma promise_inv_onPublication now pub st :
  promise_inv st -> promise_inv (onPublication now pub st).
Proof.
  intros (Hpos & Hall & Hdisj).
  split; [by rewrite (proj1 (onPublication_cases now pub st 0))|]. split.
  - intros id. destruct (onPublication_cases now pub st id) as (-> & Hc).
    rewrite Hall. specialize (Hdisj id).
    destruct (longPollReqs_ st !! id) as [ts|].
    + destruct Hc as [[-> (b & ->)]|[-> ->]]; split; eauto.
    + destruct Hc as [-> ->]. done.
  - intros id. destruct (onPublication_cases now pub st id) as (_ & Hc).
    specialize (Hdisj id).
    destruct (longPollReqs_ st !! id) as [ts|].
    + destruct Hc as [[-> _]|[-> ->]]; [by intros [? ?]|].
      intros _. apply Hdisj. by eexists.
    + destruct Hc as [-> _]. by intros [? ?].
Qed.

Lemma hstep_state op hs hs' :
  hstep op hs = Some hs' ->
  hs'.2 = match op with
          | OpLongPoll kvStoreDump timeStamp snapshot =>
              longPoll kvStoreDump timeStamp snapshot hs.2
          | OpPublication now (Some pub) => onPublication now pub hs.2
          | _ => hs.2
          end.
Proof.
  destruct op as [d ts sn| |tok|now [pub|]]; simpl; try by intros [= <-].
  destruct (subscribeKvStore hs.1); [|done]. by intros [= <-].
Qed.

Lemma promise_inv_hstep op hs hs' :
  promise_inv hs.2 -> hstep op hs = Some hs' -> promise_inv hs'.2.
Proof.
  intros Hinv Hstep. rewrite (hstep_state _ _ _ Hstep).
  destruct op as [d ts sn| |tok|now [pub|]]; try done.
  - by apply promise_inv_longPoll.
  - by apply promise_inv_onPublication.
Qed.

Lemma hrun_snoc ops op hs :
  hrun (ops ++ [op]) hs = hrun ops hs ≫= hstep op.
Proof.
  revert hs. induction ops as [|o ops IH]; intros hs; simpl.
  - by destruct (hstep op hs).
  - destruct (hstep o hs) as [hs1|]; simpl; [apply IH|done].
Qed.

Lemma promise_inv_hrun ops : forall hs hs',
  promise_inv hs.2 -> hrun ops hs = Some hs' ->
  promise_inv hs'.2 /\
  pendingRequestId_ hs'.2 = pendingRequestId_ hs.2 + longPollsOf ops.
Proof.
  induction ops as [|op ops IH]; simpl; intros hs hs' Hinv.
  - intros [= <-]. split; [done|]. unfold longPollsOf. simpl. lia.
  - destruct (hstep op hs) as [hs1|] eqn:Hs; [|done]. simpl. intros Hrun.
    destruct (IH hs1 hs' (promise_inv_hstep _ _ _ Hinv Hs) Hrun) as [Hinv' Hid].
    split; [done|]. rewrite Hid, (hstep_state _ _ _ Hs).
    unfold longPollsOf. simpl.
    destruct op as [d ts sn| |tok|now [pub|]]; simpl; try lia.
    + destruct (longPoll_cases d ts sn hs.2 Hinv) as (-> & _). lia.
    + rewrite (proj1 (onPublication_cases now pub hs.2 0)). lia.
Qed.

(** X25. Every long-poll promise is completed at most once. In every run
    of the handler from its initial state the request counter equals the
    number of long polls made; each request id handed out is either
    pending or completed, never both; and whatever the handler does next,
    a completion delivered stays as it is: no promise is set a second
    time. *)
Theorem long_poll_promise_set_once (ops : list HandlerOp)
    (hs : Streams * State) :
  hrun ops (noStreams, initial) = Some hs ->
  pendingRequestId_ hs.2 = longPollsOf ops /\
  (forall id, 0 <= id < pendingRequestId_ hs.2 <->
     is_Some (longPollReqs_ hs.2 !! id) \/ is_Some (completions hs.2 !! id)) /\
  (forall id, is_Some (longPollReqs_ hs.2 !! id) ->
     completions hs.2 !! id = None) /\
  (forall op hs' id c, hstep op hs = Some hs' ->
     completions hs.2 !! id = Some c -> completions hs'.2 !! id = Some c).
Proof.
  intros Hrun.
  destruct (promise_inv_hrun ops (noStreams, initial) hs
              promise_inv_initial Hrun) as [Hinv Hid].
  pose proof Hinv as (Hpos & Hall & Hdisj).
  split; [by rewrite Hid|]. split; [done|]. split; [done|].
  intros op hs' id c Hstep Hc. rewrite (hstep_state _ _ _ Hstep).
  assert (longPollReqs_ hs.2 !! id = None) as Hnp.
  { apply eq_None_not_Some. intros Hs. apply Hdisj in Hs. congruence. }
  destruct op as [d ts sn| |tok|now [pub|]]; try done.
  - destruct (longPoll_cases d ts sn hs.2 Hinv) as (_ & Hcases).
    destruct Hcases as [[_ (c' & ->)]|[_ ->]]; [|done].
    rewrite lookup_insert_ne; [done|]. intros <-.
    assert (0 <= pendingRequestId_ hs.2 < pendingRequestId_ hs.2)
      by (apply Hall; right; by eexists). lia.
  - destruct (onPublication_cases now pub hs.2 id) as (_ & Hcase).
    rewrite Hnp in Hcase. destruct Hcase as [_ ->]. done.
Qed.

Lemma streams_inv_hstep op s st :
  streams_inv s ->
  exists s' st', hstep op (s, st) = Some (s', st') /\ streams_inv s' /\
    publisherToken_ s <= publisherToken_ s' /\
    forall tok,
      kvStorePublishers_ s' !! tok =
      match op with
      | OpSubscribe =>
          if decide (tok = publisherToken_ s) then Some []
          else kvStorePublishers_ s !! tok
      | OpStreamCompleted tok' =>
          if decide (tok = tok') then None
          else kvStorePublishers_ s !! tok
      | OpPublication _ (Some pub) =>
          (λ sent, sent ++ [pub]) <$> kvStorePublishers_ s !! tok
      | _ => kvStorePublishers_ s !! tok
      end.
Proof.
  intros [Hpos Hinv]. destruct op as [d ts sn| |tok'|now [pub|]]; simpl.
  - eexists _, _. split; [done|]. split; [done|]. split; [lia|done].
  - unfold subscribeKvStore.
    assert (kvStorePublishers_ s !! publisherToken_ s = None) as ->.
    { apply eq_None_not_Some. intros Hs%Hinv. lia. }
    simpl. eexists _, _. split; [done|]. simpl. split; [|split; [lia|]].
    + split; [simpl; lia|]. intros tok. simpl. rewrite lookup_insert.
      case_decide as Ht; [subst; lia|]. intros Hs%Hinv. lia.
    + intros tok. rewrite lookup_insert. by repeat case_decide.
  - eexists _, _. split; [done|]. simpl. split; [|split; [lia|]].
    + split; [done|]. intros tok. simpl. rewrite lookup_delete.
      case_decide; [by intros [? ?]|]. apply Hinv.
    + intros tok. rewrite lookup_delete. by repeat case_decide.
  - eexists _, _. split; [done|]. simpl. split; [|split; [lia|]].
    + split; [done|]. intros tok. simpl.
      rewrite lookup_fmap, fmap_is_Some. apply Hinv.
    + intros tok. by rewrite lookup_fmap.
  - eexists _, _. split; [done|]. split; [done|]. split; [lia|done].
Qed.

Lemma streams_inv_initial : streams_inv noStreams.
Proof. split; [done|]. intros tok. simpl. rewrite lookup_empty. by intros [? ?]. Qed.

Lemma streams_inv_hrun ops : forall s st,
  streams_inv s ->
  exists s' st', hrun ops (s, st) = Some (s', st') /\ streams_inv s' /\
    publisherToken_ s <= publisherToken_ s'.
Proof.
  induction ops as [|op ops IH]; intros s st Hinv; simpl.
  - eexists _, _. split; [done|]. split; [done|]. lia.
  - destruct (streams_inv_hstep op s st Hinv)
      as (s1 & st1 & Hs & Hinv1 & Hle & _).
    change (CtrlHandler.hstep kAdjDbMarker kLongPollReqHoldTime op (s, st))
      with (hstep op (s, st)).
    rewrite Hs. simpl.
    destruct (IH s1 st1 Hinv1) as (s' & st' & Hrun & Hinv' & Hle').
    eexists _, _. split; [done|]. split; [done|]. lia.
Qed.

(** A stream that is not completed collects the publications. *)
Lemma stream_collects ops : forall s st tok sent,
  streams_inv s -> kvStorePublishers_ s !! tok = Some sent ->
  (forall op, op ∈ ops -> op ≠ OpStreamCompleted tok) ->
  exists s' st', hrun ops (s, st) = Some (s', st') /\
    kvStorePublishers_ s' !! tok = Some (sent ++ publicationsOf ops).
Proof.
  induction ops as [|op ops IH]; intros s st tok sent Hinv Htok Hne; simpl.
  - eexists _, _. split; [done|]. by rewrite app_nil_r.
  - destruct (streams_inv_hstep op s st Hinv)
      as (s1 & st1 & Hs & Hinv1 & _ & Hlook).
    change (CtrlHandler.hstep kAdjDbMarker kLongPollReqHoldTime op (s, st))
      with (hstep op (s, st)).
    rewrite Hs. simpl.
    assert (kvStorePublishers_ s1 !! tok =
            Some (sent ++ publicationsOf [op])) as Htok1.
    { rewrite Hlook. destruct op as [d ts sn| |tok'|now [pub|]]; simpl;
        rewrite ?app_nil_r; try done.
      - case_decide as Ht; [|done]. subst.
        destruct Hinv as [_ Hinv]. 
        assert (0 <= publisherToken_ s < publisherToken_ s)
          by (apply Hinv; by eexists). lia.
      - case_decide as Ht; [|done]. subst. destruct (Hne (OpStreamCompleted tok')).
        + by left.
        + done.
      - by rewrite Htok. }
    destruct (IH s1 st1 tok _ Hinv1 Htok1) as (s' & st' & Hrun & Hfinal).
    { intros op' Hin. apply Hne. by right. }
    eexists _, _. split; [done|]. rewrite Hfinal, <- app_assoc.
    f_equal. unfold publicationsOf. simpl.
    by destruct op as [| | |? [?|]].
Qed.

(** A token that has been given out and is not in use is never in use
    again. *)
Lemma stream_stays_gone ops : forall s st tok,
  streams_inv s -> tok < publisherToken_ s ->
  kvStorePublishers_ s !! tok = None ->
  exists s' st', hrun ops (s, st) = Some (s', st') /\
    kvStorePublishers_ s' !! tok = None.
Proof.
  induction ops as [|op ops IH]; intros s st tok Hinv Hlt Htok; simpl.
  - by eexists _, _.
  - destruct (streams_inv_hstep op s st Hinv)
      as (s1 & st1 & Hs & Hinv1 & Hle & Hlook).
    change (CtrlHandler.hstep kAdjDbMarker kLongPollReqHoldTime op (s, st))
      with (hstep op (s, st)).
    rewrite Hs. simpl. apply IH; [done|lia|].
    rewrite Hlook. destruct op as [d ts sn| |tok'|now [pub|]]; simpl;
      try done.
    + case_decide; [lia|done].
    + by case_decide.
    + by rewrite Htok.
Qed.

(** X26. Snoop streams. In every state the handler reaches from its
    initial state, [subscribeKvStore] succeeds (the token it takes is not
    in use, so its [assert] holds) and starts an empty stream. From then
    on, however the handler is used, as long as the stream is not
    completed it has been handed exactly the publications received since
    the subscription, in the order received, a publication that could not
    be read being skipped; and once it is completed its token is never in
    use again. *)
Theorem snoop_stream_delivery (ops ops' : list HandlerOp)
    (s : Streams) (st : State) :
  hrun ops (noStreams, initial) = Some (s, st) ->
  exists tok s1,
    subscribeKvStore s = Some (tok, s1) /\
    kvStorePublishers_ s !! tok = None /\
    kvStorePublishers_ s1 !! tok = Some [] /\
    ((forall op, op ∈ ops' -> op ≠ OpStreamCompleted tok) ->
     exists s2 st2, hrun ops' (s1, st) = Some (s2, st2) /\
       kvStorePublishers_ s2 !! tok = Some (publicationsOf ops')) /\
    (exists s2 st2,
       hrun ops' (streamCompleted tok s1, st) = Some (s2, st2) /\
       kvStorePublishers_ s2 !! tok = None).
Proof.
  intros Hrun.
  destruct (streams_inv_hrun ops noStreams initial streams_inv_initial)
    as (s0 & st0 & Hrun0 & Hinv & _).
  assert (s0 = s) as -> by congruence. clear Hrun0.
  destruct (streams_inv_hstep OpSubscribe s st Hinv)
    as (s1 & st1 & Hs & Hinv1 & Hle & Hlook).
  simpl in Hs. destruct (subscribeKvStore s) as [[tok s1']|] eqn:Hsub; [|done].
  simpl in Hs. injection Hs as <- <-.
  assert (tok = publisherToken_ s /\
          kvStorePublishers_ s !! tok = None /\
          publisherToken_ s1' = publisherToken_ s + 1) as (-> & Hfresh & Hnext).
  { unfold subscribeKvStore in Hsub.
    destruct (kvStorePublishers_ s !! publisherToken_ s) eqn:Hf; [done|].
    by injection Hsub as <- <-. }
  exists (publisherToken_ s), s1'. split; [done|]. split; [done|].
  assert (kvStorePublishers_ s1' !! publisherToken_ s = Some []) as Hnew.
  { rewrite Hlook. by rewrite decide_True. }
  split; [done|]. split.
  - intros Hne.
    destruct (stream_collects ops' s1' st (publisherToken_ s) [] Hinv1 Hnew Hne)
      as (s2 & st2 & Hrun2 & Hcontent).
    by eexists _, _.
  - apply stream_stays_gone.
    + destruct Hinv1 as [Hpos1 Hinv1]. split; [done|]. intros tok. simpl.
      rewrite lookup_delete. case_decide; [by intros [? ?]|]. apply Hinv1.
    + simpl. lia.
    + simpl. by rewrite lookup_delete_eq.
Qed.

End HandlerRunFacts.

Lemma long_poll_promise_set_once_witness :
  let ops := [OpLongPoll exNoDifference 1000 ∅;
              OpPublication 31000 (Some exTtlPublication);
              OpLongPoll exNoDifference 32000 ∅] in
  exists hs,
    hrun "adj:" 20000 ops (noStreams, initial) = Some hs /\
    pendingRequestId_ hs.2 = 2 /\
    completions hs.2 !! 0 = Some (SetValue false) /\
    longPollReqs_ hs.2 !! 1 = Some 32000 /\
    completions hs.2 !! 1 = None.
Proof.
  intros ops.
  destruct (hrun "adj:" 20000 ops (noStreams, initial)) as [hs|] eqn:Hrun.
  - exists hs. split; [done|].
    pose proof (long_poll_promise_set_once "adj:" 20000 ops hs Hrun)
      as (Hid & _ & Hdisj & _).
    split; [exact Hid|].
    vm_compute in Hrun. injection Hrun as <-.
    split; [reflexivity|]. split; [reflexivity|].
    apply Hdisj. by eexists.
  - exfalso. by vm_compute in Hrun.
Defined.

Lemma snoop_stream_delivery_witness :
  let pubA := mkPublication ∅ ["a"%string] None in
  let pubB := mkPublication ∅ ["b"%string] None in
  let ops := [OpSubscribe; OpPublication 10 (Some pubA)] in
  let ops' := [OpPublication 20 (Some pubB); OpSubscribe;
               OpPublication 30 None; OpPublication 40 (Some pubA)] in
  exists s st tok s1 s2 st2,
    hrun "adj:" 20000 ops (noStreams, initial) = Some (s, st) /\
    subscribeKvStore s = Some (tok, s1) /\ tok = 1 /\
    hrun "adj:" 20000 ops' (s1, st) = Some (s2, st2) /\
    kvStorePublishers_ s2 !! tok = Some [pubB; pubA].
Proof.
  intros pubA pubB ops ops'.
  destruct (hrun "adj:" 20000 ops (noStreams, initial)) as [[s st]|] eqn:Hrun;
    [|exfalso; by vm_compute in Hrun].
  destruct (snoop_stream_delivery "adj:" 20000 ops ops' s st Hrun)
    as (tok & s1 & Hsub & _ & _ & Hdel & _).
  assert (tok = 1) as Htok.
  { vm_compute in Hrun. injection Hrun as <- <-.
    vm_compute in Hsub. by injection Hsub as <- _. }
  destruct Hdel as (s2 & st2 & Hrun2 & Hcontent).
  { intros op Hin. subst tok. unfold ops' in Hin.
    repeat (apply elem_of_cons in Hin as [->|Hin]; [discriminate|]).
    by apply elem_of_nil in Hin. }
  exists s, st, tok, s1, s2, st2.
  split; [reflexivity|]. split; [exact Hsub|]. split; [exact Htok|].
  split; [exact Hrun2|exact Hcontent].
Defined.

End CtrlHandlerFacts.

Module KvStoreFacts.
Import Thrift KvStore.

(** *** The comparison *)

Local Ltac cmp_close :=
  repeat split; intros; try done; try lia; try congruence;
  try (intuition (first [lia | congruence | done])).

Lemma cmpZ_cases a b :
  (a > b /\ cmpZ a b = 1) \/ (a < b /\ cmpZ a b = -1) \/
  (a = b /\ cmpZ a b = 0).
Proof.
  unfold cmpZ. destruct (a >? b) eqn:Hgt.
  - left. split; [|done]. apply Z.gtb_lt in Hgt. lia.
  - destruct (a <? b) eqn:Hlt.
    + right. left. split; [|done]. by apply Z.ltb_lt in Hlt.
    + right. right. split; [|done].
      apply Z.ltb_ge in Hlt. rewrite Z.gtb_ltb in Hgt.
      apply Z.ltb_ge in Hgt. lia.
Qed.

Lemma cmpStr_cases a b :
  (String.ltb b a = true /\ String.ltb a b = false /\ a <> b /\
   cmpStr a b = 1) \/
  (String.ltb a b = true /\ String.ltb b a = false /\ a <> b /\
   cmpStr a b = -1) \/
  (a = b /\ cmpStr a b = 0).
Proof.
  unfold cmpStr, StrOrder.gt, StrOrder.lt.
  pose proof (StrOrderFacts.lt_irrefl a) as Hirr.
  pose proof (StrOrderFacts.lt_trans a b a) as Htr.
  unfold StrOrder.lt in *.
  destruct (String.ltb b a) eqn:Hgt, (String.ltb a b) eqn:Hlt.
  - rewrite Htr in Hirr; done.
  - left. split; [done|]. split; [done|]. split; [|done]. intros ->.
    congruence.
  - right. left. split; [done|]. split; [done|]. split; [|done]. intros ->.
    congruence.
  - right. right. split; [|done].
    apply StrOrderFacts.le_antisym; by apply StrOrderFacts.not_lt_le.
Qed.

Lemma cmpZ_refl a : cmpZ a a = 0.
Proof. destruct (cmpZ_cases a a) as [[? ?]|[[? ?]|[_ ?]]]; [lia|lia|done]. Qed.

(** A value never beats itself. *)
Lemma compareValues_refl v :
  compareValues v v = 0 \/ compareValues v v = UNKNOWN.
Proof.
  unfold compareValues. rewrite Z.eqb_refl, String.eqb_refl. simpl.
  destruct (value v) as [b|].
  - rewrite String.eqb_refl. simpl. left. apply cmpZ_refl.
  - destruct (hash v) as [h|]; [|by right].
    rewrite Z.eqb_refl. left. apply cmpZ_refl.
Qed.

(** Equal values have equal ttl versions. *)
Lemma compareValues_0_ttlVersion v1 v2 :
  compareValues v1 v2 = 0 -> ttlVersion v1 = ttlVersion v2.
Proof.
  unfold compareValues, UNKNOWN.
  destruct (cmpZ_cases (version v1) (version v2))
    as [[Hv Hc]|[[Hv Hc]|[Hv Hc]]].
  1,2: rewrite (proj2 (Z.eqb_neq _ _)) by lia; simpl; lia.
  rewrite (proj2 (Z.eqb_eq _ _)) by done. simpl.
  destruct (cmpStr_cases (originatorId v1) (originatorId v2))
    as [(_ & _ & Ho & Hco)|[(_ & _ & Ho & Hco)|[Ho Hco]]].
  1,2: rewrite (proj2 (String.eqb_neq _ _)) by done; simpl; lia.
  rewrite (proj2 (String.eqb_eq _ _)) by done. simpl.
  assert (cmpZ (ttlVersion v1) (ttlVersion v2) = 0 ->
          ttlVersion v1 = ttlVersion v2) as Httl.
  { destruct (cmpZ_cases (ttlVersion v1) (ttlVersion v2))
      as [[? ?]|[[? ?]|[? ?]]]; lia. }
  destruct (value v1) as [b1|], (value v2) as [b2|];
    try (destruct (hash v1), (hash v2); try done;
         destruct (_ =? _)%Z; by try done).
  destruct (cmpStr_cases b1 b2)
    as [(_ & _ & Hb & Hcb)|[(_ & _ & Hb & Hcb)|[Hb Hcb]]].
  1,2: rewrite (proj2 (String.eqb_neq _ _)) by done; simpl; lia.
  rewrite (proj2 (String.eqb_eq _ _)) by done. simpl. done.
Qed.

(** C1. [compareValues] returns 1, -1, 0 or -2. A higher version wins;
    on equal versions the greater originator id wins. For values that
    carry their bodies the result is 1, -1 or 0 according to the
    lexicographic order on (version, originator id, value bytes, ttl
    version), and never unknown. When versions and originators agree and
    both bodies are absent, the result is the comparison of the ttl
    versions if both hashes are present and equal, and unknown (-2)
    otherwise. *)
Theorem compareValues_order (v1 v2 : Value) :
  let c := compareValues v1 v2 in
  (c = 1 \/ c = -1 \/ c = 0 \/ c = UNKNOWN) /\
  (version v1 > version v2 -> c = 1) /\
  (version v1 < version v2 -> c = -1) /\
  (version v1 = version v2 ->
   StrOrder.gt (originatorId v1) (originatorId v2) = true -> c = 1) /\
  (version v1 = version v2 ->
   StrOrder.lt (originatorId v1) (originatorId v2) = true -> c = -1) /\
  (forall b1 b2, value v1 = Some b1 -> value v2 = Some b2 ->
     (c = 1 <-> lex_gt v1 v2 b1 b2) /\
     (c = -1 <-> lex_gt v2 v1 b2 b1) /\
     (c = 0 <->
        version v1 = version v2 /\ originatorId v1 = originatorId v2 /\
        b1 = b2 /\ ttlVersion v1 = ttlVersion v2) /\
     c <> UNKNOWN) /\
  (version v1 = version v2 -> originatorId v1 = originatorId v2 ->
   value v1 = None -> value v2 = None ->
     (forall h, hash v1 = Some h -> hash v2 = Some h ->
        c = cmpZ (ttlVersion v1) (ttlVersion v2)) /\
     (hash v1 = None \/ hash v2 = None \/ hash v1 <> hash v2 ->
        c = UNKNOWN)).
Proof.
  intros c. subst c.
  unfold compareValues, lex_gt, UNKNOWN, StrOrder.gt, StrOrder.lt.
  destruct (cmpZ_cases (version v1) (version v2))
    as [[Hv ->]|[[Hv ->]|[Hv _]]].
  1,2: rewrite (proj2 (Z.eqb_neq _ _)) by lia; simpl; cmp_close.
  rewrite (proj2 (Z.eqb_eq _ _)) by done. simpl.
  destruct (cmpStr_cases (originatorId v1) (originatorId v2))
    as [(Ho1 & Ho2 & Ho & ->)|[(Ho1 & Ho2 & Ho & ->)|[Ho _]]].
  1,2: rewrite (proj2 (String.eqb_neq _ _)) by done; simpl; cmp_close.
  rewrite (proj2 (String.eqb_eq _ _)) by done. simpl.
  assert (String.ltb (originatorId v2) (originatorId v1) = false) as Hirr1.
  { rewrite Ho. apply StrOrderFacts.lt_irrefl. }
  assert (String.ltb (originatorId v1) (originatorId v2) = false) as Hirr2.
  { rewrite Ho. apply StrOrderFacts.lt_irrefl. }
  split.
  { destruct (value v1) as [b1|], (value v2) as [b2|];
      try (destruct (hash v1), (hash v2); try tauto;
           destruct (_ =? _)%Z; try tauto;
           destruct (cmpZ_cases (ttlVersion v1) (ttlVersion v2))
             as [[_ ->]|[[_ ->]|[_ ->]]]; tauto).
    destruct (cmpStr_cases b1 b2)
      as [(_ & _ & Hb & ->)|[(_ & _ & Hb & ->)|[Hb _]]].
    1,2: rewrite (proj2 (String.eqb_neq _ _)) by done; simpl; tauto.
    rewrite (proj2 (String.eqb_eq _ _)) by done. simpl.
    destruct (cmpZ_cases (ttlVersion v1) (ttlVersion v2))
      as [[_ ->]|[[_ ->]|[_ ->]]]; tauto. }
  split; [lia|]. split; [lia|]. split; [congruence|]. split; [congruence|].
  split.
  - intros b1 b2 -> ->.
    destruct (cmpStr_cases b1 b2)
      as [(Hb1 & Hb2 & Hb & ->)|[(Hb1 & Hb2 & Hb & ->)|[Hb _]]].
    1,2: rewrite (proj2 (String.eqb_neq _ _)) by done; simpl; cmp_close.
    rewrite (proj2 (String.eqb_eq _ _)) by done. simpl. subst b2.
    pose proof (StrOrderFacts.lt_irrefl b1) as Hirrb.
    unfold StrOrder.lt in Hirrb.
    destruct (cmpZ_cases (ttlVersion v1) (ttlVersion v2))
      as [[Ht ->]|[[Ht ->]|[Ht ->]]]; cmp_close.
  - intros _ _ Hb1 Hb2. rewrite Hb1. simpl. split.
    + intros h -> ->. by rewrite Z.eqb_refl.
    + destruct (hash v1) as [h1|], (hash v2) as [h2|]; try done.
      intros [?|[?|Hne]]; try done.
      rewrite (proj2 (Z.eqb_neq _ _)); [done|]. congruence.
Qed.

Lemma compareValues_examples :
  compareValues exNew exOld = 1 /\
  compareValues exOld exNew = -1 /\
  compareValues exNew exNew = 0 /\
  compareValues (exHashOnly 12) (exHashOnly 12) = 0 /\
  compareValues (exHashOnly 12) (exHashOnly 13) = UNKNOWN /\
  compareValues (mkValue 2 "node1" (Some "b"%string) 3600 5 None) exNew = 1.
Proof. by vm_compute. Qed.

(** *** The merge *)

Section MergeFacts.
Variable filters : option (string -> string -> bool).
Variable kTtlThreshold : Z.
Variable kTtlInfinity : Z.

Abbreviation mergeOne := (mergeOne filters kTtlThreshold kTtlInfinity).
Abbreviation mergeKeyValues :=
  (mergeKeyValues filters kTtlThreshold kTtlInfinity).
Abbreviation mergedValue := (mergedValue filters kTtlThreshold kTtlInfinity).
Abbreviation deltaValue := (deltaValue filters kTtlThreshold kTtlInfinity).

(** The comparison of the merge in closed form. *)
Lemma compareUpToTtl_unfold v_in v_local :
  compareUpToTtl v_in v_local =
    if negb (version v_in =? version v_local)
    then cmpZ (version v_in) (version v_local)
    else if negb (String.eqb (originatorId v_in) (originatorId v_local))
    then cmpStr (originatorId v_in) (originatorId v_local)
    else
      match value v_in, value v_local with
      | Some b1, Some b2 =>
          if negb (String.eqb b1 b2) then cmpStr b1 b2 else 0
      | _, _ =>
          match hash v_in, hash v_local with
          | Some h1, Some h2 => if h1 =? h2 then 0 else UNKNOWN
          | _, _ => UNKNOWN
          end
      end.
Proof.
  unfold compareUpToTtl, compareValues. simpl. rewrite cmpZ_refl.
  reflexivity.
Qed.

(** It is the comparison of section 3 before the ttl versions are
    looked at. *)
Lemma compareValues_upToTtl v1 v2 :
  compareValues v1 v2 =
    if compareUpToTtl v1 v2 =? 0 then cmpZ (ttlVersion v1) (ttlVersion v2)
    else compareUpToTtl v1 v2.
Proof.
  rewrite compareUpToTtl_unfold. unfold compareValues, UNKNOWN.
  destruct (cmpZ_cases (version v1) (version v2))
    as [[Hv ->]|[[Hv ->]|[Hv ->]]].
  - rewrite (proj2 (Z.eqb_neq _ _)) by lia. done.
  - rewrite (proj2 (Z.eqb_neq _ _)) by lia. done.
  - rewrite Hv, Z.eqb_refl. simpl.
    destruct (cmpStr_cases (originatorId v1) (originatorId v2))
      as [(_ & _ & Ho & ->)|[(_ & _ & Ho & ->)|[Ho ->]]].
    + rewrite (proj2 (String.eqb_neq _ _)) by done. done.
    + rewrite (proj2 (String.eqb_neq _ _)) by done. done.
    + rewrite Ho, String.eqb_refl. simpl.
      destruct (value v1) as [b1|], (value v2) as [b2|];
        try (destruct (hash v1) as [h1|], (hash v2) as [h2|]; try done;
             by destruct (h1 =? h2)).
      destruct (cmpStr_cases b1 b2)
        as [(_ & _ & Hb & ->)|[(_ & _ & Hb & ->)|[Hb ->]]].
      * rewrite (proj2 (String.eqb_neq _ _)) by done. done.
      * rewrite (proj2 (String.eqb_neq _ _)) by done. done.
      * rewrite Hb, String.eqb_refl. done.
Qed.

(** Values that compare as equal agree on version and originator, and
    on the body or, where a body is missing, on the hash. *)
Lemma compareUpToTtl_0 v_in v_local :
  compareUpToTtl v_in v_local = 0 ->
  version v_in = version v_local /\
  originatorId v_in = originatorId v_local /\
  ((exists b, value v_in = Some b /\ value v_local = Some b) \/
   ((value v_in = None \/ value v_local = None) /\
    exists h, hash v_in = Some h /\ hash v_local = Some h)).
Proof.
  rewrite compareUpToTtl_unfold. unfold UNKNOWN.
  destruct (cmpZ_cases (version v_in) (version v_local))
    as [[Hv ->]|[[Hv ->]|[Hv _]]].
  - rewrite (proj2 (Z.eqb_neq _ _)) by lia. done.
  - rewrite (proj2 (Z.eqb_neq _ _)) by lia. done.
  - rewrite Hv, Z.eqb_refl. simpl.
    destruct (cmpStr_cases (originatorId v_in) (originatorId v_local))
      as [(_ & _ & Ho & ->)|[(_ & _ & Ho & ->)|[Ho _]]].
    + rewrite (proj2 (String.eqb_neq _ _)) by done. done.
    + rewrite (proj2 (String.eqb_neq _ _)) by done. done.
    + rewrite Ho, String.eqb_refl. simpl. intros H.
      split; [done|]. split; [done|].
      destruct (value v_in) as [b1|], (value v_local) as [b2|].
      * left. destruct (cmpStr_cases b1 b2)
          as [(_ & _ & Hb & Hc)|[(_ & _ & Hb & Hc)|[-> _]]].
        -- rewrite (proj2 (String.eqb_neq _ _)) in H by done. simpl in H.
           congruence.
        -- rewrite (proj2 (String.eqb_neq _ _)) in H by done. simpl in H.
           congruence.
        -- by eauto.
      * right. split; [by right|].
        destruct (hash v_in) as [h1|], (hash v_local) as [h2|]; try done.
        destruct (h1 =? h2) eqn:Hh; [|done]. apply Z.eqb_eq in Hh.
        subst. by eauto.
      * right. split; [by left|].
        destruct (hash v_in) as [h1|], (hash v_local) as [h2|]; try done.
        destruct (h1 =? h2) eqn:Hh; [|done]. apply Z.eqb_eq in Hh.
        subst. by eauto.
      * right. split; [by left|].
        destruct (hash v_in) as [h1|], (hash v_local) as [h2|]; try done.
        destruct (h1 =? h2) eqn:Hh; [|done]. apply Z.eqb_eq in Hh.
        subst. by eauto.
Qed.

(** A value never beats itself, and never refreshes itself. *)
Lemma compareUpToTtl_refl v :
  (compareUpToTtl v v =? 1) = false /\
  (compareUpToTtl v v =? 0) && (ttlVersion v >? ttlVersion v) = false.
Proof.
  split.
  - rewrite compareUpToTtl_unfold, Z.eqb_refl, String.eqb_refl. simpl.
    destruct (value v) as [b|].
    + by rewrite String.eqb_refl.
    + destruct (hash v) as [h|]; [|done]. by rewrite Z.eqb_refl.
  - rewrite Z.gtb_ltb, Z.ltb_irrefl. apply andb_false_r.
Qed.

(** A refresh of the time-to-live does not change how the stored value
    compares. *)
Lemma compareUpToTtl_refreshTtl v_in v_local v :
  compareUpToTtl v_in (refreshTtl v_local v) = compareUpToTtl v_in v_local.
Proof. by rewrite !compareUpToTtl_unfold. Qed.

Lemma refreshTtl_compares_equal v_in v_local :
  compareUpToTtl v_in v_local = 0 ->
  compareUpToTtl (refreshTtl v_local v_in) v_local = 0.
Proof.
  intros H. apply compareUpToTtl_0 in H as (_ & _ & Hval).
  rewrite compareUpToTtl_unfold. simpl.
  rewrite Z.eqb_refl, String.eqb_refl. simpl.
  destruct Hval as [(b & _ & ->)|(_ & h & _ & Hh)].
  - by rewrite String.eqb_refl.
  - rewrite Hh, Z.eqb_refl. destruct (value v_local) as [b|]; [|done].
    by rewrite String.eqb_refl.
Qed.

Lemma refreshTtl_again v_in v_local :
  refreshTtl v_local (refreshTtl v_local v_in) = refreshTtl v_local v_in.
Proof. done. Qed.

(** The filter reads the originator id of the value. *)
Lemma filterRejects_originatorId key v1 v2 :
  originatorId v1 = originatorId v2 ->
  filterRejects filters key v1 = filterRejects filters key v2.
Proof. unfold filterRejects. by intros ->. Qed.

(** One step of the merge touches the entry of its key only. *)
Lemma mergeOne_lookup key v_in (kvStore delta : gmap string Value) k :
  (mergeOne key v_in (kvStore, delta)).1 !! k =
    (if decide (k = key) then mergedValue key (kvStore !! key) (Some v_in)
     else kvStore !! k) /\
  (mergeOne key v_in (kvStore, delta)).2 !! k =
    (if decide (k = key)
     then match deltaValue key (kvStore !! key) (Some v_in) with
          | Some v => Some v
          | None => delta !! key
          end
     else delta !! k).
Proof.
  unfold KvStore.mergeOne, KvStore.mergedValue, KvStore.deltaValue.
  destruct (filterRejects filters key v_in); simpl.
  { case_decide; by subst. }
  destruct (kvStore !! key) as [v_local|] eqn:Hlocal.
  - destruct (compareUpToTtl v_in v_local =? 1) eqn:H1; simpl.
    { case_decide; subst; by rewrite ?lookup_insert_eq, ?lookup_insert_ne. }
    destruct (compareUpToTtl v_in v_local =? -1) eqn:Hm1; simpl.
    { apply Z.eqb_eq in Hm1. rewrite Hm1. simpl. case_decide; by subst. }
    destruct (compareUpToTtl v_in v_local =? 0) eqn:H0; simpl.
    + destruct (ttlVersion v_in >? ttlVersion v_local); simpl;
        case_decide; subst;
        by rewrite ?lookup_insert_eq, ?lookup_insert_ne.
    + case_decide; by subst.
  - destruct (ttlTooLow kTtlThreshold kTtlInfinity v_in); simpl.
    + case_decide; by subst.
    + case_decide; subst; by rewrite ?lookup_insert_eq, ?lookup_insert_ne.
Qed.

(** The merge acts key by key. *)
Lemma mergeKeyValues_lookup (x y : gmap string Value) k :
  (mergeKeyValues x y).1 !! k = mergedValue k (x !! k) (y !! k) /\
  (mergeKeyValues x y).2 !! k = deltaValue k (x !! k) (y !! k).
Proof.
  unfold KvStore.mergeKeyValues.
  apply (map_fold_weak_ind
    (λ (r : gmap string Value * gmap string Value) (m : gmap string Value),
       r.1 !! k = mergedValue k (x !! k) (m !! k) /\
       r.2 !! k = deltaValue k (x !! k) (m !! k))).
  - by rewrite !lookup_empty.
  - intros key v_in m [kvStore delta] Hfresh [IH1 IH2]. simpl in IH1, IH2.
    destruct (mergeOne_lookup key v_in kvStore delta k) as [-> ->].
    destruct (decide (k = key)) as [->|Hne].
    + rewrite lookup_insert_eq. rewrite Hfresh in IH1, IH2.
      simpl in IH1, IH2. rewrite IH1, IH2.
      by destruct (deltaValue key (x !! key) (Some v_in)).
    + by rewrite lookup_insert_ne.
Qed.

Lemma mergedValue_again key local incoming :
  mergedValue key (mergedValue key local incoming) incoming
    = mergedValue key local incoming /\
  deltaValue key (mergedValue key local incoming) incoming = None.
Proof.
  unfold KvStore.mergedValue, KvStore.deltaValue.
  destruct incoming as [v_in|]; [|done].
  destruct (filterRejects filters key v_in) eqn:Hf; [done|].
  destruct (compareUpToTtl_refl v_in) as [Hn1 Hn0].
  destruct local as [v_local|].
  - destruct (compareUpToTtl v_in v_local =? 1) eqn:H1; simpl.
    { by rewrite Hn1, Hn0. }
    destruct ((compareUpToTtl v_in v_local =? 0) &&
              (ttlVersion v_in >? ttlVersion v_local)) eqn:Hr; simpl.
    + rewrite compareUpToTtl_refreshTtl, H1. simpl.
      by rewrite Z.gtb_ltb, Z.ltb_irrefl, andb_false_r.
    + by rewrite H1, Hr.
  - destruct (ttlTooLow kTtlThreshold kTtlInfinity v_in) eqn:Httl.
    + by rewrite ?Httl.
    + by rewrite Hn1, Hn0.
Qed.

Lemma mergedValue_absorb key local incoming :
  mergedValue key local (mergedValue key local incoming)
    = mergedValue key local incoming /\
  deltaValue key local (mergedValue key local incoming)
    = deltaValue key local incoming.
Proof.
  assert (mergedValue key local local = local /\
          deltaValue key local local = None) as Hself.
  { destruct local as [v|]; [|done].
    unfold KvStore.mergedValue, KvStore.deltaValue.
    destruct (compareUpToTtl_refl v) as [-> ->].
    by destruct (filterRejects filters key v). }
  destruct incoming as [v_in|]; [|exact Hself].
  assert ((mergedValue key local (Some v_in) = local /\
           deltaValue key local (Some v_in) = None) \/
          (mergedValue key local (Some v_in) = Some v_in /\
           deltaValue key local (Some v_in) = Some v_in) \/
          (exists v_local,
             local = Some v_local /\
             filterRejects filters key v_in = false /\
             compareUpToTtl v_in v_local = 0 /\
             (ttlVersion v_in >? ttlVersion v_local) = true /\
             mergedValue key local (Some v_in)
               = Some (refreshTtl v_local v_in) /\
             deltaValue key local (Some v_in) = None)) as Hcases.
  { unfold KvStore.mergedValue, KvStore.deltaValue.
    destruct (filterRejects filters key v_in) eqn:Hf; [by left|].
    destruct local as [v_local|].
    - destruct (compareUpToTtl v_in v_local =? 1) eqn:H1; [by right; left|].
      destruct (compareUpToTtl v_in v_local =? 0) eqn:H0; simpl;
        [|by left].
      destruct (ttlVersion v_in >? ttlVersion v_local) eqn:Hgt; [|by left].
      right. right. exists v_local. apply Z.eqb_eq in H0. done.
    - destruct (ttlTooLow kTtlThreshold kTtlInfinity v_in);
        [by left|by right; left]. }
  destruct Hcases
    as [[Hm Hd]|[[Hm Hd]|(v_local & -> & Hf & H0 & Hgt & Hm & Hd)]];
    rewrite Hm, ?Hd; [exact Hself|by split|].
  pose proof (compareUpToTtl_0 _ _ H0) as (_ & Ho & _).
  unfold KvStore.mergedValue, KvStore.deltaValue.
  rewrite (filterRejects_originatorId key (refreshTtl v_local v_in) v_in)
    by (simpl; congruence).
  rewrite Hf, (refreshTtl_compares_equal _ _ H0). simpl.
  by rewrite Hgt.
Qed.

(** C2. Merging an update [y] a second time into the store that resulted
    from merging it leaves that store unchanged and yields an empty
    delta; and merging the merged store itself into the original store
    gives the merged store again, with the same delta:
    merge(x, merge(x, y)) = merge(x, y). *)
Theorem mergeKeyValues_idempotent (x y : gmap string Value) :
  mergeKeyValues (mergeKeyValues x y).1 y = ((mergeKeyValues x y).1, ∅) /\
  mergeKeyValues x (mergeKeyValues x y).1 = mergeKeyValues x y.
Proof.
  split.
  - apply injective_projections; simpl; apply map_eq; intros k.
    + destruct (mergeKeyValues_lookup (mergeKeyValues x y).1 y k) as [-> _].
      destruct (mergeKeyValues_lookup x y k) as [-> _].
      apply mergedValue_again.
    + destruct (mergeKeyValues_lookup (mergeKeyValues x y).1 y k) as [_ ->].
      destruct (mergeKeyValues_lookup x y k) as [-> _].
      rewrite lookup_empty. apply mergedValue_again.
  - apply injective_projections; simpl; apply map_eq; intros k.
    + destruct (mergeKeyValues_lookup x (mergeKeyValues x y).1 k) as [-> _].
      destruct (mergeKeyValues_lookup x y k) as [-> _].
      apply mergedValue_absorb.
    + destruct (mergeKeyValues_lookup x (mergeKeyValues x y).1 k) as [_ ->].
      destruct (mergeKeyValues_lookup x y k) as [-> ->].
      apply mergedValue_absorb.
Qed.

End MergeFacts.

(** Merging a newer value replaces the stored one and floods it; merging
    it again does nothing. *)
Lemma mergeKeyValues_example :
  let x : gmap string Value := {[ "adj:node1"%string := exOld ]} in
  let y : gmap string Value := {[ "adj:node1"%string := exNew ]} in
  KvStore.mergeKeyValues None 0 (-1) x y = (y, y) /\
  KvStore.mergeKeyValues None 0 (-1) y y = (y, ∅) /\
  KvStore.mergeKeyValues None 0 (-1) y x = (y, ∅).
Proof. by vm_compute. Qed.

(** A refresh of the time-to-live raises the time-to-live and the ttl
    version of the stored value, which keeps its body, and is not
    flooded; merging it again does nothing. *)
Lemma mergeKeyValues_refresh_example :
  let x : gmap string Value := {[ "adj:node1"%string := exNew ]} in
  let y : gmap string Value := {[ "adj:node1"%string := exRefresh ]} in
  let x' : gmap string Value :=
    {[ "adj:node1"%string :=
         mkValue 2 "node1" (Some "b"%string) 7200 1 (Some 12) ]} in
  KvStore.mergeKeyValues None 0 (-1) x y = (x', ∅) /\
  KvStore.mergeKeyValues None 0 (-1) x' y = (x', ∅) /\
  KvStore.mergeKeyValues None 0 (-1) x x' = (x', ∅).
Proof. by vm_compute. Qed.

End KvStoreFacts.

Module FibFacts.
Import Fib.

Lemma containsb_spec p input : containsb p input = true <-> contains p input.
Proof.
  unfold containsb, contains.
  rewrite !andb_true_iff, !bool_decide_eq_true, Z.leb_le, Z.leb_le. tauto.
Qed.

(** Two normalized prefixes of one length that contain the same network
    are the same prefix. *)
Lemma contains_unique (p q input : IpPrefix) :
  contains p input -> contains q input ->
  prefixLength q = prefixLength p -> normalized p -> normalized q -> q = p.
Proof.
  destruct p as [pa pl], q as [qa ql]. unfold contains, normalized. simpl.
  intros (Hlp & Hrp & Htp) (Hlq & Hrq & Htq) -> Hnp Hnq. f_equal.
  apply (list_eq_same_length _ _ (length pa)); [done|congruence|].
  intros i x y Hi Hx Hy.
  destruct (decide (i < Z.to_nat pl)%nat) as [Hlt|Hge].
  - assert (take (Z.to_nat pl) qa !! i = take (Z.to_nat pl) pa !! i) as Heq
      by congruence.
    rewrite !lookup_take_lt in Heq by done. congruence.
  - rewrite (Hnq i x Hx), (Hnp i y Hy) by lia. done.
Qed.

Section LongestPrefixMatchFacts.
Variable UnicastRoute : Type.

Abbreviation longestPrefixMatch := (longestPrefixMatch UnicastRoute).

(** What the scan has found after going through the table [m]. *)
Lemma longestPrefixMatch_inv (input : IpPrefix)
    (table : gmap IpPrefix UnicastRoute) :
  match longestPrefixMatch input table with
  | Some p =>
      is_Some (table !! p) /\ contains p input /\
      forall q, is_Some (table !! q) -> contains q input ->
        prefixLength q <= prefixLength p
  | None => forall q, is_Some (table !! q) -> ~ contains q input
  end.
Proof.
  unfold Fib.longestPrefixMatch.
  apply (map_fold_weak_ind
    (λ (r : option IpPrefix) (m : gmap IpPrefix UnicastRoute),
       match r with
       | Some p =>
           is_Some (m !! p) /\ contains p input /\
           forall q, is_Some (m !! q) -> contains q input ->
             prefixLength q <= prefixLength p
       | None => forall q, is_Some (m !! q) -> ~ contains q input
       end)).
  - intros q [? Hq]. by rewrite lookup_empty in Hq.
  - intros dbPrefix route m matched Hfresh IH. unfold lpm_step.
    destruct (containsb dbPrefix input) eqn:Hc.
    + apply containsb_spec in Hc.
      destruct matched as [best|].
      * destruct IH as (Hbest & Hcb & Hmax).
        destruct (prefixLength best <? prefixLength dbPrefix) eqn:Hlt.
        -- apply Z.ltb_lt in Hlt. split; [by rewrite lookup_insert_eq|].
           split; [done|]. intros q Hq Hcq.
           rewrite lookup_insert in Hq. case_decide as Heq; [subst; lia|].
           specialize (Hmax q Hq Hcq). lia.
        -- apply Z.ltb_ge in Hlt. split.
           { rewrite lookup_insert_ne; [done|]. intros ->.
             rewrite Hfresh in Hbest. by destruct Hbest. }
           split; [done|]. intros q Hq Hcq.
           rewrite lookup_insert in Hq. case_decide as Heq; [subst; lia|].
           by apply Hmax.
      * split; [by rewrite lookup_insert_eq|]. split; [done|].
        intros q Hq Hcq. rewrite lookup_insert in Hq.
        case_decide as Heq; [subst; lia|]. by destruct (IH q Hq).
    + assert (~ contains dbPrefix input) as Hnc.
      { rewrite <- containsb_spec. by rewrite Hc. }
      destruct matched as [best|].
      * destruct IH as (Hbest & Hcb & Hmax). split.
        { rewrite lookup_insert_ne; [done|]. intros ->.
          rewrite Hfresh in Hbest. by destruct Hbest. }
        split; [done|]. intros q Hq Hcq.
        rewrite lookup_insert in Hq. case_decide as Heq; [by subst|].
        by apply Hmax.
      * intros q Hq. rewrite lookup_insert in Hq.
        case_decide as Heq; [by subst|]. by apply IH.
Qed.

(** C9. If [longestPrefixMatch] returns a prefix, that prefix is in the
    route table, contains the input network, and no prefix of the table
    that contains the input is longer; among normalized table prefixes it
    is the only one of its length that contains the input. The result is
    none exactly when no prefix of the table contains the input. *)
Theorem longestPrefixMatch_spec (input : IpPrefix)
    (table : gmap IpPrefix UnicastRoute) :
  (forall p, longestPrefixMatch input table = Some p ->
     is_Some (table !! p) /\ contains p input /\
     (forall q, is_Some (table !! q) -> contains q input ->
        prefixLength q <= prefixLength p) /\
     (forall q, is_Some (table !! q) -> contains q input ->
        prefixLength q = prefixLength p ->
        normalized p -> normalized q -> q = p)) /\
  (longestPrefixMatch input table = None <->
   forall q, is_Some (table !! q) -> ~ contains q input).
Proof.
  pose proof (longestPrefixMatch_inv input table) as Hinv.
  split.
  - intros p Hp. rewrite Hp in Hinv. destruct Hinv as (Hin & Hc & Hmax).
    split; [done|]. split; [done|]. split; [done|].
    intros q _ Hcq. by apply contains_unique with input.
  - split.
    + intros Hnone. by rewrite Hnone in Hinv.
    + intros Hno. destruct (longestPrefixMatch input table) as [p|]; [|done].
      destruct Hinv as (Hin & Hc & _). by destruct (Hno p Hin).
Qed.

End LongestPrefixMatchFacts.

(** The table of the unit test gives the answers the test expects. *)
Lemma longestPrefixMatch_test :
  longestPrefixMatch unit (ipv4 192 168 20 19, 32) testRoutes = Some dbPrefix4 /\
  longestPrefixMatch unit (ipv4 192 168 20 16, 28) testRoutes = Some dbPrefix4 /\
  longestPrefixMatch unit (ipv4 192 168 0 0, 32) testRoutes = Some dbPrefix3 /\
  longestPrefixMatch unit (ipv4 192 168 0 0, 14) testRoutes = None /\
  longestPrefixMatch unit (ipv4 192 168 0 0, 18) testRoutes = Some dbPrefix1 /\
  longestPrefixMatch unit (ipv4 192 168 0 0, 22) testRoutes = Some dbPrefix2 /\
  longestPrefixMatch unit (ipv4 192 168 0 0, 26) testRoutes = Some dbPrefix3.
Proof. by vm_compute. Qed.

End FibFacts.

Module DecisionFacts.
Import Decision.

Section AddUpdateFacts.
Variable addPerfEvent : Z -> PerfEvents -> string -> string -> PerfEvents.

(** What is relied on of [addPerfEvent]: it appends one event, of the
    given node and description, to the events it is given. *)
Hypothesis addPerfEvent_appends : forall now evs n d,
  exists e, addPerfEvent now evs n d = evs ++ [e] /\
    nodeName e = n /\ eventDescr e = d.

Abbreviation addUpdate := (addUpdate addPerfEvent).
Abbreviation addUpdates := (addUpdates addPerfEvent).
Abbreviation pending_inv := (pending_inv addPerfEvent).

Lemma addUpdates_snoc us u p :
  addUpdates (us ++ [u]) p =
  addUpdates us p ≫= λ p1, addUpdate u.1.1 u.1.2 u.2 p1.
Proof.
  revert p. induction us as [|[[now n] pe] us IH]; intros p; simpl.
  - destruct u as [[now n] pe]. simpl. by destruct (addUpdate now n pe p).
  - destruct (addUpdate now n pe p) as [p1|]; simpl; [apply IH|done].
Qed.

Lemma pending_inv_addUpdate seen now n given p :
  (forall pe, given = Some pe -> pe ≠ []) ->
  pending_inv seen p ->
  exists p', addUpdate now n given p = Some p' /\
    pending_inv (seen ++ [(now, n, given)]) p'.
Proof.
  intros Hne [Hcount Hrest].
  assert (forall c, c = count_ p ->
            (c + 1) mod 2 ^ 32
            = Z.of_nat (length (seen ++ [(now, n, given)])) mod 2 ^ 32)
    as Hcount'.
  { intros c ->. rewrite Hcount, length_app, Nat2Z.inj_add. simpl.
    by rewrite Z.add_mod_idemp_l. }
  assert (exists x l, seen ++ [(now, n, given)] = x :: l) as (x & l & Hcons).
  { destruct seen; simpl; by eauto. }
  unfold pending_inv. rewrite Hcons, <- Hcons.
  unfold Decision.addUpdate.
  destruct given as [events|].
  - destruct events as [|front events]; [by destruct (Hne [])|]. simpl.
    destruct (addPerfEvent_appends now (front :: events) n "DECISION_RECEIVED")
      as (e & He & Hn & Hd).
    destruct seen as [|u seen'].
    + destruct Hrest as [Hm Hp]. rewrite Hm. simpl.
      eexists. split; [done|]. simpl.
      split; [by apply Hcount'|].
      exists ((front :: events) ++ [e]), front, e. rewrite He.
      split; [done|]. split; [done|]. split; [done|].
      split; [apply last_snoc|]. split; [done|].
      split.
      { intros now' n' pe f Hin Hf.
        apply list_elem_of_singleton in Hin. injection Hin as -> -> ->.
        simpl in Hf. injection Hf as <-. lia. }
      exists now, n, (Some (front :: events)).
      split; [by apply list_elem_of_singleton|]. split; [done|].
      by rewrite <- He.
    + destruct Hrest as (evs & front0 & lastEv & Hpe & Hhd & Hmin & Hlast &
                         Hdescr & Hold & now0 & n0 & given0 & Hin0 & Hn0 & Hev).
      rewrite Hmin. simpl.
      destruct (unixTs front0 >? unixTs front) eqn:Hcmp.
      * apply Z.gtb_lt in Hcmp.
        eexists. split; [done|]. simpl. split; [by apply Hcount'|].
        exists ((front :: events) ++ [e]), front, e. rewrite He.
        split; [done|]. split; [done|]. split; [done|].
        split; [apply last_snoc|]. split; [done|].
        split.
        { intros now' n' pe f Hin Hf. rewrite app_comm_cons in Hin.
          apply elem_of_app in Hin as [Hin|Hin].
          - specialize (Hold now' n' pe f Hin Hf). lia.
          - apply list_elem_of_singleton in Hin. injection Hin as -> -> ->.
            simpl in Hf. injection Hf as <-. lia. }
        exists now, n, (Some (front :: events)).
        split; [rewrite app_comm_cons; apply elem_of_app; right;
                by apply list_elem_of_singleton|].
        split; [done|]. by rewrite <- He.
      * assert (unixTs front0 <= unixTs front) as Hle.
        { destruct (Z.gtb_spec (unixTs front0) (unixTs front)); [done|lia]. }
        eexists. split; [done|]. simpl. split; [by apply Hcount'|].
        exists evs, front0, lastEv.
        split; [done|]. split; [done|]. split; [done|].
        split; [done|]. split; [done|].
        split.
        { intros now' n' pe f Hin Hf. rewrite app_comm_cons in Hin.
          apply elem_of_app in Hin as [Hin|Hin].
          - by eapply Hold.
          - apply list_elem_of_singleton in Hin. injection Hin as -> -> ->.
            simpl in Hf. by injection Hf as <-. }
        exists now0, n0, given0.
        split; [rewrite app_comm_cons; apply elem_of_app; by left|done].
  - destruct seen as [|u seen'].
    + destruct Hrest as [Hm Hp]. rewrite Hp. simpl.
      destruct (addPerfEvent_appends now [] n "DECISION_RECEIVED")
        as (e & He & Hn & Hd).
      rewrite He. simpl. eexists. split; [done|]. simpl.
      split; [by apply Hcount'|].
      exists [e], e, e.
      split; [done|]. split; [done|]. split; [done|].
      split; [done|]. split; [done|].
      split.
      { intros now' n' pe f Hin.
        apply list_elem_of_singleton in Hin. by injection Hin. }
      exists now, n, None.
      split; [by apply list_elem_of_singleton|]. split; [done|].
      simpl. by rewrite He.
    + destruct Hrest as (evs & front0 & lastEv & Hpe & Hhd & Hmin & Hlast &
                         Hdescr & Hold & now0 & n0 & given0 & Hin0 & Hn0 & Hev).
      rewrite Hpe. eexists. split; [done|]. simpl.
      split; [by apply Hcount'|].
      exists evs, front0, lastEv.
      split; [done|]. split; [done|]. split; [done|].
      split; [done|]. split; [done|].
      split.
      { intros now' n' pe f Hin Hf. rewrite app_comm_cons in Hin.
          apply elem_of_app in Hin as [Hin|Hin].
        - by eapply Hold.
        - apply list_elem_of_singleton in Hin. by injection Hin. }
      exists now0, n0, given0.
      split; [rewrite app_comm_cons; apply elem_of_app; by left|done].
Qed.

Lemma pending_inv_addUpdates us :
  (forall now n pe, (now, n, Some pe) ∈ us -> pe ≠ []) ->
  exists p, addUpdates us noUpdates = Some p /\ pending_inv us p.
Proof.
  induction us as [|[[now n] given] us IH] using rev_ind; intros Hne.
  - exists noUpdates. by repeat split.
  - destruct IH as (p & Hrun & Hinv).
    { intros now' n' pe Hin. eapply Hne. apply elem_of_app. by left. }
    destruct (pending_inv_addUpdate us now n given p) as (p' & Hp' & Hinv');
      [|done|].
    { intros pe ->. eapply Hne. apply elem_of_app. right.
      by apply list_elem_of_singleton. }
    exists p'. split; [|done].
    rewrite addUpdates_snoc, Hrun. done.
Qed.

(** X27. The pending updates of Decision keep the oldest trace. Starting
    from the cleared state, a batch of updates none of which carries an
    empty event list is processed without touching an empty list, the
    counter is the number of updates modulo [2^32], and after at least
    one update a trace is kept: it is the trace of one of the updates (or
    a fresh one, for an update without a trace) extended by a
    [DECISION_RECEIVED] event of that update's node; [minTs_] is the time
    stamp of its first event; and no update of the batch carried a trace
    whose first event is older. *)
Theorem pending_updates_keep_oldest
    (us : list (Z * string * option PerfEvents)) :
  (forall now n pe, (now, n, Some pe) ∈ us -> pe ≠ []) ->
  exists p,
    addUpdates us noUpdates = Some p /\
    getCount p = Z.of_nat (length us) mod 2 ^ 32 /\
    (us ≠ [] ->
     exists evs front lastEv,
       getPerfEvents p = Some evs /\ head evs = Some front /\
       minTs_ p = Some (unixTs front) /\
       last evs = Some lastEv /\
       eventDescr lastEv = "DECISION_RECEIVED"%string /\
       (forall now n pe f, (now, n, Some pe) ∈ us -> head pe = Some f ->
          unixTs front <= unixTs f) /\
       exists now n given,
         (now, n, given) ∈ us /\ nodeName lastEv = n /\
         evs = addPerfEvent now (default [] given) n "DECISION_RECEIVED").
Proof.
  intros Hne. destruct (pending_inv_addUpdates us Hne) as (p & Hrun & Hc & Hinv).
  exists p. split; [done|]. split; [done|].
  intros Hnil. destruct us; [done|]. exact Hinv.
Qed.

End AddUpdateFacts.

Lemma exAddPerfEvent_appends now evs n d :
  exists e, exAddPerfEvent now evs n d = evs ++ [e] /\
    nodeName e = n /\ eventDescr e = d.
Proof. by eexists. Qed.

Lemma pending_updates_keep_oldest_witness :
  let us := [ (100, "node1", Some [mkPerfEvent "node1" "ADJ_DB_UPDATED" 70]);
              (110, "node2", None);
              (120, "node3", Some [mkPerfEvent "node3" "ADJ_DB_UPDATED" 50]);
              (130, "node4", Some [mkPerfEvent "node4" "ADJ_DB_UPDATED" 60])
            ]%string in
  (forall now n pe, (now, n, Some pe) ∈ us -> pe ≠ []) /\
  exists p,
    addUpdates exAddPerfEvent us noUpdates = Some p /\
    getCount p = 4 /\ minTs_ p = Some 50 /\
    getPerfEvents p =
      Some [mkPerfEvent "node3" "ADJ_DB_UPDATED" 50;
            mkPerfEvent "node3" "DECISION_RECEIVED" 120].
Proof.
  intros us.
  assert (Hne : forall now n pe, (now, n, Some pe) ∈ us -> pe ≠ []).
  { intros now n pe Hin. unfold us in Hin.
    repeat (apply elem_of_cons in Hin as [Heq|Hin]; [by simplify_eq|]).
    by apply elem_of_nil in Hin. }
  split; [exact Hne|].
  destruct (pending_updates_keep_oldest exAddPerfEvent exAddPerfEvent_appends
              us Hne) as (p & Hrun & Hcount & _).
  exists p. split; [exact Hrun|]. split; [exact Hcount|].
  vm_compute in Hrun. injection Hrun as <-. by split.
Defined.

End DecisionFacts.
